(** * Rough dielectric BSDF ([src/bsdfs/roughdielectric.cpp])

    A shallow embedding of the [RoughDielectric] plugin: the constructor's
    index-of-refraction check, the geometric helpers [signum], [reflect]
    and [refract], and the three query methods [eval], [pdf] and the two
    [sample] overloads.

    The C++ type [Float] is read as the field of real numbers: every
    statement below is a statement about exact real arithmetic, with the
    total division of the reals ([x / 0 = 0]) where the machine would
    produce an infinity or a NaN.  The query record is mutated in place
    by the sampling methods and the sampler is a shared random source;
    both are threaded explicitly. *)

From Stdlib Require Import Reals Lra Lia ZArith List Bool String.
Import ListNotations.

Open Scope R_scope.

(** ** Comparisons on [Float] as boolean tests *)

Definition Rltb (a b : R) : bool := if Rlt_dec a b then true else false.
Definition Rleb (a b : R) : bool := if Rle_dec a b then true else false.
Definition Reqb (a b : R) : bool := if Req_dec_T a b then true else false.

(** ** Vectors of the local shading frame

    [Vector], [Normal] and [Point2] come from the core library headers;
    only the operations used by the plugin are given. *)

Record Vector : Type := mkVector { vx : R; vy : R; vz : R }.

Definition Normal : Type := Vector.
Definition Point2 : Type := (R * R)%type.

Definition dot (a b : Vector) : R := vx a * vx b + vy a * vy b + vz a * vz b.

Definition vadd (a b : Vector) : Vector :=
  mkVector (vx a + vx b) (vy a + vy b) (vz a + vz b).

Definition vsub (a b : Vector) : Vector :=
  mkVector (vx a - vx b) (vy a - vy b) (vz a - vz b).

Definition vscale (s : R) (a : Vector) : Vector :=
  mkVector (s * vx a) (s * vy a) (s * vz a).

Definition length (a : Vector) : R := sqrt (dot a a).

Definition normalize (a : Vector) : Vector :=
  mkVector (vx a / length a) (vy a / length a) (vz a / length a).

(** [Frame::cosTheta]: the cosine to the shading normal is the z coordinate. *)
Definition cosTheta (v : Vector) : R := vz v.

(** ** Spectra *)

Definition Spectrum : Type := list R.

(** [Spectrum * Float] *)
Definition smul (s : Spectrum) (f : R) : Spectrum := map (fun c => c * f) s.

(** [Spectrum / Float] *)
Definition sdiv (s : Spectrum) (f : R) : Spectrum := map (fun c => c / f) s.

(** [Spectrum::isZero] *)
Definition isZero (s : Spectrum) : bool := forallb (fun c => Reqb c 0) s.

(** ** Enumerations of the query interface *)

Inductive EMeasure : Type := ESolidAngle | EArea | EDiscrete.

Definition EMeasure_eqb (a b : EMeasure) : bool :=
  match a, b with
  | ESolidAngle, ESolidAngle | EArea, EArea | EDiscrete, EDiscrete => true
  | _, _ => false
  end.

Inductive ETransportQuantity : Type := ERadiance | EImportance.

Definition isRadiance (q : ETransportQuantity) : bool :=
  match q with ERadiance => true | EImportance => false end.

(** ** The random source

    Modelled from the spec: the sampler class is declared outside the
    plugin; its interface is [next1D() -> uniform value], a draw that
    advances the source.  The source is an infinite sequence of numbers
    together with the count of draws already taken. *)

Record Sampler : Type := mkSampler { draws : nat -> R; position : nat }.

Definition next1D (s : Sampler) : R * Sampler :=
  (draws s (position s), mkSampler (draws s) (S (position s))).

(** ** The microfacet distribution (interface of [microfacet.h]) *)

Module MicrofacetDistribution.

Record t : Type := mk {
  transformRoughness : R -> R;
  eval : Normal -> R -> R -> R;
  G : Vector -> Vector -> Normal -> R -> R -> R;
  pdf : Normal -> R -> R -> R;
  sample : Point2 -> R -> R -> Normal
}.

End MicrofacetDistribution.

(** The macro [ENLARGE_LOBE_TRICK] of the plugin. *)
Definition ENLARGE_LOBE_TRICK : Z := 1.

(** ** The constructor's check on the indices of refraction *)

Inductive ELogLevel : Type := EError.

(** [Log(EError, ...)] raises; the constructor either fails with the
    logged message or carries on. *)
Definition checkIOR (m_intIOR m_extIOR : R) : ELogLevel + unit :=
  if Rltb m_intIOR 0 || Rltb m_extIOR 0 || Reqb m_intIOR m_extIOR
  then inl EError
  else inr tt.

(** ** Geometric helpers *)

Definition signum (value : R) : R := if Rltb value 0 then -1 else 1.

Definition reflect (wi : Vector) (m : Normal) : Vector :=
  vsub (vscale (2 * dot wi m) m) wi.

(** [refract] writes [wo] and returns [true], or leaves [wo] alone and
    returns [false]: [Some wo] and [None]. *)
Definition refract (wi : Vector) (m : Normal) (etaI etaT : R) : option Vector :=
  let eta := etaI / etaT in
  let c := dot wi m in
  let cosThetaTSqr := 1 + eta * eta * (c * c - 1) in
  if Rltb cosThetaTSqr 0 then None
  else Some (vsub (vscale (eta * c - signum (vz wi) * sqrt cosThetaTSqr) m)
                  (vscale eta wi)).

Module Plugin.

Section Class.

(** Declarations of the renderer that the plugin only uses: the type of
    surface interactions, the Fresnel evaluator of the core library,
    the two component flags of the BSDF type mask and the number of
    spectral samples. *)
Context {Intersection : Type}.
Variable fresnel : R -> R -> R -> R.
Variables EGlossyReflection EGlossyTransmission : Z.
Variable SPECTRUM_SAMPLES : nat.

(** [Spectrum(Float)] *)
Definition Spectrum_const (f : R) : Spectrum := repeat f SPECTRUM_SAMPLES.

(** [Spectrum::average] *)
Definition average (s : Spectrum) : R :=
  fold_right Rplus 0 s / INR SPECTRUM_SAMPLES.

(** A texture is its [getValue] method. *)
Definition Texture : Type := Intersection -> Spectrum.

Record BSDFQueryRecord : Type := mkBSDFQueryRecord {
  its : Intersection;
  wi : Vector;
  wo : Vector;
  quantity : ETransportQuantity;
  typeMask : Z;
  component : Z;
  sampledComponent : Z;
  sampledType : Z
}.

Definition set_wo (bRec : BSDFQueryRecord) (v : Vector) : BSDFQueryRecord :=
  mkBSDFQueryRecord (its bRec) (wi bRec) v (quantity bRec) (typeMask bRec)
    (component bRec) (sampledComponent bRec) (sampledType bRec).

Definition set_sampled (bRec : BSDFQueryRecord) (c t : Z) : BSDFQueryRecord :=
  mkBSDFQueryRecord (its bRec) (wi bRec) (wo bRec) (quantity bRec)
    (typeMask bRec) (component bRec) c t.

(** The private members of the class. *)
Record RoughDielectric : Type := mkRoughDielectric {
  m_distribution : MicrofacetDistribution.t;
  m_specularTransmittance : Texture;
  m_specularReflectance : Texture;
  m_alphaU : Texture;
  m_alphaV : Texture;
  m_intIOR : R;
  m_extIOR : R
}.

(** The material [this] with the sampling density and the sampling
    routine of its distribution replaced. *)
Definition withSampling (this : RoughDielectric)
    (pdf' : Normal -> R -> R -> R) (sample' : Point2 -> R -> R -> Normal)
  : RoughDielectric :=
  mkRoughDielectric
    (MicrofacetDistribution.mk
       (MicrofacetDistribution.transformRoughness (m_distribution this))
       (MicrofacetDistribution.eval (m_distribution this))
       (MicrofacetDistribution.G (m_distribution this))
       pdf' sample')
    (m_specularTransmittance this) (m_specularReflectance this)
    (m_alphaU this) (m_alphaV this) (m_intIOR this) (m_extIOR this).

Variable this : RoughDielectric.

(** [typeMask & flag] used as a condition. *)
Definition hasFlag (mask flag : Z) : bool := negb (Z.land mask flag =? 0)%Z.

Definition hasReflection (bRec : BSDFQueryRecord) : bool :=
  ((component bRec =? -1)%Z || (component bRec =? 0)%Z)
  && hasFlag (typeMask bRec) EGlossyReflection.

Definition hasTransmission (bRec : BSDFQueryRecord) : bool :=
  ((component bRec =? -1)%Z || (component bRec =? 1)%Z)
  && hasFlag (typeMask bRec) EGlossyTransmission.

(** The roughness values read by every query:
    [m_distribution.transformRoughness(m_alpha->getValue(bRec.its).average())]. *)
Definition roughnessU (bRec : BSDFQueryRecord) : R :=
  MicrofacetDistribution.transformRoughness (m_distribution this)
    (average (m_alphaU this (its bRec))).

Definition roughnessV (bRec : BSDFQueryRecord) : R :=
  MicrofacetDistribution.transformRoughness (m_distribution this)
    (average (m_alphaV this (its bRec))).

(** The indices of refraction seen from the side of [wi]:
    [etaI = m_extIOR, etaT = m_intIOR], swapped when [cosTheta(wi) < 0]. *)
Definition etaPair (bRec : BSDFQueryRecord) : R * R :=
  if Rltb (cosTheta (wi bRec)) 0
  then (m_intIOR this, m_extIOR this)
  else (m_extIOR this, m_intIOR this).

(** The two half-vectors computed by [eval] and [pdf]. *)
Definition halfReflect (bRec : BSDFQueryRecord) : Vector :=
  vscale (signum (cosTheta (wo bRec))) (normalize (vadd (wo bRec) (wi bRec))).

Definition halfTransmit (bRec : BSDFQueryRecord) : Vector :=
  let '(etaI, etaT) := etaPair bRec in
  vscale (if Rltb (m_intIOR this) (m_extIOR this) then 1 else -1)
         (normalize (vadd (vscale etaI (wi bRec)) (vscale etaT (wo bRec)))).

(** ** [eval] *)
Definition eval (bRec : BSDFQueryRecord) (measure : EMeasure) : Spectrum :=
  if negb (EMeasure_eqb measure ESolidAngle) then Spectrum_const 0 else
  let reflect := Rltb 0 (cosTheta (wi bRec) * cosTheta (wo bRec)) in
  let '(etaI, etaT) := etaPair bRec in
  let requested :=
    if reflect
    then negb ((negb (component bRec =? -1)%Z && negb (component bRec =? 0)%Z)
               || negb (hasFlag (typeMask bRec) EGlossyReflection))
    else negb ((negb (component bRec =? -1)%Z && negb (component bRec =? 1)%Z)
               || negb (hasFlag (typeMask bRec) EGlossyTransmission)) in
  if negb requested then Spectrum_const 0 else
  let H := if reflect then halfReflect bRec else halfTransmit bRec in
  let D_ := m_distribution this in
  let alphaU := MicrofacetDistribution.transformRoughness D_
                  (average (m_alphaU this (its bRec))) in
  let alphaV := MicrofacetDistribution.transformRoughness D_
                  (average (m_alphaV this (its bRec))) in
  let D := MicrofacetDistribution.eval D_ H alphaU alphaV in
  if Reqb D 0 then Spectrum_const 0 else
  let F := fresnel (dot (wi bRec) H) (m_extIOR this) (m_intIOR this) in
  let G := MicrofacetDistribution.G D_ (wi bRec) (wo bRec) H alphaU alphaV in
  if reflect then
    let value := F * D * G / (4 * Rabs (cosTheta (wi bRec))) in
    smul (m_specularReflectance this (its bRec)) value
  else
    let sqrtDenom := etaI * dot (wi bRec) H + etaT * dot (wo bRec) H in
    let value := ((1 - F) * D * G * etaT * etaT
                  * dot (wi bRec) H * dot (wo bRec) H)
                 / (cosTheta (wi bRec) * sqrtDenom * sqrtDenom) in
    let value := if isRadiance (quantity bRec)
                 then value * ((etaI * etaI) / (etaT * etaT))
                 else value in
    smul (m_specularTransmittance this (its bRec)) (Rabs value).

(** ** [pdf]

    [pdf_with] takes the value of the macro [ENLARGE_LOBE_TRICK], which
    selects the preprocessor branch; [pdf] is the method as compiled. *)
Definition pdf_with (trick : Z) (bRec : BSDFQueryRecord) (measure : EMeasure) : R :=
  if negb (EMeasure_eqb measure ESolidAngle) then 0 else
  let hasReflection := hasReflection bRec in
  let hasTransmission := hasTransmission bRec in
  let reflect := Rltb 0 (cosTheta (wi bRec) * cosTheta (wo bRec)) in
  let '(etaI, etaT) := etaPair bRec in
  let requested :=
    if reflect
    then negb ((negb (component bRec =? -1)%Z && negb (component bRec =? 0)%Z)
               || negb (hasFlag (typeMask bRec) EGlossyReflection))
    else negb ((negb (component bRec =? -1)%Z && negb (component bRec =? 1)%Z)
               || negb (hasFlag (typeMask bRec) EGlossyTransmission)) in
  if negb requested then 0 else
  let H := if reflect then halfReflect bRec else halfTransmit bRec in
  let dwh_dwo :=
    if reflect then 1 / (4 * dot (wo bRec) H)
    else
      let sqrtDenom := etaI * dot (wi bRec) H + etaT * dot (wo bRec) H in
      (etaT * etaT * dot (wo bRec) H) / (sqrtDenom * sqrtDenom) in
  let D_ := m_distribution this in
  let alphaU := MicrofacetDistribution.transformRoughness D_
                  (average (m_alphaU this (its bRec))) in
  let alphaV := MicrofacetDistribution.transformRoughness D_
                  (average (m_alphaV this (its bRec))) in
  let '(alphaU, alphaV) :=
    if (trick =? 1)%Z then
      let factor := 1.2 - 0.2 * sqrt (Rabs (cosTheta (wi bRec))) in
      (alphaU * factor, alphaV * factor)
    else (alphaU, alphaV) in
  let prob := MicrofacetDistribution.pdf D_ H alphaU alphaV in
  let prob :=
    if hasTransmission && hasReflection then
      let F := fresnel (dot (wi bRec) H) (m_extIOR this) (m_intIOR this) in
      prob * (if reflect then F else 1 - F)
    else prob in
  Rabs (prob * dwh_dwo).

Definition pdf : BSDFQueryRecord -> EMeasure -> R := pdf_with ENLARGE_LOBE_TRICK.

(** ** Sampling

    Both overloads start alike: the enabled components, the roughness
    used for sampling, the microsurface normal and the choice between
    reflection and transmission, which draws from the sampler only when
    both components are enabled. *)

Definition sampleAlpha (trick : Z) (bRec : BSDFQueryRecord) : R * R :=
  let D_ := m_distribution this in
  let alphaU := MicrofacetDistribution.transformRoughness D_
                  (average (m_alphaU this (its bRec))) in
  let alphaV := MicrofacetDistribution.transformRoughness D_
                  (average (m_alphaV this (its bRec))) in
  if (trick =? 1)%Z then
    let factor := 1.2 - 0.2 * sqrt (Rabs (cosTheta (wi bRec))) in
    (alphaU * factor, alphaV * factor)
  else (alphaU, alphaV).

(** [m = m_distribution.sample(sample, sampleAlphaU, sampleAlphaV)] *)
Definition sampleNormal (trick : Z) (bRec : BSDFQueryRecord) (_sample : Point2) : Normal :=
  let '(sampleAlphaU, sampleAlphaV) := sampleAlpha trick bRec in
  MicrofacetDistribution.sample (m_distribution this) _sample
    sampleAlphaU sampleAlphaV.

(** The value of [choseReflection] after the optional draw, and the
    sampler after it. *)
Definition choose (bRec : BSDFQueryRecord) (sampler : Sampler) (m : Normal)
  : bool * Sampler :=
  let choseReflection := hasReflection bRec in
  if hasReflection bRec && hasTransmission bRec then
    let F := fresnel (dot (wi bRec) m) (m_extIOR this) (m_intIOR this) in
    let '(xi, sampler) := next1D sampler in
    (if Rltb F xi then false else choseReflection, sampler)
  else (choseReflection, sampler).

(** The outcome of the branch taken: [inl] is an early [return
    Spectrum(0.0f)] with the record as it is at that point, [inr] the
    record to carry on with. *)
Definition scatter (bRec : BSDFQueryRecord) (m : Normal) (choseReflection : bool)
  : BSDFQueryRecord + BSDFQueryRecord :=
  if choseReflection then
    let bRec := set_wo bRec (reflect (wi bRec) m) in
    let bRec := set_sampled bRec 0 EGlossyReflection in
    if Rleb (cosTheta (wi bRec) * cosTheta (wo bRec)) 0 then inl bRec
    else inr bRec
  else
    let '(etaI, etaT) := etaPair bRec in
    match refract (wi bRec) m etaI etaT with
    | None => inl bRec
    | Some v =>
        let bRec := set_wo bRec v in
        let bRec := set_sampled bRec 1 EGlossyTransmission in
        if Rleb 0 (cosTheta (wi bRec) * cosTheta (wo bRec)) then inl bRec
        else inr bRec
    end.

(** [Spectrum sample(BSDFQueryRecord &bRec, const Point2 &_sample)]:
    the returned weight, the record and the sampler after the call. *)
Definition sample_with (trick : Z) (bRec : BSDFQueryRecord) (sampler : Sampler)
    (_sample : Point2) : Spectrum * BSDFQueryRecord * Sampler :=
  if negb (hasReflection bRec) && negb (hasTransmission bRec)
  then (Spectrum_const 0, bRec, sampler) else
  let D_ := m_distribution this in
  let alphaU := MicrofacetDistribution.transformRoughness D_
                  (average (m_alphaU this (its bRec))) in
  let alphaV := MicrofacetDistribution.transformRoughness D_
                  (average (m_alphaV this (its bRec))) in
  let '(sampleAlphaU, sampleAlphaV) := sampleAlpha trick bRec in
  let m := sampleNormal trick bRec _sample in
  let '(choseReflection, sampler) := choose bRec sampler m in
  match scatter bRec m choseReflection with
  | inl bRec => (Spectrum_const 0, bRec, sampler)
  | inr bRec =>
      let result :=
        if choseReflection then m_specularReflectance this (its bRec)
        else
          let '(etaI, etaT) := etaPair bRec in
          smul (m_specularTransmittance this (its bRec))
               (if isRadiance (quantity bRec)
                then (etaI * etaI) / (etaT * etaT) else 1) in
      let numerator :=
        MicrofacetDistribution.eval D_ m alphaU alphaV
        * MicrofacetDistribution.G D_ (wi bRec) (wo bRec) m alphaU alphaV
        * dot (wi bRec) m in
      let denominator :=
        MicrofacetDistribution.pdf D_ m sampleAlphaU sampleAlphaV
        * cosTheta (wi bRec) in
      (smul result (Rabs (numerator / denominator)), bRec, sampler)
  end.

Definition sample : BSDFQueryRecord -> Sampler -> Point2 ->
                    Spectrum * BSDFQueryRecord * Sampler :=
  sample_with ENLARGE_LOBE_TRICK.

(** The weight computed at the end of the first overload, from the record
    [bRec] as it is after the direction was written, the sampled normal and
    the branch taken. *)
Definition sampleWeight (trick : Z) (bRec : BSDFQueryRecord) (m : Normal)
    (choseReflection : bool) : Spectrum :=
  let result :=
    if choseReflection then m_specularReflectance this (its bRec)
    else smul (m_specularTransmittance this (its bRec))
              (if isRadiance (quantity bRec)
               then (fst (etaPair bRec) * fst (etaPair bRec))
                    / (snd (etaPair bRec) * snd (etaPair bRec))
               else 1) in
  smul result
    (Rabs ((MicrofacetDistribution.eval (m_distribution this) m
              (roughnessU bRec) (roughnessV bRec)
            * MicrofacetDistribution.G (m_distribution this) (wi bRec) (wo bRec) m
                (roughnessU bRec) (roughnessV bRec)
            * dot (wi bRec) m)
           / (MicrofacetDistribution.pdf (m_distribution this) m
                (fst (sampleAlpha trick bRec)) (snd (sampleAlpha trick bRec))
              * cosTheta (wi bRec)))).

(** [Spectrum sample(BSDFQueryRecord &bRec, Float &_pdf, const Point2 &_sample)]:
    [_pdf] is passed by reference, so its content before the call is an
    input and its content after the call an output. *)
Definition sample_pdf_with (trick : Z) (bRec : BSDFQueryRecord) (sampler : Sampler)
    (_pdf : R) (_sample : Point2) : Spectrum * R * BSDFQueryRecord * Sampler :=
  if negb (hasReflection bRec) && negb (hasTransmission bRec)
  then (Spectrum_const 0, _pdf, bRec, sampler) else
  let m := sampleNormal trick bRec _sample in
  let '(choseReflection, sampler) := choose bRec sampler m in
  match scatter bRec m choseReflection with
  | inl bRec => (Spectrum_const 0, _pdf, bRec, sampler)
  | inr bRec =>
      let _pdf := pdf_with trick bRec ESolidAngle in
      if Reqb _pdf 0 then (Spectrum_const 0, _pdf, bRec, sampler)
      else (eval bRec ESolidAngle, _pdf, bRec, sampler)
  end.

Definition sample_pdf : BSDFQueryRecord -> Sampler -> R -> Point2 ->
                        Spectrum * R * BSDFQueryRecord * Sampler :=
  sample_pdf_with ENLARGE_LOBE_TRICK.

End Class.

End Plugin.

Import Plugin.

(** ** Queries in both directions *)

(** The query with the two directions exchanged. *)
Definition reverse {Intersection : Type} (bRec : BSDFQueryRecord (Intersection := Intersection))
  : BSDFQueryRecord :=
  mkBSDFQueryRecord (its bRec) (wo bRec) (wi bRec) (quantity bRec) (typeMask bRec)
    (component bRec) (sampledComponent bRec) (sampledType bRec).

(** ** Construction, configuration and persistence

    The members of the class as the constructors, [configure],
    [addChild] and [serialize] see them: textures are objects held by
    reference, and two references are compared by the object they point
    to, not by its content. *)

Module Configuration.

(** Texture classes of the renderer.  A constant texture is constant and
    uses no ray differentials; any other texture answers for itself. *)
Inductive TextureObject : Type :=
| ConstantFloatTexture (value : R)
| ConstantSpectrumTexture (value : Spectrum)
| OtherTexture (constant rayDifferentials : bool).

(** [ref<Texture>]: the address of the object and the object. *)
Record Ref : Type := mkRef { address : nat; object : TextureObject }.

Definition isConstant (t : Ref) : bool :=
  match object t with
  | ConstantFloatTexture _ | ConstantSpectrumTexture _ => true
  | OtherTexture constant _ => constant
  end.

Definition usesRayDifferentials (t : Ref) : bool :=
  match object t with
  | ConstantFloatTexture _ | ConstantSpectrumTexture _ => false
  | OtherTexture _ rayDifferentials => rayDifferentials
  end.

(** Comparison of two references, [a == b]. *)
Definition sameObject (a b : Ref) : bool := (address a =? address b)%nat.

(** [new T(...)]: the next free address holds the new object. *)
Definition new (t : TextureObject) (next : nat) : Ref * nat :=
  (mkRef next t, S next).

(** The private members, with the type of the distribution in place of
    the distribution, the component list and the ray-differential flag of
    the base class. *)
Record Object : Type := mkObject {
  m_distribution : Z;
  m_specularTransmittance : Ref;
  m_specularReflectance : Ref;
  m_alphaU : Ref;
  m_alphaV : Ref;
  m_intIOR : R;
  m_extIOR : R;
  m_components : list Z;
  m_usesRayDifferentials : bool
}.

(** A child handed to [addChild]: a texture or an object of another class. *)
Inductive ConfigurableObject : Type :=
| TextureChild (t : Ref)
| OtherChild (id : nat).

(** What a stream holds. *)
Inductive Token : Type :=
| UInt (n : Z)
| Float (x : R)
| Instance (t : Ref).

(** What the plugin uses of the framework without defining it. *)
Record Framework : Type := mkFramework {
  Properties : Type;
  getFloat : Properties -> string -> R -> R;
  getString : Properties -> string -> string -> string;
  getSpectrum : Properties -> string -> Spectrum -> Spectrum;
  lookupIOR : Properties -> string -> string -> R;
  (** [MicrofacetDistribution(name).getType()] *)
  distributionType : string -> Z;
  EAshikhminShirley : Z;
  EGlossyReflection : Z;
  EGlossyTransmission : Z;
  EFrontSide : Z;
  EBackSide : Z;
  ECanUseSampler : Z;
  EAnisotropic : Z;
  ESpatiallyVarying : Z;
  SPECTRUM_SAMPLES : nat;
  ensureEnergyConservation : Ref -> string -> R -> Ref;
  BSDF_configure : Object -> Object;
  BSDF_addChild : string -> ConfigurableObject -> Object -> ELogLevel + Object;
  (** what [BSDF::serialize] writes, and what is left of a stream once
      the constructor of [BSDF] has read from it *)
  BSDF_serialize : Object -> list Token;
  BSDF_unserialize : list Token -> option (list Token)
}.

Section Members.

Variable fw : Framework.

(** [RoughDielectric(const Properties &props)], from the next free
    address on. *)
Definition construct (props : Properties fw) (next : nat) : ELogLevel + (Object * nat) :=
  let '(specularReflectance, next) :=
    new (ConstantSpectrumTexture
           (getSpectrum fw props "specularReflectance"
              (Spectrum_const (SPECTRUM_SAMPLES fw) 1))) next in
  let '(specularTransmittance, next) :=
    new (ConstantSpectrumTexture
           (getSpectrum fw props "specularTransmittance"
              (Spectrum_const (SPECTRUM_SAMPLES fw) 1))) next in
  let intIOR := lookupIOR fw props "intIOR" "bk7" in
  let extIOR := lookupIOR fw props "extIOR" "air" in
  match checkIOR intIOR extIOR with
  | inl e => inl e
  | inr _ =>
      let distribution :=
        distributionType fw (getString fw props "distribution" "beckmann") in
      let alpha := getFloat fw props "alpha" 0.1 in
      let alphaU := getFloat fw props "alphaU" alpha in
      let alphaV := getFloat fw props "alphaV" alpha in
      let '(m_alphaU, next) := new (ConstantFloatTexture alphaU) next in
      let '(m_alphaV, next) :=
        if Reqb alphaU alphaV then (m_alphaU, next)
        else new (ConstantFloatTexture alphaV) next in
      inr (mkObject distribution specularTransmittance specularReflectance
             m_alphaU m_alphaV intIOR extIOR [] false, next)
  end.

(** [configure()] *)
Definition configure (o : Object) : ELogLevel + Object :=
  let extraFlags := 0%Z in
  let anisotropy :=
    if negb (sameObject (m_alphaU o) (m_alphaV o)) then
      let extraFlags := Z.lor extraFlags (EAnisotropic fw) in
      if negb (m_distribution o =? EAshikhminShirley fw)%Z
      then inl EError else inr extraFlags
    else inr extraFlags in
  match anisotropy with
  | inl e => inl e
  | inr extraFlags =>
      let extraFlags :=
        if negb (isConstant (m_alphaU o)) || negb (isConstant (m_alphaV o))
        then Z.lor extraFlags (ESpatiallyVarying fw) else extraFlags in
      let components :=
        [ Z.lor (Z.lor (Z.lor (Z.lor (Z.lor (EGlossyReflection fw) (EFrontSide fw))
                                     (EBackSide fw)) (ECanUseSampler fw)) extraFlags)
                (if isConstant (m_specularReflectance o) then 0%Z
                 else ESpatiallyVarying fw);
          Z.lor (Z.lor (Z.lor (Z.lor (Z.lor (EGlossyTransmission fw) (EFrontSide fw))
                                     (EBackSide fw)) (ECanUseSampler fw)) extraFlags)
                (if isConstant (m_specularTransmittance o) then 0%Z
                 else ESpatiallyVarying fw) ] in
      let specularReflectance :=
        ensureEnergyConservation fw (m_specularReflectance o) "specularReflectance" 1 in
      let specularTransmittance :=
        ensureEnergyConservation fw (m_specularTransmittance o) "specularTransmittance" 1 in
      let uses :=
        usesRayDifferentials (m_alphaU o)
        || usesRayDifferentials (m_alphaV o)
        || usesRayDifferentials specularReflectance
        || usesRayDifferentials specularTransmittance in
      inr (BSDF_configure fw
             (mkObject (m_distribution o) specularTransmittance specularReflectance
                (m_alphaU o) (m_alphaV o) (m_intIOR o) (m_extIOR o) components uses))
  end.

(** [addChild(name, child)] *)
Definition addChild (name : string) (child : ConfigurableObject) (o : Object)
  : ELogLevel + Object :=
  match child with
  | TextureChild t =>
      if (name =? "alpha")%string then
        inr (mkObject (m_distribution o) (m_specularTransmittance o)
               (m_specularReflectance o) t t (m_intIOR o) (m_extIOR o)
               (m_components o) (m_usesRayDifferentials o))
      else if (name =? "alphaU")%string then
        inr (mkObject (m_distribution o) (m_specularTransmittance o)
               (m_specularReflectance o) t (m_alphaV o) (m_intIOR o) (m_extIOR o)
               (m_components o) (m_usesRayDifferentials o))
      else if (name =? "alphaV")%string then
        inr (mkObject (m_distribution o) (m_specularTransmittance o)
               (m_specularReflectance o) (m_alphaU o) t (m_intIOR o) (m_extIOR o)
               (m_components o) (m_usesRayDifferentials o))
      else if (name =? "specularReflectance")%string then
        inr (mkObject (m_distribution o) (m_specularTransmittance o)
               t (m_alphaU o) (m_alphaV o) (m_intIOR o) (m_extIOR o)
               (m_components o) (m_usesRayDifferentials o))
      else if (name =? "specularTransmittance")%string then
        inr (mkObject (m_distribution o) t
               (m_specularReflectance o) (m_alphaU o) (m_alphaV o) (m_intIOR o)
               (m_extIOR o) (m_components o) (m_usesRayDifferentials o))
      else BSDF_addChild fw name child o
  | OtherChild _ => BSDF_addChild fw name child o
  end.

(** [(uint32_t) value] *)
Definition uint32 (value : Z) : Z := (value mod 2 ^ 32)%Z.

(** [serialize(stream, manager)]: what is appended to the stream. *)
Definition serialize (o : Object) : list Token :=
  BSDF_serialize fw o
  ++ [ UInt (uint32 (m_distribution o));
       Instance (m_alphaU o); Instance (m_alphaV o);
       Instance (m_specularReflectance o); Instance (m_specularTransmittance o);
       Float (m_intIOR o); Float (m_extIOR o) ].

(** [RoughDielectric(Stream *stream, InstanceManager *manager)]: [None]
    when the stream does not hold what is read from it, otherwise the
    outcome of [configure] and what is left of the stream. *)
Definition unserialize (stream : list Token) : option ((ELogLevel + Object) * list Token) :=
  match BSDF_unserialize fw stream with
  | Some (UInt type :: Instance alphaU :: Instance alphaV
          :: Instance specularReflectance :: Instance specularTransmittance
          :: Float intIOR :: Float extIOR :: rest) =>
      Some (configure (mkObject type specularTransmittance specularReflectance
                         alphaU alphaV intIOR extIOR [] false), rest)
  | _ => None
  end.

End Members.

End Configuration.

(** [flags] has every bit of [f]: [(flags & f) == f]. *)
Definition contains (flags f : Z) : Prop := Z.land flags f = f.

(** ** Concrete scenes

    Materials over a renderer with three spectral samples and the flag
    values [0x04] and [0x08]: a constant Fresnel term, a distribution
    whose density and shadowing are constant, whose sampling density is
    its first roughness argument and whose sampled normal is always [m],
    constant textures, and the given indices of refraction. *)

Definition scene_fresnel (cosThetaI extIOR intIOR : R) : R := 1 / 2.

Definition scene_distribution (m : Normal) : MicrofacetDistribution.t :=
  MicrofacetDistribution.mk
    (fun alpha => alpha)
    (fun _ _ _ => 1)
    (fun _ _ _ _ _ => 1)
    (fun _ alphaU _ => alphaU)
    (fun _ _ _ => m).

Definition scene_bsdf (m : Normal) (intIOR extIOR : R)
  : RoughDielectric (Intersection := unit) :=
  mkRoughDielectric (scene_distribution m)
    (fun _ => [1; 1; 1]) (fun _ => [1; 1; 1])
    (fun _ => [1 / 10; 1 / 10; 1 / 10]) (fun _ => [1 / 10; 1 / 10; 1 / 10])
    intIOR extIOR.

(** The outgoing direction of a query that has not been sampled yet. *)
Definition unset : Vector := mkVector 0 0 0.

Definition up : Vector := mkVector 0 0 1.
Definition down : Vector := mkVector 0 0 (-1).

(** Glass below air, sampled along the shading normal. *)
Definition glass : RoughDielectric (Intersection := unit) :=
  scene_bsdf up (3 / 2) 1.

(** A denser medium above a lighter one, sampled along a tilted normal. *)
Definition tilted : RoughDielectric (Intersection := unit) :=
  scene_bsdf (mkVector (3 / 5) 0 (4 / 5)) 1 (5 / 3).

(** A radiance query for any component, with the given type mask. *)
Definition scene_query (mask : Z) (wi wo : Vector) (sampledComponent sampledType : Z)
  : BSDFQueryRecord (Intersection := unit) :=
  mkBSDFQueryRecord tt wi wo ERadiance mask (-1) sampledComponent sampledType.

(** Unit directions: oblique from above and from below, grazing, and
    leaning away from the tilted normal. *)
Definition oblique : Vector := mkVector (8 / 9) (1 / 9) (4 / 9).
Definition inside : Vector := mkVector (8 / 9) (1 / 9) (- 4 / 9).
Definition grazing : Vector := mkVector (24 / 25) 0 (7 / 25).
Definition leaning : Vector := mkVector (- 3 / 5) 0 (4 / 5).

(** [oblique] mirrored at the shading normal, and [grazing] bent at the
    tilted normal under the critical angle. *)
Definition mirrored : Vector := mkVector (- 8 / 9) (- 1 / 9) (4 / 9).
Definition bent : Vector := mkVector (- 4 / 5) 0 (3 / 5).

(** A sampler whose every draw is [xi]. *)
Definition scene_sampler (xi : R) : Sampler := mkSampler (fun _ => xi) 0.

(** A sampling density and a sampling routine that agree with those of
    [scene_distribution up] at the roughness [1/10] only. *)
Definition scene_pdf' (H : Normal) (alphaU alphaV : R) : R :=
  if Reqb alphaU (1 / 10) then alphaU else 0.

Definition scene_sample' (u : Point2) (alphaU alphaV : R) : Normal :=
  if Reqb alphaU (1 / 10) then up else down.

(** A sampling routine that returns [up] at the widened roughness of the
    oblique direction and a tilted normal anywhere else, and the glass
    with that routine. *)
Definition scene_sample_oblique (u : Point2) (alphaU alphaV : R) : Normal :=
  if Reqb alphaU (8 / 75) then up else mkVector (3 / 5) 0 (4 / 5).

Definition frosted : RoughDielectric (Intersection := unit) :=
  withSampling glass (fun _ alphaU _ => alphaU) scene_sample_oblique.

(** The framework at the scenes: properties are named numbers, the
    indices of refraction are those of the glass, ["as"] names the
    Ashikhmin-Shirley distribution, energy conservation leaves a texture as
    it is, the base class changes no member when it configures, takes no
    children and persists nothing. *)
Definition scene_framework : Configuration.Framework :=
  Configuration.mkFramework
    (string -> option R)
    (fun props name value => match props name with Some v => v | None => value end)
    (fun _ _ value => value)
    (fun _ _ value => value)
    (fun _ name _ => if (name =? "intIOR")%string then 3 / 2 else 1)
    (fun name => if (name =? "as")%string then 3%Z else 0%Z)
    3%Z 4%Z 8%Z 65536%Z 131072%Z 262144%Z 4096%Z 8192%Z 3%nat
    (fun texture _ _ => texture)
    (fun o => o)
    (fun _ _ _ => inl EError)
    (fun _ => [])
    (fun stream => Some stream).

(** Properties that give [alphaU] alone. *)
Definition scene_properties (name : string) : option R :=
  if (name =? "alphaU")%string then Some (1 / 5) else None.

(** A material with two roughness textures, one of them not constant. *)
Definition scene_object (distribution : Z) : Configuration.Object :=
  Configuration.mkObject distribution
    (Configuration.mkRef 0 (Configuration.ConstantSpectrumTexture [1; 1; 1]))
    (Configuration.mkRef 1 (Configuration.OtherTexture false true))
    (Configuration.mkRef 2 (Configuration.ConstantFloatTexture (1 / 10)))
    (Configuration.mkRef 3 (Configuration.OtherTexture false false))
    (3 / 2) 1 [7%Z] false.

(** * Properties *)

(** ** Boolean comparisons against their propositions *)

Lemma Rltb_true (a b : R) : a < b -> Rltb a b = true.
Proof. intros H. unfold Rltb. destruct (Rlt_dec a b); [reflexivity | contradiction]. Qed.

Lemma Rltb_false (a b : R) : b <= a -> Rltb a b = false.
Proof. intros H. unfold Rltb. destruct (Rlt_dec a b); [lra | reflexivity]. Qed.

Lemma Rltb_iff (a b : R) : Rltb a b = true <-> a < b.
Proof.
  unfold Rltb. destruct (Rlt_dec a b); split; intros; try assumption;
    try reflexivity; try discriminate; contradiction.
Qed.

Lemma Rleb_true (a b : R) : a <= b -> Rleb a b = true.
Proof. intros H. unfold Rleb. destruct (Rle_dec a b); [reflexivity | contradiction]. Qed.

Lemma Rleb_false (a b : R) : b < a -> Rleb a b = false.
Proof. intros H. unfold Rleb. destruct (Rle_dec a b); [lra | reflexivity]. Qed.

Lemma Rleb_false_inv (a b : R) : Rleb a b = false -> b < a.
Proof. unfold Rleb. destruct (Rle_dec a b); [discriminate | lra]. Qed.

Lemma Reqb_true (a b : R) : a = b -> Reqb a b = true.
Proof. intros H. unfold Reqb. destruct (Req_dec_T a b); [reflexivity | contradiction]. Qed.

Lemma Reqb_false (a b : R) : a <> b -> Reqb a b = false.
Proof. intros H. unfold Reqb. destruct (Req_dec_T a b); [contradiction | reflexivity]. Qed.

Lemma Reqb_iff (a b : R) : Reqb a b = true <-> a = b.
Proof.
  unfold Reqb. destruct (Req_dec_T a b); split; intros; try assumption;
    try reflexivity; try discriminate; contradiction.
Qed.

Lemma EMeasure_eqb_eq (a b : EMeasure) : EMeasure_eqb a b = true <-> a = b.
Proof. destruct a, b; simpl; split; intros H; try reflexivity; discriminate. Qed.

(** ** The constructor's check *)

(** The check raises exactly on a negative index or on equal indices. *)
Lemma checkIOR_error (intIOR extIOR : R) :
  checkIOR intIOR extIOR = inl EError <-> intIOR < 0 \/ extIOR < 0 \/ intIOR = extIOR.
Proof.
  unfold checkIOR.
  destruct (Rltb intIOR 0) eqn:Hi; simpl.
  - apply Rltb_iff in Hi. split; [intros _; left; exact Hi | reflexivity].
  - destruct (Rltb extIOR 0) eqn:He; simpl.
    + apply Rltb_iff in He. split; [intros _; right; left; exact He | reflexivity].
    + destruct (Reqb intIOR extIOR) eqn:Hq.
      * apply Reqb_iff in Hq. split; [intros _; right; right; exact Hq | reflexivity].
      * split; [discriminate |].
        intros [H | [H | H]].
        -- apply Rltb_iff in H. congruence.
        -- apply Rltb_iff in H. congruence.
        -- apply Reqb_iff in H. congruence.
Qed.

(** C8, at the failing input: an interior index of zero next to an
    exterior index of one passes the constructor's check, although zero
    is not a positive index. *)
Theorem checkIOR_accepts_zero : checkIOR 0 1 = inr tt.
Proof.
  unfold checkIOR.
  rewrite (Rltb_false 0 0) by lra.
  rewrite (Rltb_false 1 0) by lra.
  rewrite (Reqb_false 0 1) by lra.
  reflexivity.
Qed.

(** ** Vector identities *)

Lemma vector_eq (a b c a' b' c' : R) :
  a = a' -> b = b' -> c = c' -> mkVector a b c = mkVector a' b' c'.
Proof. intros -> -> ->. reflexivity. Qed.

Lemma vadd_comm (a b : Vector) : vadd a b = vadd b a.
Proof. unfold vadd. f_equal; ring. Qed.

Lemma Rdiv_squares (a b : R) : (a * a) / (b * b) = (a / b) * (a / b).
Proof. unfold Rdiv. rewrite Rinv_mult. ring. Qed.

Lemma Rabs_mult_square (v a : R) : Rabs (v * (a * a)) = Rabs v * (a * a).
Proof.
  rewrite Rabs_mult. f_equal. apply Rabs_pos_eq. nra.
Qed.

Section Queries.

Context {Intersection : Type}.
Variable fresnel : R -> R -> R -> R.
Variables EGlossyReflection EGlossyTransmission : Z.
Variable SPECTRUM_SAMPLES : nat.
Variable this : RoughDielectric (Intersection := Intersection).

Local Abbreviation BSDFQueryRecord := (BSDFQueryRecord (Intersection := Intersection)).
Local Abbreviation hasReflection := (hasReflection EGlossyReflection).
Local Abbreviation hasTransmission := (hasTransmission EGlossyTransmission).
Local Abbreviation Spectrum_const := (Spectrum_const SPECTRUM_SAMPLES).
Local Abbreviation roughnessU := (roughnessU SPECTRUM_SAMPLES this).
Local Abbreviation roughnessV := (roughnessV SPECTRUM_SAMPLES this).
Local Abbreviation eval :=
  (eval fresnel EGlossyReflection EGlossyTransmission SPECTRUM_SAMPLES this).
Local Abbreviation D_ := (m_distribution this).

(** The two inline tests "this component was not requested" of [eval]
    and [pdf] are the negations of [hasReflection] and [hasTransmission]. *)
Lemma requested_reflection (bRec : BSDFQueryRecord) :
  negb ((negb (component bRec =? -1)%Z && negb (component bRec =? 0)%Z)
        || negb (hasFlag (typeMask bRec) EGlossyReflection))
  = hasReflection bRec.
Proof.
  unfold Plugin.hasReflection.
  destruct (component bRec =? -1)%Z, (component bRec =? 0)%Z,
    (hasFlag (typeMask bRec) EGlossyReflection); reflexivity.
Qed.

Lemma requested_transmission (bRec : BSDFQueryRecord) :
  negb ((negb (component bRec =? -1)%Z && negb (component bRec =? 1)%Z)
        || negb (hasFlag (typeMask bRec) EGlossyTransmission))
  = hasTransmission bRec.
Proof.
  unfold Plugin.hasTransmission.
  destruct (component bRec =? -1)%Z, (component bRec =? 1)%Z,
    (hasFlag (typeMask bRec) EGlossyTransmission); reflexivity.
Qed.

Lemma etaPair_eq (bRec : BSDFQueryRecord) :
  etaPair this bRec =
  (if Rltb (cosTheta (wi bRec)) 0 then m_intIOR this else m_extIOR this,
   if Rltb (cosTheta (wi bRec)) 0 then m_extIOR this else m_intIOR this).
Proof. unfold etaPair. destruct (Rltb (cosTheta (wi bRec)) 0); reflexivity. Qed.

(** What [eval] computes for the solid-angle measure, by classification. *)
Lemma eval_solid_angle (bRec : BSDFQueryRecord) :
  let reflect := Rltb 0 (cosTheta (wi bRec) * cosTheta (wo bRec)) in
  let etaI := fst (etaPair this bRec) in
  let etaT := snd (etaPair this bRec) in
  let H := if reflect then halfReflect bRec else halfTransmit this bRec in
  let D := MicrofacetDistribution.eval D_ H (roughnessU bRec) (roughnessV bRec) in
  let F := fresnel (dot (wi bRec) H) (m_extIOR this) (m_intIOR this) in
  let G := MicrofacetDistribution.G D_ (wi bRec) (wo bRec) H
             (roughnessU bRec) (roughnessV bRec) in
  let value :=
    ((1 - F) * D * G * etaT * etaT * dot (wi bRec) H * dot (wo bRec) H)
    / (cosTheta (wi bRec)
       * (etaI * dot (wi bRec) H + etaT * dot (wo bRec) H)
       * (etaI * dot (wi bRec) H + etaT * dot (wo bRec) H)) in
  eval bRec ESolidAngle =
  if (if reflect then hasReflection bRec else hasTransmission bRec)
  then if Reqb D 0 then Spectrum_const 0
       else if reflect
            then smul (m_specularReflectance this (its bRec))
                      (F * D * G / (4 * Rabs (cosTheta (wi bRec))))
            else smul (m_specularTransmittance this (its bRec))
                      (Rabs (if isRadiance (quantity bRec)
                             then value * ((etaI * etaI) / (etaT * etaT))
                             else value))
  else Spectrum_const 0.
Proof.
  intros reflect etaI etaT H D F G value.
  unfold Plugin.eval. simpl EMeasure_eqb. simpl negb. cbv iota.
  fold reflect.
  destruct (etaPair this bRec) as [eI eT] eqn:Heta.
  rewrite requested_reflection, requested_transmission.
  destruct (if reflect then hasReflection bRec else hasTransmission bRec);
    simpl negb; cbv iota; [| reflexivity].
  fold H. fold (roughnessU bRec) (roughnessV bRec). fold D.
  destruct (Reqb D 0); [reflexivity |].
  fold F G.
  destruct reflect; [reflexivity |].
  unfold value, etaI, etaT. simpl fst. simpl snd.
  destruct (isRadiance (quantity bRec)); reflexivity.
Qed.

(** C4: [eval] is zero for every measure other than the solid-angle
    measure; for a solid-angle query with both directions on the same
    side, the reflective component enabled and a nonzero density [D] at
    the half-vector [normalize(wi+wo) * signum(cosTheta(wo))], [eval] is
    the reflectance texture value times [F*D*G / (4*|cosTheta(wi)|)]. *)
Theorem eval_reflective (bRec : BSDFQueryRecord) (measure : EMeasure) :
  (measure <> ESolidAngle -> eval bRec measure = Spectrum_const 0)
  /\
  (0 < cosTheta (wi bRec) * cosTheta (wo bRec) ->
   hasReflection bRec = true ->
   let H := vscale (signum (cosTheta (wo bRec)))
                   (normalize (vadd (wi bRec) (wo bRec))) in
   let D := MicrofacetDistribution.eval D_ H (roughnessU bRec) (roughnessV bRec) in
   let F := fresnel (dot (wi bRec) H) (m_extIOR this) (m_intIOR this) in
   let G := MicrofacetDistribution.G D_ (wi bRec) (wo bRec) H
              (roughnessU bRec) (roughnessV bRec) in
   D <> 0 ->
   eval bRec ESolidAngle
   = smul (m_specularReflectance this (its bRec))
          (F * D * G / (4 * Rabs (cosTheta (wi bRec))))).
Proof.
  split.
  - intros Hm. unfold Plugin.eval.
    destruct (EMeasure_eqb measure ESolidAngle) eqn:E.
    + apply EMeasure_eqb_eq in E. contradiction.
    + reflexivity.
  - intros Hside Hrefl H D F G HD.
    unfold Plugin.eval. simpl EMeasure_eqb. cbv iota. simpl negb. cbv iota.
    rewrite (Rltb_true _ _ Hside).
    rewrite etaPair_eq.
    rewrite requested_reflection, Hrefl. simpl negb. cbv iota.
    unfold halfReflect. rewrite (vadd_comm (wo bRec) (wi bRec)).
    fold H. fold (roughnessU bRec) (roughnessV bRec). fold D.
    rewrite (Reqb_false _ _ HD). reflexivity.
Qed.

(** C2: for a solid-angle query with the two directions on opposite
    sides, the transmissive component enabled and a nonzero density [D]
    at the transmission half-vector, [eval] is the transmittance texture
    value times [|(1-F)*D*G*etaT^2*cos(wi,H)*cos(wo,H) /
    (cosTheta(wi) * (etaI*cos(wi,H) + etaT*cos(wo,H))^2)|], times
    [(etaI/etaT)^2] under radiance transport and without that factor
    under importance transport; [etaI], [etaT] are the exterior and the
    interior index, swapped when [cosTheta(wi) < 0]. *)
Theorem eval_transmissive (bRec : BSDFQueryRecord) :
  cosTheta (wi bRec) * cosTheta (wo bRec) < 0 ->
  hasTransmission bRec = true ->
  let etaI := if Rltb (cosTheta (wi bRec)) 0 then m_intIOR this else m_extIOR this in
  let etaT := if Rltb (cosTheta (wi bRec)) 0 then m_extIOR this else m_intIOR this in
  let H := vscale (if Rltb (m_intIOR this) (m_extIOR this) then 1 else -1)
             (normalize (vadd (vscale etaI (wi bRec)) (vscale etaT (wo bRec)))) in
  let D := MicrofacetDistribution.eval D_ H (roughnessU bRec) (roughnessV bRec) in
  let F := fresnel (dot (wi bRec) H) (m_extIOR this) (m_intIOR this) in
  let G := MicrofacetDistribution.G D_ (wi bRec) (wo bRec) H
             (roughnessU bRec) (roughnessV bRec) in
  let cosIH := dot (wi bRec) H in
  let cosOH := dot (wo bRec) H in
  let value := Rabs (((1 - F) * D * G * (etaT * etaT) * cosIH * cosOH)
                     / (cosTheta (wi bRec)
                        * ((etaI * cosIH + etaT * cosOH)
                           * (etaI * cosIH + etaT * cosOH)))) in
  D <> 0 ->
  eval bRec ESolidAngle
  = smul (m_specularTransmittance this (its bRec))
         (match quantity bRec with
          | ERadiance => value * ((etaI / etaT) * (etaI / etaT))
          | EImportance => value
          end).
Proof.
  intros Hside Htrans etaI etaT H D F G cosIH cosOH value HD.
  unfold Plugin.eval. simpl EMeasure_eqb. simpl negb. cbv iota.
  rewrite (Rltb_false 0 (cosTheta (wi bRec) * cosTheta (wo bRec))) by lra.
  rewrite etaPair_eq. fold etaI etaT.
  rewrite requested_transmission, Htrans. simpl negb. cbv iota.
  unfold halfTransmit. rewrite etaPair_eq. fold etaI etaT. fold H.
  fold (roughnessU bRec) (roughnessV bRec). fold D.
  rewrite (Reqb_false _ _ HD). fold F G cosIH cosOH.
  f_equal.
  assert (Hv : ((1 - F) * D * G * etaT * etaT * cosIH * cosOH)
               / (cosTheta (wi bRec) * (etaI * cosIH + etaT * cosOH)
                  * (etaI * cosIH + etaT * cosOH))
               = ((1 - F) * D * G * (etaT * etaT) * cosIH * cosOH)
                 / (cosTheta (wi bRec)
                    * ((etaI * cosIH + etaT * cosOH)
                       * (etaI * cosIH + etaT * cosOH)))).
  { f_equal; ring. }
  rewrite Hv.
  destruct (quantity bRec); simpl isRadiance; cbv iota.
  - rewrite Rdiv_squares, Rabs_mult_square. reflexivity.
  - reflexivity.
Qed.

Local Abbreviation pdf_with :=
  (pdf_with fresnel EGlossyReflection EGlossyTransmission SPECTRUM_SAMPLES this).
Local Abbreviation pdf :=
  (pdf fresnel EGlossyReflection EGlossyTransmission SPECTRUM_SAMPLES this).
Local Abbreviation sampleAlpha := (sampleAlpha SPECTRUM_SAMPLES this).
Local Abbreviation sampleNormal := (sampleNormal SPECTRUM_SAMPLES this).
Local Abbreviation sampleWeight := (sampleWeight SPECTRUM_SAMPLES this).

(** The classification of a query and what [pdf] computes from it. *)
Lemma pdf_with_solid_angle (trick : Z) (bRec : BSDFQueryRecord) :
  let reflect := Rltb 0 (cosTheta (wi bRec) * cosTheta (wo bRec)) in
  let etaI := fst (etaPair this bRec) in
  let etaT := snd (etaPair this bRec) in
  let H := if reflect then halfReflect bRec else halfTransmit this bRec in
  let dwh_dwo :=
    if reflect then 1 / (4 * dot (wo bRec) H)
    else (etaT * etaT * dot (wo bRec) H)
         / ((etaI * dot (wi bRec) H + etaT * dot (wo bRec) H)
            * (etaI * dot (wi bRec) H + etaT * dot (wo bRec) H)) in
  let prob := MicrofacetDistribution.pdf D_ H
                (fst (sampleAlpha trick bRec)) (snd (sampleAlpha trick bRec)) in
  let F := fresnel (dot (wi bRec) H) (m_extIOR this) (m_intIOR this) in
  pdf_with trick bRec ESolidAngle =
  if (if reflect then hasReflection bRec else hasTransmission bRec)
  then Rabs ((if hasTransmission bRec && hasReflection bRec
              then prob * (if reflect then F else 1 - F) else prob) * dwh_dwo)
  else 0.
Proof.
  intros reflect etaI etaT H dwh_dwo prob F.
  unfold Plugin.pdf_with. simpl EMeasure_eqb. simpl negb. cbv iota.
  fold reflect.
  destruct (etaPair this bRec) as [eI eT] eqn:Heta.
  rewrite requested_reflection, requested_transmission.
  destruct (if reflect then hasReflection bRec else hasTransmission bRec) eqn:Hreq;
    simpl negb; cbv iota; [| reflexivity].
  fold H.
  assert (Hj : (if reflect then 1 / (4 * dot (wo bRec) H)
                else eT * eT * dot (wo bRec) H
                     / ((eI * dot (wi bRec) H + eT * dot (wo bRec) H)
                        * (eI * dot (wi bRec) H + eT * dot (wo bRec) H)))
               = dwh_dwo).
  { unfold dwh_dwo, etaI, etaT. try rewrite Heta. reflexivity. }
  rewrite Hj.
  unfold prob, Plugin.sampleAlpha.
  fold (roughnessU bRec) (roughnessV bRec).
  destruct (trick =? 1)%Z; simpl fst; simpl snd; reflexivity.
Qed.

(** C3: in a solid-angle [pdf] query whose classification is enabled,
    the sampling density [D_pdf] of the distribution at the half-vector is
    multiplied by [F] (reflective) or [1-F] (transmissive) when both
    components are enabled, and by nothing when only one is: the result is
    then [|D_pdf * Jacobian|], the Jacobian being [1/(4*cos(wo,H))] for
    reflection and [etaT^2*cos(wo,H) / (etaI*cos(wi,H)+etaT*cos(wo,H))^2]
    for transmission. *)
Theorem pdf_fresnel_weighting (bRec : BSDFQueryRecord) :
  let reflect := Rltb 0 (cosTheta (wi bRec) * cosTheta (wo bRec)) in
  let etaI := if Rltb (cosTheta (wi bRec)) 0 then m_intIOR this else m_extIOR this in
  let etaT := if Rltb (cosTheta (wi bRec)) 0 then m_extIOR this else m_intIOR this in
  let H := if reflect then halfReflect bRec else halfTransmit this bRec in
  let Jacobian :=
    if reflect then 1 / (4 * dot (wo bRec) H)
    else (etaT * etaT * dot (wo bRec) H)
         / ((etaI * dot (wi bRec) H + etaT * dot (wo bRec) H)
            * (etaI * dot (wi bRec) H + etaT * dot (wo bRec) H)) in
  let factor := 1.2 - 0.2 * sqrt (Rabs (cosTheta (wi bRec))) in
  let D_pdf := MicrofacetDistribution.pdf D_ H
                 (roughnessU bRec * factor) (roughnessV bRec * factor) in
  let F := fresnel (dot (wi bRec) H) (m_extIOR this) (m_intIOR this) in
  (hasReflection bRec = true -> hasTransmission bRec = true ->
   pdf bRec ESolidAngle = Rabs (D_pdf * (if reflect then F else 1 - F) * Jacobian))
  /\
  (hasReflection bRec && hasTransmission bRec = false ->
   (if reflect then hasReflection bRec else hasTransmission bRec) = true ->
   pdf bRec ESolidAngle = Rabs (D_pdf * Jacobian)).
Proof.
  intros reflect etaI etaT H Jacobian factor D_pdf F.
  pose proof (pdf_with_solid_angle ENLARGE_LOBE_TRICK bRec) as Hp.
  cbv zeta in Hp. rewrite etaPair_eq in Hp. simpl fst in Hp. simpl snd in Hp.
  fold reflect etaI etaT H in Hp. fold Jacobian F in Hp.
  unfold Plugin.sampleAlpha in Hp. simpl Z.eqb in Hp. cbv iota in Hp.
  simpl fst in Hp. simpl snd in Hp.
  fold (roughnessU bRec) (roughnessV bRec) factor D_pdf in Hp.
  unfold Plugin.pdf.
  split.
  - intros Hr Ht. rewrite Hp, Hr, Ht. simpl andb. cbv iota.
    destruct reflect; reflexivity.
  - intros Hone Hreq. rewrite Hp, Hreq.
    rewrite andb_comm, Hone. reflexivity.
Qed.

Local Abbreviation choose := (choose fresnel EGlossyReflection EGlossyTransmission this).
Local Abbreviation scatter := (scatter EGlossyReflection EGlossyTransmission this).
Local Abbreviation sample_with :=
  (sample_with fresnel EGlossyReflection EGlossyTransmission SPECTRUM_SAMPLES this).
Local Abbreviation sample :=
  (sample fresnel EGlossyReflection EGlossyTransmission SPECTRUM_SAMPLES this).
Local Abbreviation sample_pdf_with :=
  (sample_pdf_with fresnel EGlossyReflection EGlossyTransmission SPECTRUM_SAMPLES this).
Local Abbreviation sample_pdf :=
  (sample_pdf fresnel EGlossyReflection EGlossyTransmission SPECTRUM_SAMPLES this).

(** ** The sampling methods, step by step *)

Lemma choose_eq (bRec : BSDFQueryRecord) (sampler : Sampler) (m : Normal) :
  choose bRec sampler m =
  if hasReflection bRec && hasTransmission bRec
  then (negb (Rltb (fresnel (dot (wi bRec) m) (m_extIOR this) (m_intIOR this))
                   (fst (next1D sampler))),
        snd (next1D sampler))
  else (hasReflection bRec, sampler).
Proof.
  unfold Plugin.choose.
  destruct (hasReflection bRec) eqn:Hr; simpl andb; [| reflexivity].
  destruct (hasTransmission bRec); [| reflexivity].
  simpl. destruct (Rltb _ _); reflexivity.
Qed.

Lemma scatter_reflection (bRec : BSDFQueryRecord) (m : Normal) :
  scatter bRec m true =
  let bRec' := set_sampled (set_wo bRec (reflect (wi bRec) m)) 0 EGlossyReflection in
  if Rleb (cosTheta (wi bRec) * cosTheta (reflect (wi bRec) m)) 0
  then inl bRec' else inr bRec'.
Proof. reflexivity. Qed.

Lemma scatter_transmission (bRec : BSDFQueryRecord) (m : Normal) :
  scatter bRec m false =
  match refract (wi bRec) m (fst (etaPair this bRec)) (snd (etaPair this bRec)) with
  | None => inl bRec
  | Some v =>
      let bRec' := set_sampled (set_wo bRec v) 1 EGlossyTransmission in
      if Rleb 0 (cosTheta (wi bRec) * cosTheta v) then inl bRec' else inr bRec'
  end.
Proof.
  unfold Plugin.scatter. destruct (etaPair this bRec) as [etaI etaT].
  reflexivity.
Qed.

(** [scatter] never touches the incoming direction, the surface point,
    the transport mode or the component mask. *)
Lemma scatter_frame (bRec : BSDFQueryRecord) (m : Normal) (c : bool) (b : BSDFQueryRecord) :
  scatter bRec m c = inl b \/ scatter bRec m c = inr b ->
  wi b = wi bRec /\ its b = its bRec /\ quantity b = quantity bRec
  /\ typeMask b = typeMask bRec /\ component b = component bRec.
Proof.
  destruct c.
  - rewrite scatter_reflection. cbv zeta.
    destruct (Rleb _ 0); intros [H | H]; inversion H; subst; simpl; auto.
  - rewrite scatter_transmission.
    destruct (refract _ _ _ _) as [v |].
    + cbv zeta. destruct (Rleb 0 _); intros [H | H]; inversion H; subst; simpl; auto.
    + intros [H | H]; inversion H; subst; auto.
Qed.

Lemma sample_with_eq (trick : Z) (bRec : BSDFQueryRecord) (sampler : Sampler) (u : Point2) :
  sample_with trick bRec sampler u =
  let m := sampleNormal trick bRec u in
  let c := fst (choose bRec sampler m) in
  let s := snd (choose bRec sampler m) in
  if negb (hasReflection bRec) && negb (hasTransmission bRec)
  then (Spectrum_const 0, bRec, sampler)
  else match scatter bRec m c with
       | inl b => (Spectrum_const 0, b, s)
       | inr b => (sampleWeight trick b m c, b, s)
       end.
Proof.
  unfold Plugin.sample_with. cbv zeta.
  destruct (negb (hasReflection bRec) && negb (hasTransmission bRec)); [reflexivity |].
  destruct (Plugin.sampleAlpha SPECTRUM_SAMPLES this trick bRec) as [aU aV] eqn:Ha.
  destruct (choose bRec sampler (sampleNormal trick bRec u)) as [c s] eqn:Hc.
  simpl fst. simpl snd.
  destruct (scatter bRec (sampleNormal trick bRec u) c) as [b | b] eqn:Hs; [reflexivity |].
  unfold Plugin.sampleWeight.
  assert (Hf : wi b = wi bRec /\ its b = its bRec /\ quantity b = quantity bRec
               /\ typeMask b = typeMask bRec /\ component b = component bRec).
  { apply (scatter_frame bRec (sampleNormal trick bRec u) c). right. exact Hs. }
  destruct Hf as (Hwi & Hits & _).
  assert (Ha' : Plugin.sampleAlpha SPECTRUM_SAMPLES this trick b = (aU, aV)).
  { rewrite <- Ha. unfold Plugin.sampleAlpha. rewrite Hwi, Hits. reflexivity. }
  rewrite Ha'. simpl fst. simpl snd.
  unfold Plugin.roughnessU, Plugin.roughnessV.
  destruct (etaPair this b) as [etaI etaT]. simpl fst. simpl snd.
  rewrite Hits. reflexivity.
Qed.

Lemma sample_pdf_with_eq (trick : Z) (bRec : BSDFQueryRecord) (sampler : Sampler)
    (_pdf : R) (u : Point2) :
  sample_pdf_with trick bRec sampler _pdf u =
  let m := sampleNormal trick bRec u in
  let c := fst (choose bRec sampler m) in
  let s := snd (choose bRec sampler m) in
  if negb (hasReflection bRec) && negb (hasTransmission bRec)
  then (Spectrum_const 0, _pdf, bRec, sampler)
  else match scatter bRec m c with
       | inl b => (Spectrum_const 0, _pdf, b, s)
       | inr b =>
           (if Reqb (pdf_with trick b ESolidAngle) 0 then Spectrum_const 0
            else eval b ESolidAngle,
            pdf_with trick b ESolidAngle, b, s)
       end.
Proof.
  unfold Plugin.sample_pdf_with. cbv zeta.
  destruct (negb (hasReflection bRec) && negb (hasTransmission bRec)); [reflexivity |].
  destruct (choose bRec sampler (sampleNormal trick bRec u)) as [c s] eqn:Hc.
  simpl fst. simpl snd.
  destruct (scatter bRec (sampleNormal trick bRec u) c) as [b | b]; [reflexivity |].
  destruct (Reqb _ 0); reflexivity.
Qed.

(** The branch taken, from the enabled components and the draw. *)
Lemma choose_transmission (bRec : BSDFQueryRecord) (sampler : Sampler) (m : Normal) :
  hasReflection bRec = false
  \/ fresnel (dot (wi bRec) m) (m_extIOR this) (m_intIOR this) < fst (next1D sampler) ->
  hasTransmission bRec = true ->
  fst (choose bRec sampler m) = false.
Proof.
  intros Hc Ht. rewrite choose_eq, Ht.
  destruct (hasReflection bRec) eqn:Hr; simpl andb; cbv iota.
  - destruct Hc as [Hc | Hc]; [discriminate |].
    rewrite (Rltb_true _ _ Hc). reflexivity.
  - reflexivity.
Qed.

Lemma choose_reflection (bRec : BSDFQueryRecord) (sampler : Sampler) (m : Normal) :
  hasTransmission bRec = false
  \/ fst (next1D sampler) <= fresnel (dot (wi bRec) m) (m_extIOR this) (m_intIOR this) ->
  hasReflection bRec = true ->
  fst (choose bRec sampler m) = true.
Proof.
  intros Hc Hr. rewrite choose_eq, Hr.
  destruct (hasTransmission bRec) eqn:Ht; simpl andb; cbv iota.
  - destruct Hc as [Hc | Hc]; [discriminate |].
    rewrite (Rltb_false _ _ Hc). reflexivity.
  - reflexivity.
Qed.

Lemma enabled_not_empty (bRec : BSDFQueryRecord) :
  hasReflection bRec = true \/ hasTransmission bRec = true ->
  negb (hasReflection bRec) && negb (hasTransmission bRec) = false.
Proof.
  intros [H | H]; rewrite H; simpl; [reflexivity | apply andb_false_r].
Qed.

(** C10: in both overloads the sampler after the call has advanced by
    the one draw of [next1D] if and only if both components are enabled,
    and is the sampler before the call otherwise; with a single component
    enabled that component is the one chosen, and the results are the same
    whatever the sampler. *)
Theorem sample_draw_iff_both (bRec : BSDFQueryRecord) (sampler : Sampler)
    (_pdf : R) (u : Point2) :
  let both := hasReflection bRec && hasTransmission bRec in
  let after := if both then snd (next1D sampler) else sampler in
  let m := sampleNormal ENLARGE_LOBE_TRICK bRec u in
  snd (sample bRec sampler u) = after
  /\ snd (sample_pdf bRec sampler _pdf u) = after
  /\ (position after = S (position sampler) <-> both = true)
  /\ (both = false -> after = sampler)
  /\ (both = false -> fst (choose bRec sampler m) = hasReflection bRec)
  /\ (both = false -> forall sampler' : Sampler,
        fst (sample bRec sampler' u) = fst (sample bRec sampler u)
        /\ fst (sample_pdf bRec sampler' _pdf u) = fst (sample_pdf bRec sampler _pdf u)).
Proof.
  intros both after m.
  assert (Hch : forall s, choose bRec s m
                = if both then (negb (Rltb (fresnel (dot (wi bRec) m)
                                              (m_extIOR this) (m_intIOR this))
                                           (fst (next1D s))), snd (next1D s))
                  else (hasReflection bRec, s)).
  { intros s. apply choose_eq. }
  assert (Hafter : forall s, snd (sample bRec s u) = snd (choose bRec s m)
                          /\ snd (sample_pdf bRec s _pdf u) = snd (choose bRec s m)).
  { intros s. unfold Plugin.sample, Plugin.sample_pdf.
    rewrite sample_with_eq, sample_pdf_with_eq. cbv zeta. fold m.
    destruct (negb (hasReflection bRec) && negb (hasTransmission bRec)) eqn:Hnone.
    - rewrite Hch. unfold both.
      apply andb_true_iff in Hnone. destruct Hnone as [Hr _].
      apply negb_true_iff in Hr. rewrite Hr. simpl. split; reflexivity.
    - destruct (scatter bRec m (fst (choose bRec s m))); split; reflexivity. }
  split; [| split; [| split; [| split; [| split]]]].
  - rewrite (proj1 (Hafter sampler)), Hch. unfold after. destruct both; reflexivity.
  - rewrite (proj2 (Hafter sampler)), Hch. unfold after. destruct both; reflexivity.
  - unfold after. destruct both; simpl.
    + split; reflexivity.
    + split; [intros H; lia | discriminate].
  - intros Hb. unfold after. rewrite Hb. reflexivity.
  - intros Hb. rewrite Hch, Hb. reflexivity.
  - intros Hb sampler'.
    unfold Plugin.sample, Plugin.sample_pdf.
    rewrite !sample_with_eq, !sample_pdf_with_eq. cbv zeta. fold m.
    rewrite (Hch sampler'), (Hch sampler), Hb. simpl fst. simpl snd.
    destruct (negb (hasReflection bRec) && negb (hasTransmission bRec));
      [split; reflexivity |].
    destruct (scatter bRec m (hasReflection bRec)); split; reflexivity.
Qed.

(** C6: when the transmissive branch is taken and
    [1 + (etaI/etaT)^2 * (dot(wi,m)^2 - 1) < 0] at the sampled normal [m],
    [refract] fails and both overloads return a zero spectrum with the
    query record as it was before the call, so that no direction is
    reported; when [refract] succeeds with a direction that is not on the
    opposite side of [wi], both overloads return a zero spectrum too. *)
Theorem sample_total_internal_reflection (bRec : BSDFQueryRecord)
    (sampler : Sampler) (_pdf : R) (u : Point2) :
  let m := sampleNormal ENLARGE_LOBE_TRICK bRec u in
  let etaI := if Rltb (cosTheta (wi bRec)) 0 then m_intIOR this else m_extIOR this in
  let etaT := if Rltb (cosTheta (wi bRec)) 0 then m_extIOR this else m_intIOR this in
  let F := fresnel (dot (wi bRec) m) (m_extIOR this) (m_intIOR this) in
  hasTransmission bRec = true ->
  hasReflection bRec = false \/ F < fst (next1D sampler) ->
  (1 + (etaI / etaT) * (etaI / etaT) * (dot (wi bRec) m * dot (wi bRec) m - 1) < 0 ->
   refract (wi bRec) m etaI etaT = None
   /\ fst (sample bRec sampler u) = (Spectrum_const 0, bRec)
   /\ fst (sample_pdf bRec sampler _pdf u) = (Spectrum_const 0, _pdf, bRec))
  /\
  (forall v : Vector,
   refract (wi bRec) m etaI etaT = Some v ->
   0 <= cosTheta (wi bRec) * cosTheta v ->
   fst (fst (sample bRec sampler u)) = Spectrum_const 0
   /\ fst (fst (fst (sample_pdf bRec sampler _pdf u))) = Spectrum_const 0).
Proof.
  intros m etaI etaT F Ht Hc.
  pose proof (choose_transmission bRec sampler m Hc Ht) as Hch.
  pose proof (enabled_not_empty bRec (or_intror Ht)) as Hne.
  pose proof (scatter_transmission bRec m) as Hs.
  rewrite etaPair_eq in Hs. simpl fst in Hs. simpl snd in Hs. fold etaI etaT in Hs.
  unfold Plugin.sample, Plugin.sample_pdf.
  rewrite sample_with_eq, sample_pdf_with_eq. cbv zeta. fold m.
  rewrite Hne, Hch, Hs.
  split.
  - intros Htir.
    assert (Hr : refract (wi bRec) m etaI etaT = None).
    { unfold refract. rewrite (Rltb_true _ _ Htir). reflexivity. }
    rewrite Hr. repeat split; reflexivity.
  - intros v Hv Hside. rewrite Hv. cbv zeta.
    rewrite (Rleb_true _ _ Hside). split; reflexivity.
Qed.

(** C9: when the side check fails after a direction was computed, both
    overloads return a zero spectrum and leave the record with [wo]
    overwritten by the reflected or refracted direction and with
    [sampledComponent] and [sampledType] set to the chosen component;
    only the total-internal-reflection and the empty-mask rejections leave
    the record as it was. *)
Theorem sample_zero_mutates (bRec : BSDFQueryRecord) (sampler : Sampler)
    (_pdf : R) (u : Point2) :
  let m := sampleNormal ENLARGE_LOBE_TRICK bRec u in
  let etaI := if Rltb (cosTheta (wi bRec)) 0 then m_intIOR this else m_extIOR this in
  let etaT := if Rltb (cosTheta (wi bRec)) 0 then m_extIOR this else m_intIOR this in
  let F := fresnel (dot (wi bRec) m) (m_extIOR this) (m_intIOR this) in
  (hasReflection bRec = true ->
   hasTransmission bRec = false \/ fst (next1D sampler) <= F ->
   cosTheta (wi bRec) * cosTheta (reflect (wi bRec) m) <= 0 ->
   let bRec' := set_sampled (set_wo bRec (reflect (wi bRec) m)) 0 EGlossyReflection in
   fst (sample bRec sampler u) = (Spectrum_const 0, bRec')
   /\ fst (sample_pdf bRec sampler _pdf u) = (Spectrum_const 0, _pdf, bRec'))
  /\
  (hasTransmission bRec = true ->
   hasReflection bRec = false \/ F < fst (next1D sampler) ->
   forall v : Vector,
   refract (wi bRec) m etaI etaT = Some v ->
   0 <= cosTheta (wi bRec) * cosTheta v ->
   let bRec' := set_sampled (set_wo bRec v) 1 EGlossyTransmission in
   fst (sample bRec sampler u) = (Spectrum_const 0, bRec')
   /\ fst (sample_pdf bRec sampler _pdf u) = (Spectrum_const 0, _pdf, bRec'))
  /\
  (hasTransmission bRec = true ->
   hasReflection bRec = false \/ F < fst (next1D sampler) ->
   refract (wi bRec) m etaI etaT = None ->
   fst (sample bRec sampler u) = (Spectrum_const 0, bRec)
   /\ fst (sample_pdf bRec sampler _pdf u) = (Spectrum_const 0, _pdf, bRec))
  /\
  (hasReflection bRec = false -> hasTransmission bRec = false ->
   fst (sample bRec sampler u) = (Spectrum_const 0, bRec)
   /\ fst (sample_pdf bRec sampler _pdf u) = (Spectrum_const 0, _pdf, bRec)).
Proof.
  intros m etaI etaT F.
  pose proof (scatter_transmission bRec m) as Hs.
  rewrite etaPair_eq in Hs. simpl fst in Hs. simpl snd in Hs. fold etaI etaT in Hs.
  unfold Plugin.sample, Plugin.sample_pdf.
  rewrite sample_with_eq, sample_pdf_with_eq. cbv zeta. fold m.
  split; [| split; [| split]].
  - intros Hr Hc Hside.
    rewrite (enabled_not_empty bRec (or_introl Hr)).
    rewrite (choose_reflection bRec sampler m Hc Hr), scatter_reflection. cbv zeta.
    rewrite (Rleb_true _ _ Hside). split; reflexivity.
  - intros Ht Hc v Hv Hside.
    rewrite (enabled_not_empty bRec (or_intror Ht)).
    rewrite (choose_transmission bRec sampler m Hc Ht), Hs, Hv. cbv zeta.
    rewrite (Rleb_true _ _ Hside). split; reflexivity.
  - intros Ht Hc Hv.
    rewrite (enabled_not_empty bRec (or_intror Ht)).
    rewrite (choose_transmission bRec sampler m Hc Ht), Hs, Hv.
    split; reflexivity.
  - intros Hr Ht. rewrite Hr, Ht. simpl. split; reflexivity.
Qed.

Lemma choose_enabled (bRec : BSDFQueryRecord) (sampler : Sampler) (m : Normal) :
  hasReflection bRec = true \/ hasTransmission bRec = true ->
  if fst (choose bRec sampler m) then hasReflection bRec = true
  else hasTransmission bRec = true.
Proof.
  intros Hen. rewrite choose_eq.
  destruct (hasReflection bRec) eqn:Hr, (hasTransmission bRec) eqn:Ht;
    simpl andb; cbv iota; simpl fst; try reflexivity.
  - destruct (negb _); reflexivity.
  - destruct Hen; discriminate.
Qed.

(** A record that passed its side check is classified by [eval] and [pdf]
    as the component that was chosen. *)
Lemma scatter_classified (bRec : BSDFQueryRecord) (m : Normal) (c : bool)
    (b : BSDFQueryRecord) :
  scatter bRec m c = inr b ->
  Rltb 0 (cosTheta (wi b) * cosTheta (wo b)) = c.
Proof.
  destruct c.
  - rewrite scatter_reflection. cbv zeta.
    destruct (Rleb _ 0) eqn:Hs; intros H; inversion H; subst; clear H.
    change (Rltb 0 (cosTheta (wi bRec) * cosTheta (reflect (wi bRec) m)) = true).
    apply Rltb_true. apply Rleb_false_inv in Hs. exact Hs.
  - rewrite scatter_transmission.
    destruct (refract _ _ _ _) as [v |]; [| discriminate].
    cbv zeta. destruct (Rleb 0 _) eqn:Hs; intros H; inversion H; subst; clear H.
    change (Rltb 0 (cosTheta (wi bRec) * cosTheta v) = false).
    apply Rltb_false. apply Rleb_false_inv in Hs. lra.
Qed.

(** C7, as the code has it: once the direction is chosen and its side
    check passed, the second overload sets [_pdf] to [pdf] of the updated
    record, a density that [pdf] takes from the distribution at the
    widened roughness [alpha * (1.2 - 0.2*sqrt|cosTheta(wi)|)]; it returns
    a zero spectrum when that density is exactly zero and [eval] of the
    updated record otherwise. *)
Theorem sample_pdf_contract (bRec : BSDFQueryRecord) (sampler : Sampler)
    (_pdf : R) (u : Point2) (bRec' : BSDFQueryRecord) :
  let m := sampleNormal ENLARGE_LOBE_TRICK bRec u in
  let reflect := fst (choose bRec sampler m) in
  hasReflection bRec = true \/ hasTransmission bRec = true ->
  scatter bRec m reflect = inr bRec' ->
  let density := pdf bRec' ESolidAngle in
  let etaI := if Rltb (cosTheta (wi bRec)) 0 then m_intIOR this else m_extIOR this in
  let etaT := if Rltb (cosTheta (wi bRec)) 0 then m_extIOR this else m_intIOR this in
  let H := if reflect then halfReflect bRec' else halfTransmit this bRec' in
  let Jacobian :=
    if reflect then 1 / (4 * dot (wo bRec') H)
    else (etaT * etaT * dot (wo bRec') H)
         / ((etaI * dot (wi bRec) H + etaT * dot (wo bRec') H)
            * (etaI * dot (wi bRec) H + etaT * dot (wo bRec') H)) in
  let factor := 1.2 - 0.2 * sqrt (Rabs (cosTheta (wi bRec))) in
  let D_pdf := MicrofacetDistribution.pdf D_ H
                 (roughnessU bRec * factor) (roughnessV bRec * factor) in
  let F := fresnel (dot (wi bRec) H) (m_extIOR this) (m_intIOR this) in
  fst (sample_pdf bRec sampler _pdf u)
  = (if Reqb density 0 then Spectrum_const 0 else eval bRec' ESolidAngle,
     density, bRec')
  /\
  density = Rabs ((if hasReflection bRec && hasTransmission bRec
                   then D_pdf * (if reflect then F else 1 - F) else D_pdf)
                  * Jacobian).
Proof.
  intros m reflect Hen Hsc density etaI etaT H Jacobian factor D_pdf F.
  split.
  - unfold Plugin.sample_pdf. rewrite sample_pdf_with_eq. cbv zeta. fold m reflect.
    rewrite (enabled_not_empty bRec Hen), Hsc. reflexivity.
  - pose proof (scatter_frame bRec m reflect bRec' (or_intror Hsc))
      as (Hwi & Hits & _ & Hmask & Hcomp).
    pose proof (scatter_classified bRec m reflect bRec' Hsc) as Hcl.
    pose proof (choose_enabled bRec sampler m Hen) as Hch. fold m reflect in Hch.
    assert (Hr : hasReflection bRec' = hasReflection bRec).
    { unfold Plugin.hasReflection. rewrite Hmask, Hcomp. reflexivity. }
    assert (Ht : hasTransmission bRec' = hasTransmission bRec).
    { unfold Plugin.hasTransmission. rewrite Hmask, Hcomp. reflexivity. }
    unfold density, Plugin.pdf.
    rewrite pdf_with_solid_angle. cbv zeta.
    rewrite Hcl, Hr, Ht, etaPair_eq, Hwi. simpl fst. simpl snd.
    fold etaI etaT H Jacobian.
    unfold Plugin.sampleAlpha. simpl Z.eqb. cbv iota. simpl fst. simpl snd.
    rewrite Hwi, Hits. fold (roughnessU bRec) (roughnessV bRec) factor D_pdf F.
    rewrite (andb_comm (hasTransmission bRec)).
    destruct reflect; rewrite Hch; reflexivity.
Qed.

End Queries.

(** ** The widened roughness *)

Section Widening.

Context {Intersection : Type}.
Variable fresnel : R -> R -> R -> R.
Variables EGlossyReflection EGlossyTransmission : Z.
Variable SPECTRUM_SAMPLES : nat.
Variable this : RoughDielectric (Intersection := Intersection).

(** The sampling density and the sampling routine of the distribution
    of [this] are replaced by [pdf'] and [sample']. *)
Variable pdf' : Normal -> R -> R -> R.
Variable sample' : Point2 -> R -> R -> Normal.

Local Abbreviation BSDFQueryRecord := (BSDFQueryRecord (Intersection := Intersection)).
Local Abbreviation D_ := (m_distribution this).
Local Abbreviation other := (withSampling this pdf' sample').
Local Abbreviation roughnessU := (roughnessU SPECTRUM_SAMPLES this).
Local Abbreviation roughnessV := (roughnessV SPECTRUM_SAMPLES this).
Local Abbreviation sampleAlpha := (sampleAlpha SPECTRUM_SAMPLES).
Local Abbreviation sampleNormal := (sampleNormal SPECTRUM_SAMPLES).
Local Abbreviation sampleWeight := (sampleWeight SPECTRUM_SAMPLES).
Local Abbreviation pdf_with :=
  (pdf_with fresnel EGlossyReflection EGlossyTransmission SPECTRUM_SAMPLES).
Local Abbreviation pdf :=
  (pdf fresnel EGlossyReflection EGlossyTransmission SPECTRUM_SAMPLES).
Local Abbreviation eval :=
  (eval fresnel EGlossyReflection EGlossyTransmission SPECTRUM_SAMPLES).
Local Abbreviation sample :=
  (sample fresnel EGlossyReflection EGlossyTransmission SPECTRUM_SAMPLES).
Local Abbreviation sample_pdf :=
  (sample_pdf fresnel EGlossyReflection EGlossyTransmission SPECTRUM_SAMPLES).
Local Abbreviation choose := (choose fresnel EGlossyReflection EGlossyTransmission).
Local Abbreviation scatter := (scatter EGlossyReflection EGlossyTransmission).

Variable bRec : BSDFQueryRecord.

Local Abbreviation factor := (1.2 - 0.2 * sqrt (Rabs (cosTheta (wi bRec)))).
Local Abbreviation alphaU := (roughnessU bRec * factor).
Local Abbreviation alphaV := (roughnessV bRec * factor).

Lemma sampleAlpha_widened (b : BSDFQueryRecord) :
  wi b = wi bRec -> its b = its bRec ->
  sampleAlpha this ENLARGE_LOBE_TRICK b = (alphaU, alphaV)
  /\ sampleAlpha other ENLARGE_LOBE_TRICK b = (alphaU, alphaV).
Proof.
  intros Hwi Hits. unfold Plugin.sampleAlpha. simpl Z.eqb. cbv iota.
  rewrite Hwi, Hits. split; reflexivity.
Qed.

Hypothesis pdf_agrees :
  forall H : Normal, pdf' H alphaU alphaV = MicrofacetDistribution.pdf D_ H alphaU alphaV.

Lemma pdf_other (b : BSDFQueryRecord) (measure : EMeasure) :
  wi b = wi bRec -> its b = its bRec ->
  pdf other b measure = pdf this b measure.
Proof.
  intros Hwi Hits. unfold Plugin.pdf.
  destruct measure; try reflexivity.
  rewrite !pdf_with_solid_angle. cbv zeta.
  destruct (sampleAlpha_widened b Hwi Hits) as [Ha Ha'].
  rewrite Ha, Ha'. simpl fst. simpl snd.
  change (MicrofacetDistribution.pdf (m_distribution other)) with pdf'.
  change (etaPair other b) with (etaPair this b).
  change (halfTransmit other b) with (halfTransmit this b).
  change (m_extIOR other) with (m_extIOR this).
  change (m_intIOR other) with (m_intIOR this).
  rewrite pdf_agrees. reflexivity.
Qed.

Lemma sampleWeight_other (b : BSDFQueryRecord) (m : Normal) (c : bool) :
  wi b = wi bRec -> its b = its bRec ->
  sampleWeight other ENLARGE_LOBE_TRICK b m c
  = sampleWeight this ENLARGE_LOBE_TRICK b m c.
Proof.
  intros Hwi Hits. unfold Plugin.sampleWeight.
  destruct (sampleAlpha_widened b Hwi Hits) as [Ha Ha'].
  rewrite Ha, Ha'. simpl fst. simpl snd.
  change (MicrofacetDistribution.pdf (m_distribution other)) with pdf'.
  rewrite pdf_agrees. reflexivity.
Qed.

End Widening.

Section WideningShared.

Context {Intersection : Type}.
Variable fresnel : R -> R -> R -> R.
Variables EGlossyReflection EGlossyTransmission : Z.
Variable SPECTRUM_SAMPLES : nat.
Variable this : RoughDielectric (Intersection := Intersection).

Local Abbreviation BSDFQueryRecord := (BSDFQueryRecord (Intersection := Intersection)).
Local Abbreviation D_ := (m_distribution this).
Local Abbreviation roughnessU := (roughnessU SPECTRUM_SAMPLES this).
Local Abbreviation roughnessV := (roughnessV SPECTRUM_SAMPLES this).
Local Abbreviation sampleAlpha := (sampleAlpha SPECTRUM_SAMPLES).
Local Abbreviation sampleNormal := (sampleNormal SPECTRUM_SAMPLES).
Local Abbreviation pdf :=
  (pdf fresnel EGlossyReflection EGlossyTransmission SPECTRUM_SAMPLES).
Local Abbreviation sample :=
  (sample fresnel EGlossyReflection EGlossyTransmission SPECTRUM_SAMPLES).
Local Abbreviation sample_pdf :=
  (sample_pdf fresnel EGlossyReflection EGlossyTransmission SPECTRUM_SAMPLES).
Local Abbreviation choose := (choose fresnel EGlossyReflection EGlossyTransmission).
Local Abbreviation scatter := (scatter EGlossyReflection EGlossyTransmission).

(** [pdf] and both [sample] overloads consult the sampling density and
    the sampling routine of the distribution at the widened pair only:
    changing them anywhere else changes none of the three results. *)
Lemma sampling_elsewhere_irrelevant (bRec : BSDFQueryRecord) (sampler : Sampler)
    (_pdf : R) (u : Point2) (measure : EMeasure)
    (pdf' : Normal -> R -> R -> R) (sample' : Point2 -> R -> R -> Normal) :
  let factor := 1.2 - 0.2 * sqrt (Rabs (cosTheta (wi bRec))) in
  let alphaU := roughnessU bRec * factor in
  let alphaV := roughnessV bRec * factor in
  let other := withSampling this pdf' sample' in
  (forall H : Normal,
     pdf' H alphaU alphaV = MicrofacetDistribution.pdf D_ H alphaU alphaV) ->
  sample' u alphaU alphaV = MicrofacetDistribution.sample D_ u alphaU alphaV ->
  sampleAlpha this ENLARGE_LOBE_TRICK bRec = (alphaU, alphaV)
  /\ sampleNormal this ENLARGE_LOBE_TRICK bRec u
     = MicrofacetDistribution.sample D_ u alphaU alphaV
  /\ pdf other bRec measure = pdf this bRec measure
  /\ sample other bRec sampler u = sample this bRec sampler u
  /\ sample_pdf other bRec sampler _pdf u = sample_pdf this bRec sampler _pdf u.
Proof.
  intros factor alphaU alphaV other Hpdf Hsample.
  destruct (sampleAlpha_widened SPECTRUM_SAMPLES this pdf' sample' bRec bRec
              eq_refl eq_refl) as [Ha Ha'].
  fold factor alphaU alphaV other in Ha, Ha'.
  assert (Hn : sampleNormal this ENLARGE_LOBE_TRICK bRec u
               = MicrofacetDistribution.sample D_ u alphaU alphaV).
  { unfold Plugin.sampleNormal. rewrite Ha. reflexivity. }
  assert (Hn' : sampleNormal other ENLARGE_LOBE_TRICK bRec u
                = sampleNormal this ENLARGE_LOBE_TRICK bRec u).
  { rewrite Hn. unfold Plugin.sampleNormal. rewrite Ha'. exact Hsample. }
  split; [exact Ha | split; [exact Hn | split; [| split]]].
  - exact (pdf_other fresnel EGlossyReflection EGlossyTransmission SPECTRUM_SAMPLES
             this pdf' sample' bRec Hpdf bRec measure eq_refl eq_refl).
  - unfold Plugin.sample. rewrite !sample_with_eq. cbv zeta. rewrite Hn'.
    set (m := sampleNormal this ENLARGE_LOBE_TRICK bRec u).
    change (choose other bRec sampler m) with (choose this bRec sampler m).
    change (scatter other bRec m) with (scatter this bRec m).
    destruct (negb (hasReflection EGlossyReflection bRec)
              && negb (hasTransmission EGlossyTransmission bRec)); [reflexivity |].
    destruct (scatter this bRec m (fst (choose this bRec sampler m)))
      as [b | b] eqn:Hs; [reflexivity |].
    pose proof (scatter_frame _ _ _ bRec m _ b (or_intror Hs)) as (Hwi & Hits & _).
    fold other.
    rewrite (sampleWeight_other SPECTRUM_SAMPLES this pdf' sample' bRec Hpdf b m _ Hwi Hits).
    reflexivity.
  - unfold Plugin.sample_pdf. rewrite !sample_pdf_with_eq. cbv zeta. rewrite Hn'.
    set (m := sampleNormal this ENLARGE_LOBE_TRICK bRec u).
    change (choose other bRec sampler m) with (choose this bRec sampler m).
    change (scatter other bRec m) with (scatter this bRec m).
    destruct (negb (hasReflection EGlossyReflection bRec)
              && negb (hasTransmission EGlossyTransmission bRec)); [reflexivity |].
    destruct (scatter this bRec m (fst (choose this bRec sampler m)))
      as [b | b] eqn:Hs; [reflexivity |].
    pose proof (scatter_frame _ _ _ bRec m _ b (or_intror Hs)) as (Hwi & Hits & _).
    pose proof (pdf_other fresnel EGlossyReflection EGlossyTransmission
                  SPECTRUM_SAMPLES this pdf' sample' bRec Hpdf b ESolidAngle Hwi Hits) as Hp.
    unfold Plugin.pdf in Hp. fold other in Hp |- *.
    rewrite Hp. reflexivity.
Qed.

Local Abbreviation eval :=
  (eval fresnel EGlossyReflection EGlossyTransmission SPECTRUM_SAMPLES).
Local Abbreviation hasReflection := (hasReflection EGlossyReflection).
Local Abbreviation hasTransmission := (hasTransmission EGlossyTransmission).

(** C5: for every query, [pdf] and both [sample] overloads work at the
    same pair of roughness values, the two roughness values of the
    material scaled by the factor [1.2 - 0.2*sqrt|cosTheta(wi)|].  The
    density returned by [pdf], for any outgoing direction, is the
    sampling density [D_pdf] of the distribution at that pair, times the
    Fresnel weighting and the Jacobian.  Both overloads of [sample] draw
    the micro-normal [m] at that pair; the first divides its weight by
    [D_pdf] at that pair, and the second returns the density of [pdf] at
    the record it leaves, which has the incoming direction and the
    intersection of the query and so the same pair.  A direction that
    fails its side check, or a total internal reflection, at that [m]
    makes both overloads return zero. *)
Theorem widening_shared (bRec : BSDFQueryRecord) (sampler : Sampler)
    (_pdf : R) (u : Point2) :
  let factor := 1.2 - 0.2 * sqrt (Rabs (cosTheta (wi bRec))) in
  let alphaU := roughnessU bRec * factor in
  let alphaV := roughnessV bRec * factor in
  let D_pdf := fun H : Normal => MicrofacetDistribution.pdf D_ H alphaU alphaV in
  let m := MicrofacetDistribution.sample D_ u alphaU alphaV in
  let c := fst (choose this bRec sampler m) in
  let s := snd (choose this bRec sampler m) in
  (forall b : BSDFQueryRecord,
     wi b = wi bRec -> its b = its bRec ->
     let reflect := Rltb 0 (cosTheta (wi b) * cosTheta (wo b)) in
     let etaI := fst (etaPair this b) in
     let etaT := snd (etaPair this b) in
     let H := if reflect then halfReflect b else halfTransmit this b in
     let F := fresnel (dot (wi b) H) (m_extIOR this) (m_intIOR this) in
     let Jacobian :=
       if reflect then 1 / (4 * dot (wo b) H)
       else (etaT * etaT * dot (wo b) H)
            / ((etaI * dot (wi b) H + etaT * dot (wo b) H)
               * (etaI * dot (wi b) H + etaT * dot (wo b) H)) in
     let weighting :=
       if hasTransmission b && hasReflection b
       then if reflect then F else 1 - F
       else 1 in
     (if reflect then hasReflection b else hasTransmission b) = true ->
     pdf this b ESolidAngle = Rabs (D_pdf H * weighting * Jacobian))
  /\ (forall b : BSDFQueryRecord,
        hasReflection bRec = true \/ hasTransmission bRec = true ->
        scatter this bRec m c = inr b ->
        let etaI := fst (etaPair this bRec) in
        let etaT := snd (etaPair this bRec) in
        let result :=
          if c then m_specularReflectance this (its bRec)
          else smul (m_specularTransmittance this (its bRec))
                    (if isRadiance (quantity bRec)
                     then (etaI * etaI) / (etaT * etaT) else 1) in
        let D := MicrofacetDistribution.eval D_ m (roughnessU bRec) (roughnessV bRec) in
        let G := MicrofacetDistribution.G D_ (wi bRec) (wo b) m
                   (roughnessU bRec) (roughnessV bRec) in
        wi b = wi bRec /\ its b = its bRec
        /\ sample this bRec sampler u
           = (smul result
                (Rabs (D * G * dot (wi bRec) m / (D_pdf m * cosTheta (wi bRec)))),
              b, s)
        /\ sample_pdf this bRec sampler _pdf u
           = (if Reqb (pdf this b ESolidAngle) 0 then Spectrum_const SPECTRUM_SAMPLES 0
              else eval this b ESolidAngle,
              pdf this b ESolidAngle, b, s))
  /\ (forall b : BSDFQueryRecord,
        hasReflection bRec = true \/ hasTransmission bRec = true ->
        scatter this bRec m c = inl b ->
        sample this bRec sampler u = (Spectrum_const SPECTRUM_SAMPLES 0, b, s)
        /\ sample_pdf this bRec sampler _pdf u
           = (Spectrum_const SPECTRUM_SAMPLES 0, _pdf, b, s)).
Proof.
  intros factor alphaU alphaV D_pdf m c s.
  assert (Hm : sampleNormal this ENLARGE_LOBE_TRICK bRec u = m).
  { unfold Plugin.sampleNormal, Plugin.sampleAlpha. simpl Z.eqb. cbv iota.
    reflexivity. }
  assert (Hnone : hasReflection bRec = true \/ hasTransmission bRec = true ->
                  negb (hasReflection bRec) && negb (hasTransmission bRec) = false).
  { intros [E | E]; rewrite E; [reflexivity | apply andb_false_r]. }
  split; [| split].
  - intros b Hwi Hits reflect etaI etaT H F Jacobian weighting Hreq.
    unfold Plugin.pdf. rewrite pdf_with_solid_angle. cbv zeta.
    fold reflect H F. rewrite Hreq.
    unfold Plugin.sampleAlpha. simpl Z.eqb. cbv iota. cbn [fst snd].
    rewrite Hwi, Hits.
    fold (roughnessU bRec) (roughnessV bRec). fold factor. fold alphaU alphaV.
    fold etaI etaT. f_equal. unfold weighting, Jacobian, D_pdf.
    destruct (hasTransmission b && hasReflection b); rewrite ?Hwi;
      [reflexivity | ring].
  - intros b Hen Hs etaI etaT result D G.
    pose proof (scatter_frame _ _ _ bRec m c b (or_intror Hs))
      as (Hwi & Hits & Hq & _).
    split; [exact Hwi | split; [exact Hits | split]].
    + unfold Plugin.sample. rewrite sample_with_eq. cbv zeta.
      rewrite Hm, (Hnone Hen). fold c s. rewrite Hs.
      f_equal. f_equal. unfold Plugin.sampleWeight, Plugin.sampleAlpha.
      simpl Z.eqb. cbv iota. cbn [fst snd].
      assert (HU : roughnessU b = roughnessU bRec)
        by (unfold Plugin.roughnessU; rewrite Hits; reflexivity).
      assert (HV : roughnessV b = roughnessV bRec)
        by (unfold Plugin.roughnessV; rewrite Hits; reflexivity).
      assert (He : etaPair this b = etaPair this bRec)
        by (unfold Plugin.etaPair; rewrite Hwi; reflexivity).
      fold (roughnessU b) (roughnessV b).
      rewrite HU, HV, He, Hwi, Hits, Hq.
      reflexivity.
    + unfold Plugin.sample_pdf. rewrite sample_pdf_with_eq. cbv zeta.
      rewrite Hm, (Hnone Hen). fold c s. rewrite Hs. reflexivity.
  - intros b Hen Hs. split.
    + unfold Plugin.sample. rewrite sample_with_eq. cbv zeta.
      rewrite Hm, (Hnone Hen). fold c s. rewrite Hs. reflexivity.
    + unfold Plugin.sample_pdf. rewrite sample_pdf_with_eq. cbv zeta.
      rewrite Hm, (Hnone Hen). fold c s. rewrite Hs. reflexivity.
Qed.

End WideningShared.

(** ** Sampling consistency

    What [eval/pdf] is at a sampled direction, against the weight that
    the first overload returned for it. *)

Lemma vadd_reflect (wi : Vector) (m : Normal) :
  vadd (reflect wi m) wi = vscale (2 * dot wi m) m.
Proof. unfold vadd, reflect, vsub, vscale. simpl. apply vector_eq; ring. Qed.

Lemma dot_vscale (a : R) (v w : Vector) : dot (vscale a v) w = a * dot v w.
Proof. unfold dot, vscale. simpl. ring. Qed.

Lemma dot_comm (v w : Vector) : dot v w = dot w v.
Proof. unfold dot. ring. Qed.

Lemma length_vscale (a : R) (m : Normal) :
  dot m m = 1 -> length (vscale a m) = Rabs a.
Proof.
  intros Hm. unfold length.
  rewrite dot_vscale, (dot_comm m), dot_vscale, Hm.
  replace (a * (a * 1)) with (Rsqr a) by (unfold Rsqr; ring).
  apply sqrt_Rsqr_abs.
Qed.

Lemma normalize_vscale (a : R) (m : Normal) :
  dot m m = 1 -> normalize (vscale a m) = vscale (a / Rabs a) m.
Proof.
  intros Hm. unfold normalize. rewrite (length_vscale a m Hm).
  unfold vscale. simpl. apply vector_eq; unfold Rdiv; ring.
Qed.

Lemma dot_reflect (wi : Vector) (m : Normal) :
  dot m m = 1 -> dot (reflect wi m) m = dot wi m.
Proof.
  intros Hm. unfold reflect.
  replace (dot (vsub (vscale (2 * dot wi m) m) wi) m)
    with (2 * dot wi m * dot m m - dot wi m) by (unfold dot, vsub, vscale; simpl; ring).
  rewrite Hm. ring.
Qed.

Lemma vscale_vscale (a b : R) (v : Vector) : vscale a (vscale b v) = vscale (a * b) v.
Proof. unfold vscale. simpl. apply vector_eq; ring. Qed.

Lemma vscale_1 (v : Vector) : vscale 1 v = v.
Proof. destruct v. unfold vscale. simpl. apply vector_eq; ring. Qed.

(** The half-vector of a reflected direction that passed its side check
    is the normal it was reflected at. *)
Lemma halfVector_reflect (wi : Vector) (m : Normal) :
  dot m m = 1 -> 0 < vz m ->
  0 < cosTheta wi * cosTheta (reflect wi m) ->
  vscale (signum (cosTheta (reflect wi m))) (normalize (vadd (reflect wi m) wi)) = m
  /\ 0 < dot wi m * cosTheta wi.
Proof.
  intros Hm Hz Hside.
  rewrite vadd_reflect, (normalize_vscale _ m Hm), vscale_vscale.
  assert (Hwo : cosTheta (reflect wi m) = 2 * dot wi m * vz m - vz wi) by reflexivity.
  unfold cosTheta in *. rewrite Hwo in Hside |- *.
  set (c := dot wi m) in *. clearbody c.
  destruct (Rlt_dec (vz wi) 0) as [Hneg | Hpos].
  - assert (Hwoz : 2 * c * vz m - vz wi < 0) by nra.
    assert (Hc : c < 0).
    { destruct (Rlt_dec c 0) as [Hlt | Hge]; [exact Hlt |].
      assert (0 <= c * vz m) by (apply Rmult_le_pos; lra).
      lra. }
    unfold signum. rewrite (Rltb_true _ _ Hwoz).
    rewrite (Rabs_left (2 * c)) by lra.
    split; [| nra].
    replace (-1 * (2 * c / - (2 * c))) with 1 by (field; lra).
    apply vscale_1.
  - assert (Hwiz : 0 < vz wi).
    { destruct (Rtotal_order (vz wi) 0) as [H | [H | H]];
        [lra | rewrite H in Hside; lra | exact H]. }
    assert (Hwoz : 0 < 2 * c * vz m - vz wi) by nra.
    assert (Hc : 0 < c).
    { destruct (Rlt_dec 0 c) as [Hlt | Hge]; [exact Hlt |].
      assert (0 <= (- c) * vz m) by (apply Rmult_le_pos; lra). lra. }
    unfold signum. rewrite (Rltb_false (2 * c * vz m - vz wi) 0) by lra.
    rewrite (Rabs_pos_eq (2 * c)) by lra.
    split; [| nra].
    replace (1 * (2 * c / (2 * c))) with 1 by (field; lra).
    apply vscale_1.
Qed.

Lemma smul_sdiv (s : Spectrum) (a b : R) : sdiv (smul s a) b = smul s (a / b).
Proof.
  unfold sdiv, smul. rewrite map_map. apply map_ext. intros x. unfold Rdiv. ring.
Qed.

Lemma smul_smul (s : Spectrum) (a b : R) : smul (smul s a) b = smul s (a * b).
Proof.
  unfold smul. rewrite map_map. apply map_ext. intros x. ring.
Qed.

Lemma Rabs_quotient (X c p w : R) :
  0 <= X -> Rabs (X * c / (p * w)) = X * Rabs c / (Rabs p * Rabs w).
Proof.
  intros HX. unfold Rdiv.
  rewrite !Rabs_mult, Rabs_inv, Rabs_mult, (Rabs_pos_eq X HX). reflexivity.
Qed.

Lemma refract_sum (wi : Vector) (m : Normal) (etaI etaT t : R) :
  etaT <> 0 ->
  vadd (vscale etaI wi) (vscale etaT (vsub (vscale t m) (vscale (etaI / etaT) wi)))
  = vscale (etaT * t) m.
Proof.
  intros He. unfold vadd, vsub, vscale. simpl. apply vector_eq; field; exact He.
Qed.

Lemma refract_dot (wi : Vector) (m : Normal) (eta t : R) :
  dot m m = 1 ->
  dot (vsub (vscale t m) (vscale eta wi)) m = t - eta * dot wi m.
Proof.
  intros Hm.
  replace (dot (vsub (vscale t m) (vscale eta wi)) m)
    with (t * dot m m - eta * dot wi m) by (unfold dot, vsub, vscale; simpl; ring).
  rewrite Hm. ring.
Qed.

Lemma product_pos_neg (a b : R) : 0 < a * b -> b < 0 -> a < 0.
Proof.
  intros Hab Hb. destruct (Rlt_dec a 0) as [Ha | Ha]; [exact Ha |].
  assert (0 <= a * (- b)) by (apply Rmult_le_pos; lra). lra.
Qed.

Lemma product_pos_pos (a b : R) : 0 < a * b -> ~ b < 0 -> 0 < a /\ 0 < b.
Proof.
  intros Hab Hb.
  assert (Hb' : 0 < b).
  { destruct (Rtotal_order b 0) as [H | [H | H]];
      [contradiction | rewrite H in Hab; lra | exact H]. }
  split; [| exact Hb'].
  destruct (Rlt_dec 0 a) as [Ha | Ha]; [exact Ha |].
  assert (0 <= (- a) * b) by (apply Rmult_le_pos; lra). lra.
Qed.

(** The side of the micro-normal on which the refracted direction leaves,
    from the ratio of the indices. *)
Lemma refract_sign (eta c wz : R) :
  let k := 1 + eta * eta * (c * c - 1) in
  let t := eta * c - signum wz * sqrt k in
  0 < eta -> 0 < c * wz -> 0 < k ->
  (1 < eta -> 0 < signum wz * t) /\ (eta < 1 -> signum wz * t < 0).
Proof.
  intros k t Heta Hc Hk.
  assert (Hr : 0 < sqrt k) by (apply sqrt_lt_R0; exact Hk).
  assert (Hrr : sqrt k * sqrt k = k) by (apply sqrt_sqrt; lra).
  set (r := sqrt k) in *. clearbody r.
  assert (Hkk : (eta * c) * (eta * c) - r * r = eta * eta - 1) by (rewrite Hrr; unfold k; ring).
  unfold t, signum.
  destruct (Rlt_dec wz 0) as [Hneg | Hpos].
  - rewrite (Rltb_true _ _ Hneg).
    assert (Hcn : c < 0) by (apply (product_pos_neg c wz); assumption).
    assert (Hec : eta * c < 0) by nra.
    split; intros H; nra.
  - rewrite (Rltb_false wz 0) by lra.
    destruct (product_pos_pos c wz Hc Hpos) as [Hcp Hwz].
    assert (Hec : 0 < eta * c) by nra.
    split; intros H; nra.
Qed.

Lemma Rabs_reflection_density (p f c : R) :
  0 <= f -> Rabs (p * f * (1 / (4 * c))) = Rabs p * f / (4 * Rabs c).
Proof.
  intros Hf. unfold Rdiv.
  rewrite !Rabs_mult, Rabs_inv, Rabs_mult.
  rewrite (Rabs_pos_eq f Hf), (Rabs_pos_eq 1), (Rabs_pos_eq 4) by lra.
  ring.
Qed.

Lemma Rabs_square (a : R) : Rabs (a * a) = a * a.
Proof. apply Rabs_pos_eq. nra. Qed.

Lemma Rabs_Rabs (a : R) : Rabs a * Rabs a = a * a.
Proof. rewrite <- Rabs_mult. apply Rabs_square. Qed.

Lemma Rabs_transmission_value (f D G e c q w a : R) :
  0 <= f -> 0 <= D * G ->
  Rabs (f * D * G * e * e * c * q / (w * a * a))
  = f * (D * G) * (e * e) * Rabs c * Rabs q / (Rabs w * (a * a)).
Proof.
  intros Hf HDG.
  replace (f * D * G * e * e * c * q / (w * a * a))
    with (f * (D * G) * (e * e) * c * q * / (w * (a * a)))
    by (unfold Rdiv; rewrite !Rinv_mult; ring).
  rewrite !Rabs_mult, Rabs_inv, !Rabs_mult.
  rewrite <- (Rabs_mult D G), !Rabs_Rabs.
  rewrite (Rabs_pos_eq f Hf), (Rabs_pos_eq (D * G) HDG).
  unfold Rdiv. reflexivity.
Qed.

Lemma Rabs_transmission_density (p f e q a : R) :
  0 <= f ->
  Rabs (p * f * (e * e * q / (a * a))) = Rabs p * f * (e * e) * Rabs q / (a * a).
Proof.
  intros Hf. unfold Rdiv.
  rewrite !Rabs_mult, Rabs_inv, !Rabs_mult, !Rabs_Rabs, (Rabs_pos_eq f Hf).
  ring.
Qed.

Section Consistency.

Context {Intersection : Type}.
Variable fresnel : R -> R -> R -> R.
Variables EGlossyReflection EGlossyTransmission : Z.
Variable SPECTRUM_SAMPLES : nat.
Variable this : RoughDielectric (Intersection := Intersection).

Local Abbreviation BSDFQueryRecord := (BSDFQueryRecord (Intersection := Intersection)).
Local Abbreviation hasReflection := (hasReflection EGlossyReflection).
Local Abbreviation hasTransmission := (hasTransmission EGlossyTransmission).
Local Abbreviation roughnessU := (roughnessU SPECTRUM_SAMPLES this).
Local Abbreviation roughnessV := (roughnessV SPECTRUM_SAMPLES this).
Local Abbreviation D_ := (m_distribution this).
Local Abbreviation eval :=
  (eval fresnel EGlossyReflection EGlossyTransmission SPECTRUM_SAMPLES this).
Local Abbreviation pdf :=
  (pdf fresnel EGlossyReflection EGlossyTransmission SPECTRUM_SAMPLES this).
Local Abbreviation sample :=
  (sample fresnel EGlossyReflection EGlossyTransmission SPECTRUM_SAMPLES this).
Local Abbreviation sampleNormal := (sampleNormal SPECTRUM_SAMPLES this).
Local Abbreviation choose := (choose fresnel EGlossyReflection EGlossyTransmission this).

(** Reflection.  For a unit micro-normal in the upper hemisphere, a
    density and a shadowing term that are not negative and a positive
    Fresnel term, [eval/pdf] at the reflected direction is the returned
    weight when both components are enabled, and [F] times the returned
    weight when reflection alone is enabled. *)
Lemma sample_reflection_ratio (bRec : BSDFQueryRecord) (sampler : Sampler) (u : Point2) :
  let m := sampleNormal ENLARGE_LOBE_TRICK bRec u in
  let c := dot (wi bRec) m in
  let wo' := reflect (wi bRec) m in
  let D := MicrofacetDistribution.eval D_ m (roughnessU bRec) (roughnessV bRec) in
  let G := MicrofacetDistribution.G D_ (wi bRec) wo' m
             (roughnessU bRec) (roughnessV bRec) in
  let factor := 1.2 - 0.2 * sqrt (Rabs (cosTheta (wi bRec))) in
  let D_pdf := MicrofacetDistribution.pdf D_ m
                 (roughnessU bRec * factor) (roughnessV bRec * factor) in
  let F := fresnel c (m_extIOR this) (m_intIOR this) in
  let weight := Rabs (D * G * c / (D_pdf * cosTheta (wi bRec))) in
  dot m m = 1 -> 0 < vz m ->
  hasReflection bRec = true ->
  fst (choose bRec sampler m) = true ->
  0 < cosTheta (wi bRec) * cosTheta wo' ->
  D <> 0 -> 0 <= D * G -> 0 < F -> D_pdf <> 0 ->
  let bRec' := snd (fst (sample bRec sampler u)) in
  fst (fst (sample bRec sampler u))
  = smul (m_specularReflectance this (its bRec)) weight
  /\ sdiv (eval bRec' ESolidAngle) (pdf bRec' ESolidAngle)
     = smul (m_specularReflectance this (its bRec))
            ((if hasTransmission bRec then 1 else F) * weight).
Proof.
  intros m c wo' D G factor D_pdf F weight Hm Hz Hr Hch Hside HD HDG HF Hp.
  destruct (halfVector_reflect (wi bRec) m Hm Hz Hside) as [HH Hc].
  fold wo' c in HH, Hc.
  assert (Hs : fst (sample bRec sampler u)
               = (smul (m_specularReflectance this (its bRec)) weight,
                  set_sampled (set_wo bRec wo') 0 EGlossyReflection)).
  { unfold Plugin.sample. rewrite sample_with_eq. cbv zeta. fold m.
    rewrite (enabled_not_empty _ _ bRec (or_introl Hr)), Hch, scatter_reflection.
    cbv zeta. fold wo'. rewrite (Rleb_false _ _ Hside). cbn [fst].
    reflexivity. }
  cbv zeta. rewrite Hs. cbn [fst snd]. split; [reflexivity |].
  set (b := set_sampled (set_wo bRec wo') 0 EGlossyReflection).
  rewrite eval_solid_angle. unfold Plugin.pdf. rewrite pdf_with_solid_angle. cbv zeta.
  change (wi b) with (wi bRec). change (wo b) with wo'. change (its b) with (its bRec).
  change (hasReflection b) with (hasReflection bRec).
  change (hasTransmission b) with (hasTransmission bRec).
  change (halfReflect b)
    with (vscale (signum (cosTheta wo')) (normalize (vadd wo' (wi bRec)))).
  rewrite (Rltb_true _ _ Hside), Hr, HH.
  change (roughnessU b) with (roughnessU bRec).
  change (roughnessV b) with (roughnessV bRec).
  change (Plugin.sampleAlpha SPECTRUM_SAMPLES this ENLARGE_LOBE_TRICK b)
    with (roughnessU bRec * factor, roughnessV bRec * factor).
  cbn [fst snd]. fold c D G D_pdf F.
  rewrite (Reqb_false _ _ HD).
  unfold wo'. rewrite (dot_reflect (wi bRec) m Hm). fold c.
  rewrite smul_sdiv. f_equal.
  unfold weight. rewrite (Rabs_quotient (D * G) c D_pdf _ HDG).
  unfold cosTheta in *.
  assert (Hc0 : c <> 0) by (intros E; rewrite E in Hc; lra).
  assert (Hw0 : vz (wi bRec) <> 0) by (intros E; rewrite E in Hc; lra).
  pose proof (Rabs_no_R0 _ Hc0) as Hac.
  pose proof (Rabs_no_R0 _ Hw0) as Haw.
  pose proof (Rabs_no_R0 _ Hp) as Hap.
  destruct (hasTransmission bRec); cbn [andb].
  - rewrite (Rabs_reflection_density D_pdf F c) by lra.
    field. repeat split; lra.
  - replace (D_pdf * (1 / (4 * c))) with (D_pdf * 1 * (1 / (4 * c))) by ring.
    rewrite (Rabs_reflection_density D_pdf 1 c) by lra.
    field. repeat split; lra.
Qed.

Local Abbreviation scatter := (scatter EGlossyReflection EGlossyTransmission this).

(** Transmission.  For a unit micro-normal facing the incoming direction,
    positive and distinct indices and a refraction below the critical
    angle, [eval/pdf] at the refracted direction is the returned weight
    when both components are enabled, and [1-F] times the returned weight
    when transmission alone is enabled. *)
Lemma sample_transmission_ratio (bRec : BSDFQueryRecord) (sampler : Sampler) (u : Point2) :
  let m := sampleNormal ENLARGE_LOBE_TRICK bRec u in
  let c := dot (wi bRec) m in
  let etaI := if Rltb (cosTheta (wi bRec)) 0 then m_intIOR this else m_extIOR this in
  let etaT := if Rltb (cosTheta (wi bRec)) 0 then m_extIOR this else m_intIOR this in
  let eta := etaI / etaT in
  let k := 1 + eta * eta * (c * c - 1) in
  let wo' := vsub (vscale (eta * c - signum (vz (wi bRec)) * sqrt k) m)
                  (vscale eta (wi bRec)) in
  let D := MicrofacetDistribution.eval D_ m (roughnessU bRec) (roughnessV bRec) in
  let G := MicrofacetDistribution.G D_ (wi bRec) wo' m
             (roughnessU bRec) (roughnessV bRec) in
  let factor := 1.2 - 0.2 * sqrt (Rabs (cosTheta (wi bRec))) in
  let D_pdf := MicrofacetDistribution.pdf D_ m
                 (roughnessU bRec * factor) (roughnessV bRec * factor) in
  let F := fresnel c (m_extIOR this) (m_intIOR this) in
  let correction := if isRadiance (quantity bRec)
                    then (etaI * etaI) / (etaT * etaT) else 1 in
  let weight := Rabs (D * G * c / (D_pdf * cosTheta (wi bRec))) in
  dot m m = 1 ->
  0 < m_intIOR this -> 0 < m_extIOR this -> m_intIOR this <> m_extIOR this ->
  0 < c * cosTheta (wi bRec) -> 0 < k ->
  hasTransmission bRec = true ->
  fst (choose bRec sampler m) = false ->
  cosTheta (wi bRec) * cosTheta wo' < 0 ->
  D <> 0 -> 0 <= D * G -> F < 1 -> D_pdf <> 0 ->
  let bRec' := snd (fst (sample bRec sampler u)) in
  fst (fst (sample bRec sampler u))
  = smul (smul (m_specularTransmittance this (its bRec)) correction) weight
  /\ sdiv (eval bRec' ESolidAngle) (pdf bRec' ESolidAngle)
     = smul (smul (m_specularTransmittance this (its bRec)) correction)
            ((if hasReflection bRec then 1 else 1 - F) * weight).
Proof.
  intros m c etaI etaT eta k wo' D G factor D_pdf F correction weight
         Hm Hint Hext Hne Hc Hk Ht Hch Hside HD HDG HF Hp.
  assert (Hr : refract (wi bRec) m etaI etaT = Some wo').
  { unfold refract. cbv zeta. fold c eta k. rewrite (Rltb_false k 0) by lra. reflexivity. }
  assert (Hs : fst (sample bRec sampler u)
               = (smul (smul (m_specularTransmittance this (its bRec)) correction) weight,
                  set_sampled (set_wo bRec wo') 1 EGlossyTransmission)).
  { unfold Plugin.sample. rewrite sample_with_eq. cbv zeta. fold m.
    rewrite (enabled_not_empty _ _ bRec (or_intror Ht)), Hch, scatter_transmission.
    rewrite etaPair_eq. cbn [fst snd]. fold etaI etaT. rewrite Hr. cbv zeta.
    rewrite (Rleb_false 0 (cosTheta (wi bRec) * cosTheta wo')) by lra. cbn [fst].
    unfold Plugin.sampleWeight. cbn [its wi wo quantity set_wo set_sampled].
    rewrite etaPair_eq. reflexivity. }
  cbv zeta. rewrite Hs. cbn [fst snd]. split; [reflexivity |].
  clear Hs Hr Hch.
  set (s := signum (vz (wi bRec))) in *.
  set (t := eta * c - s * sqrt k) in *.
  assert (HetaI : 0 < etaI) by (unfold etaI; destruct (Rltb _ 0); assumption).
  assert (HetaT : 0 < etaT) by (unfold etaT; destruct (Rltb _ 0); assumption).
  assert (Heta : 0 < eta) by (apply Rdiv_lt_0_compat; assumption).
  assert (HetaE : eta * etaT = etaI) by (unfold eta; field; lra).
  destruct (refract_sign eta c (vz (wi bRec)) Heta Hc Hk) as [Hgt Hlt].
  fold k s t in Hgt, Hlt.
  assert (HH : vscale (if Rltb (m_intIOR this) (m_extIOR this) then 1 else -1)
                 (normalize (vadd (vscale etaI (wi bRec)) (vscale etaT wo')))
               = m).
  { unfold wo', eta. rewrite refract_sum by lra. fold eta t.
    rewrite (normalize_vscale _ m Hm), vscale_vscale.
    assert (Hone : (if Rltb (m_intIOR this) (m_extIOR this) then 1 else -1)
                   * (etaT * t / Rabs (etaT * t)) = 1).
    { unfold etaI, etaT, s, signum, cosTheta in *.
      destruct (Rltb (vz (wi bRec)) 0);
        destruct (Rlt_dec (m_intIOR this) (m_extIOR this)) as [Hie | Hie].
      - rewrite (Rltb_true _ _ Hie).
        assert (Ht0 : 0 < t) by nra.
        rewrite Rabs_pos_eq by nra. field. nra.
      - rewrite (Rltb_false (m_intIOR this) (m_extIOR this)) by lra.
        assert (Ht0 : t < 0) by nra.
        rewrite Rabs_left by nra. field. nra.
      - rewrite (Rltb_true _ _ Hie).
        assert (Ht0 : 0 < t) by nra.
        rewrite Rabs_pos_eq by nra. field. nra.
      - rewrite (Rltb_false (m_intIOR this) (m_extIOR this)) by lra.
        assert (Ht0 : t < 0) by nra.
        rewrite Rabs_left by nra. field. nra. }
    rewrite Hone. apply vscale_1. }
  assert (Hom : dot wo' m = - s * sqrt k).
  { unfold wo'. rewrite (refract_dot _ _ _ _ Hm). fold c. unfold t. ring. }
  set (b := set_sampled (set_wo bRec wo') 1 EGlossyTransmission).
  rewrite eval_solid_angle. unfold Plugin.pdf. rewrite pdf_with_solid_angle. cbv zeta.
  rewrite !etaPair_eq.
  change (wi b) with (wi bRec). change (wo b) with wo'. change (its b) with (its bRec).
  change (quantity b) with (quantity bRec).
  change (hasReflection b) with (hasReflection bRec).
  change (hasTransmission b) with (hasTransmission bRec).
  change (halfTransmit this b)
    with (let '(eI, eT) := etaPair this bRec in
          vscale (if Rltb (m_intIOR this) (m_extIOR this) then 1 else -1)
            (normalize (vadd (vscale eI (wi bRec)) (vscale eT wo')))).
  rewrite etaPair_eq. cbn [fst snd]. fold etaI etaT.
  rewrite (Rltb_false 0 (cosTheta (wi bRec) * cosTheta wo')) by lra.
  rewrite Ht, HH.
  change (roughnessU b) with (roughnessU bRec).
  change (roughnessV b) with (roughnessV bRec).
  change (Plugin.sampleAlpha SPECTRUM_SAMPLES this ENLARGE_LOBE_TRICK b)
    with (roughnessU bRec * factor, roughnessV bRec * factor).
  cbn [fst snd]. fold c D G D_pdf F.
  rewrite (Reqb_false _ _ HD), Hom.
  rewrite smul_sdiv, smul_smul. f_equal.
  set (r := sqrt k) in *.
  assert (Hr : 0 < r) by (apply sqrt_lt_R0; exact Hk).
  assert (Hq : Rabs (- s * r) = r).
  { unfold s, signum. destruct (Rltb (vz (wi bRec)) 0).
    - rewrite Rabs_pos_eq; lra.
    - rewrite Rabs_left; lra. }
  assert (Hne1 : eta <> 1) by (intros E; rewrite E in HetaE; unfold etaI, etaT in *;
                               destruct (Rltb (cosTheta (wi bRec)) 0); lra).
  assert (Ht0 : t <> 0).
  { intros E. rewrite E in Hgt, Hlt.
    destruct (Rtotal_order eta 1) as [H | [H | H]]; [| contradiction |].
    - specialize (Hlt H). lra.
    - specialize (Hgt H). lra. }
  assert (Ha : etaI * c + etaT * (- s * r) = etaT * t) by (unfold t; rewrite <- HetaE; ring).
  rewrite Ha.
  assert (Ha0 : etaT * t <> 0) by (apply Rmult_integral_contrapositive_currified; lra).
  unfold cosTheta in *.
  assert (Hc0 : c <> 0) by (intros E; rewrite E in Hc; lra).
  assert (Hw0 : vz (wi bRec) <> 0) by (intros E; rewrite E in Hc; lra).
  pose proof (Rabs_no_R0 _ Hc0) as Hac.
  pose proof (Rabs_no_R0 _ Hw0) as Haw.
  pose proof (Rabs_no_R0 _ Hp) as Hap.
  unfold weight. rewrite (Rabs_quotient (D * G) c D_pdf _ HDG).
  assert (Hv : Rabs ((1 - F) * D * G * etaT * etaT * c * (- s * r)
                     / (vz (wi bRec) * (etaT * t) * (etaT * t)))
               = (1 - F) * (D * G) * (etaT * etaT) * Rabs c * r
                 / (Rabs (vz (wi bRec)) * (etaT * t * (etaT * t)))).
  { rewrite Rabs_transmission_value by lra. rewrite Hq. reflexivity. }
  assert (Hx : Rabs (if isRadiance (quantity bRec)
                     then (1 - F) * D * G * etaT * etaT * c * (- s * r)
                          / (vz (wi bRec) * (etaT * t) * (etaT * t))
                          * (etaI * etaI / (etaT * etaT))
                     else (1 - F) * D * G * etaT * etaT * c * (- s * r)
                          / (vz (wi bRec) * (etaT * t) * (etaT * t)))
               = (1 - F) * (D * G) * (etaT * etaT) * Rabs c * r
                 / (Rabs (vz (wi bRec)) * (etaT * t * (etaT * t))) * correction).
  { unfold correction. destruct (isRadiance (quantity bRec)).
    - rewrite Rabs_mult, Hv. f_equal.
      rewrite Rdiv_squares. apply Rabs_square.
    - rewrite Hv. ring. }
  rewrite Hx. clear Hx Hv.
  destruct (hasReflection bRec); cbn [andb].
  - rewrite Rabs_transmission_density by lra. rewrite Hq.
    field. repeat split; lra.
  - replace (D_pdf * (etaT * etaT * (- s * r) / (etaT * t * (etaT * t))))
      with (D_pdf * 1 * (etaT * etaT * (- s * r) / (etaT * t * (etaT * t)))) by ring.
    rewrite Rabs_transmission_density by lra. rewrite Hq.
    field. repeat split; lra.
Qed.

End Consistency.

(** * The scenes, evaluated *)

Lemma length_z (c : R) : length (mkVector 0 0 c) = Rabs c.
Proof.
  unfold length, dot. simpl.
  replace (0 * 0 + 0 * 0 + c * c) with (Rsqr c) by (unfold Rsqr; ring).
  apply sqrt_Rsqr_abs.
Qed.

Lemma normalize_z_pos (c : R) : 0 < c -> normalize (mkVector 0 0 c) = up.
Proof.
  intros Hc. unfold normalize. rewrite length_z, (Rabs_pos_eq c) by lra. simpl.
  unfold up. f_equal; field; lra.
Qed.

Lemma normalize_z_neg (c : R) : c < 0 -> normalize (mkVector 0 0 c) = down.
Proof.
  intros Hc. unfold normalize. rewrite length_z, (Rabs_left c) by lra. simpl.
  unfold down. f_equal; field; lra.
Qed.

Lemma spectrum3 (a b c a' b' c' : R) :
  a = a' -> b = b' -> c = c' -> [a; b; c] = [a'; b'; c'].
Proof. intros -> -> ->. reflexivity. Qed.

Lemma sqrt_4_9 : sqrt (Rabs (4 / 9)) = 2 / 3.
Proof.
  rewrite Rabs_pos_eq by lra.
  replace (4 / 9) with ((2 / 3) * (2 / 3)) by field.
  apply sqrt_square. lra.
Qed.

(** Unfolds the scene and the record and vector operations, leaving
    arithmetic on numerals. *)
Ltac scene :=
  cbv beta iota zeta delta
    [glass tilted scene_bsdf scene_distribution scene_fresnel scene_query
     scene_sampler scene_pdf' scene_sample' withSampling
     up down unset oblique inside grazing leaning mirrored bent
     sampleNormal sampleAlpha ENLARGE_LOBE_TRICK Z.eqb Pos.eqb
     m_distribution m_specularReflectance m_specularTransmittance
     m_alphaU m_alphaV m_intIOR m_extIOR
     its wi wo quantity typeMask component sampledComponent sampledType
     MicrofacetDistribution.eval MicrofacetDistribution.G
     MicrofacetDistribution.pdf MicrofacetDistribution.sample
     MicrofacetDistribution.transformRoughness
     roughnessU roughnessV average Spectrum_const repeat fold_right INR
     set_wo set_sampled next1D draws position
     smul sdiv map cosTheta vx vy vz dot vadd vsub vscale reflect signum
     halfReflect halfTransmit etaPair sampleWeight
     fst snd isRadiance negb andb orb].

(** Settles the comparisons of numerals met on the way. *)
Ltac compare :=
  repeat match goal with
    | |- context [Rltb ?a ?b] =>
        first [rewrite (Rltb_true a b) by lra | rewrite (Rltb_false a b) by lra]
    | |- context [Rleb ?a ?b] =>
        first [rewrite (Rleb_true a b) by lra | rewrite (Rleb_false a b) by lra]
    | |- context [Reqb ?a ?b] =>
        first [rewrite (Reqb_true a b) by lra | rewrite (Reqb_false a b) by lra]
    end.

(** Writes the two decimal constants of the widening factor as fractions. *)
Ltac decimals :=
  replace 1.2 with (6 / 5) by lra; replace 0.2 with (1 / 5) by lra.

(** Computes the enabled components of a concrete query. *)
Ltac flags :=
  repeat match goal with
    | |- context [hasReflection ?f ?b] =>
        let v := eval lazy in (hasReflection f b) in
        change (hasReflection f b) with v
    | |- context [hasTransmission ?f ?b] =>
        let v := eval lazy in (hasTransmission f b) in
        change (hasTransmission f b) with v
    end.

(** Rewrites a normalised vector along the z axis to [up] or [down]. *)
Ltac normalize_z c :=
  match goal with
  | |- context [normalize ?v] =>
      first
        [ replace (normalize v) with up
            by (symmetry; replace v with (mkVector 0 0 c) by (apply vector_eq; lra);
                apply normalize_z_pos; lra)
        | replace (normalize v) with down
            by (symmetry; replace v with (mkVector 0 0 c) by (apply vector_eq; lra);
                apply normalize_z_neg; lra) ]
  end.

(** Rewrites an absolute value whose argument is the numeral [e] to [v]. *)
Ltac absolute e v :=
  match goal with
  | |- context [Rabs ?x] =>
      replace (Rabs x) with v
        by (symmetry; replace x with e by (field; lra);
            first [ rewrite Rabs_pos_eq by lra; lra
                  | rewrite Rabs_left by lra; lra ])
  end.

(** Witness of C4: straight up and back, both components enabled. *)
Lemma eval_reflective_witness :
  eval scene_fresnel 4 8 3 glass (scene_query 12 up up 0 0) EDiscrete = [0; 0; 0]
  /\ eval scene_fresnel 4 8 3 glass (scene_query 12 up up 0 0) ESolidAngle
     = [1 / 8; 1 / 8; 1 / 8].
Proof.
  split.
  - apply (eval_reflective scene_fresnel 4 8 3 glass (scene_query 12 up up 0 0) EDiscrete).
    discriminate.
  - rewrite (proj2 (eval_reflective scene_fresnel 4 8 3 glass
                      (scene_query 12 up up 0 0) ESolidAngle)).
    + scene. rewrite Rabs_R1. apply spectrum3; field.
    + scene. lra.
    + reflexivity.
    + scene. lra.
Defined.

(** Witness of C2: straight through the glass, under both transport modes. *)
Lemma eval_transmissive_witness :
  eval scene_fresnel 4 8 3 glass (scene_query 12 up down 0 0) ESolidAngle = [2; 2; 2]
  /\ eval scene_fresnel 4 8 3 glass
       (mkBSDFQueryRecord tt up down EImportance 12 (-1) 0 0) ESolidAngle
     = [9 / 2; 9 / 2; 9 / 2].
Proof.
  split.
  - rewrite (eval_transmissive scene_fresnel 4 8 3 glass (scene_query 12 up down 0 0)).
    + cbv zeta. scene. compare. normalize_z (- 1 / 2). scene.
      absolute (- (9 / 2)) (9 / 2). apply spectrum3; field.
    + scene. lra.
    + reflexivity.
    + scene. lra.
  - rewrite (eval_transmissive scene_fresnel 4 8 3 glass
               (mkBSDFQueryRecord tt up down EImportance 12 (-1) 0 0)).
    + cbv zeta. scene. compare. normalize_z (- 1 / 2). scene.
      absolute (- (9 / 2)) (9 / 2). apply spectrum3; field.
    + scene. lra.
    + reflexivity.
    + scene. lra.
Defined.

(** Witness of C3: straight up and back, with both components enabled
    and with reflection alone. *)
Lemma pdf_fresnel_weighting_witness :
  pdf scene_fresnel 4 8 3 glass (scene_query 12 up up 0 0) ESolidAngle = 1 / 80
  /\ pdf scene_fresnel 4 8 3 glass (scene_query 4 up up 0 0) ESolidAngle = 1 / 40.
Proof.
  split.
  - rewrite (proj1 (pdf_fresnel_weighting scene_fresnel 4 8 3 glass
                      (scene_query 12 up up 0 0))); [| reflexivity | reflexivity].
    scene. compare. scene. normalize_z 2. scene.
    rewrite Rabs_R1, sqrt_1. decimals. absolute (1 / 80) (1 / 80). reflexivity.
  - rewrite (proj2 (pdf_fresnel_weighting scene_fresnel 4 8 3 glass
                      (scene_query 4 up up 0 0))); [| reflexivity |].
    + scene. compare. scene. normalize_z 2. scene.
      rewrite Rabs_R1, sqrt_1. decimals. absolute (1 / 40) (1 / 40). reflexivity.
    + scene. compare. reflexivity.
Defined.

(** ** Sampling consistency at a single enabled component *)

Lemma pair_eq {A B : Type} (a a' : A) (b b' : B) : a = a' -> b = b' -> (a, b) = (a', b').
Proof. intros -> ->. reflexivity. Qed.

(** Glass seen from straight above with the reflective component alone
    enabled: what the first overload returns, and [eval] and [pdf] at the
    direction it sampled. *)
Lemma glass_sample (sampler : Sampler) (u : Point2) :
  fst (sample scene_fresnel 4 8 3 glass (scene_query 4 up unset 0 0) sampler u)
  = ([10; 10; 10], scene_query 4 up up 0 4).
Proof.
  unfold Plugin.sample. rewrite sample_with_eq. cbv zeta.
  rewrite choose_eq. flags. scene. rewrite scatter_reflection. scene. compare. scene.
  rewrite Rabs_R1, sqrt_1. decimals. absolute 10 10.
  apply pair_eq; [apply spectrum3; lra | f_equal; apply vector_eq; lra].
Qed.

Lemma glass_eval : 
  eval scene_fresnel 4 8 3 glass (scene_query 4 up up 0 4) ESolidAngle
  = [1 / 8; 1 / 8; 1 / 8].
Proof.
  unfold Plugin.eval. rewrite requested_reflection, requested_transmission.
  flags. scene. compare. scene. compare. scene.
  rewrite Rabs_R1. apply spectrum3; field.
Qed.

Lemma glass_pdf : 
  pdf scene_fresnel 4 8 3 glass (scene_query 4 up up 0 4) ESolidAngle = 1 / 40.
Proof.
  unfold Plugin.pdf. rewrite pdf_with_solid_angle. flags. scene. compare. scene.
  normalize_z 2. scene. rewrite Rabs_R1, sqrt_1. decimals.
  absolute (1 / 40) (1 / 40). reflexivity.
Qed.

(** C1, at the failing input: glass seen from straight above with the
    reflective component alone enabled.  The first overload returns the
    weight [10] in every channel, while [eval/pdf] at the direction it
    sampled is [5]: the two differ by the Fresnel factor [1/2], which
    [eval] applies and the returned weight leaves out. *)
Theorem sample_weight_single_component :
  let query := scene_query 4 up unset 0 0 in
  let weight := fst (fst (sample scene_fresnel 4 8 3 glass query (scene_sampler (3 / 4)) (0, 0))) in
  let bRec := snd (fst (sample scene_fresnel 4 8 3 glass query (scene_sampler (3 / 4)) (0, 0))) in
  weight = [10; 10; 10]
  /\ isZero weight = false
  /\ sdiv (eval scene_fresnel 4 8 3 glass bRec ESolidAngle)
          (pdf scene_fresnel 4 8 3 glass bRec ESolidAngle) = [5; 5; 5]
  /\ sdiv (eval scene_fresnel 4 8 3 glass bRec ESolidAngle)
          (pdf scene_fresnel 4 8 3 glass bRec ESolidAngle) <> weight.
Proof.
  cbv zeta. rewrite glass_sample. simpl fst. simpl snd.
  rewrite glass_eval, glass_pdf.
  assert (Hr : sdiv [1 / 8; 1 / 8; 1 / 8] (1 / 40) = [5; 5; 5]).
  { unfold sdiv. simpl map. apply spectrum3; field. }
  rewrite Hr.
  split; [reflexivity | split; [| split; [reflexivity |]]].
  - unfold isZero. simpl forallb. compare. reflexivity.
  - intros Heq. inversion Heq. lra.
Qed.

(** ** The density returned by the second overload *)

Lemma glass_oblique_scatter :
  scatter 4 8 glass (scene_query 4 oblique unset 0 0) up true
  = inr (scene_query 4 oblique mirrored 0 4).
Proof.
  rewrite scatter_reflection. scene. compare.
  f_equal. f_equal. apply vector_eq; lra.
Qed.

Lemma glass_oblique_pdf :
  pdf scene_fresnel 4 8 3 glass (scene_query 4 oblique mirrored 0 4) ESolidAngle
  = 3 / 50.
Proof.
  unfold Plugin.pdf. rewrite pdf_with_solid_angle. flags. scene. compare. scene.
  normalize_z (8 / 9). scene. rewrite sqrt_4_9. decimals.
  absolute (3 / 50) (3 / 50). reflexivity.
Qed.

Lemma glass_oblique_pdf_unwidened :
  pdf_with scene_fresnel 4 8 3 glass 0 (scene_query 4 oblique mirrored 0 4) ESolidAngle
  = 9 / 160.
Proof.
  rewrite pdf_with_solid_angle. flags. scene. compare. scene.
  normalize_z (8 / 9). scene.
  absolute (9 / 160) (9 / 160). reflexivity.
Qed.

Lemma glass_oblique_sample_pdf (sampler : Sampler) (_pdf : R) (u : Point2) :
  fst (sample_pdf scene_fresnel 4 8 3 glass (scene_query 4 oblique unset 0 0)
         sampler _pdf u)
  = (eval scene_fresnel 4 8 3 glass (scene_query 4 oblique mirrored 0 4) ESolidAngle,
     3 / 50, scene_query 4 oblique mirrored 0 4).
Proof.
  unfold Plugin.sample_pdf. rewrite sample_pdf_with_eq. cbv zeta.
  rewrite choose_eq. flags.
  change (sampleNormal 3 glass ENLARGE_LOBE_TRICK (scene_query 4 oblique unset 0 0) u)
    with up.
  cbn [negb andb fst].
  rewrite glass_oblique_scatter.
  pose proof glass_oblique_pdf as Hp. unfold Plugin.pdf in Hp. rewrite Hp.
  compare. reflexivity.
Qed.

(** C7 as stated fails: on glass, from the oblique direction with the
    reflective component alone enabled, the density returned by the second
    overload is [3/50], whereas the density computed at the roughness that
    was not widened is [9/160]. *)
Lemma sample_pdf_density_is_widened :
  let out := sample_pdf scene_fresnel 4 8 3 glass (scene_query 4 oblique unset 0 0)
               (scene_sampler (3 / 4)) 0 (0, 0) in
  let _pdf := snd (fst (fst out)) in
  let bRec := snd (fst out) in
  _pdf <> pdf_with scene_fresnel 4 8 3 glass 0 bRec ESolidAngle.
Proof.
  cbv zeta. rewrite glass_oblique_sample_pdf. simpl fst. simpl snd.
  rewrite glass_oblique_pdf_unwidened. lra.
Qed.

(** Witness of C7. *)
Lemma sample_pdf_contract_witness :
  fst (sample_pdf scene_fresnel 4 8 3 glass (scene_query 4 oblique unset 0 0)
         (scene_sampler (3 / 4)) 0 (0, 0))
  = ([9 / 32; 9 / 32; 9 / 32], 3 / 50, scene_query 4 oblique mirrored 0 4).
Proof.
  unshelve epose proof
    (sample_pdf_contract scene_fresnel 4 8 3 glass (scene_query 4 oblique unset 0 0)
       (scene_sampler (3 / 4)) 0 (0, 0) (scene_query 4 oblique mirrored 0 4) _ _)
    as [W1 W2].
  - left. reflexivity.
  - rewrite choose_eq. flags.
    change (sampleNormal 3 glass ENLARGE_LOBE_TRICK (scene_query 4 oblique unset 0 0) (0, 0))
      with up.
    cbn [negb andb fst].
    exact glass_oblique_scatter.
  - rewrite W1, glass_oblique_pdf. compare.
    apply pair_eq; [apply pair_eq; [| reflexivity] | reflexivity].
    unfold Plugin.eval. rewrite requested_reflection, requested_transmission.
    flags. scene. compare. scene. compare. scene.
    absolute (4 / 9) (4 / 9). apply spectrum3; field.
Defined.

(** ** Rejected samples *)

Lemma refract_grazing :
  refract grazing (mkVector (3 / 5) 0 (4 / 5)) (5 / 3) 1 = Some bent.
Proof.
  unfold refract. cbv zeta. scene.
  match goal with
  | |- context [sqrt ?k] => replace k with 0 by field
  end.
  compare. rewrite sqrt_0. f_equal. apply vector_eq; field.
Qed.

(** Witness of C6: total internal reflection from inside the glass, and a
    refracted direction on the side of [wi] at the tilted normal. *)
Lemma sample_total_internal_reflection_witness :
  (fst (sample scene_fresnel 4 8 3 glass (scene_query 8 inside unset 0 0)
          (scene_sampler (3 / 4)) (0, 0))
   = ([0; 0; 0], scene_query 8 inside unset 0 0)
   /\ fst (sample_pdf scene_fresnel 4 8 3 glass (scene_query 8 inside unset 0 0)
             (scene_sampler (3 / 4)) 7 (0, 0))
      = ([0; 0; 0], 7, scene_query 8 inside unset 0 0))
  /\
  (fst (fst (sample scene_fresnel 4 8 3 tilted (scene_query 12 grazing unset 0 0)
               (scene_sampler (3 / 4)) (0, 0)))
   = [0; 0; 0]
   /\ fst (fst (fst (sample_pdf scene_fresnel 4 8 3 tilted
                       (scene_query 12 grazing unset 0 0)
                       (scene_sampler (3 / 4)) 7 (0, 0))))
      = [0; 0; 0]).
Proof.
  split.
  - unshelve epose proof
      (sample_total_internal_reflection scene_fresnel 4 8 3 glass
         (scene_query 8 inside unset 0 0) (scene_sampler (3 / 4)) 7 (0, 0) _ _)
      as [W _].
    + reflexivity.
    + left. reflexivity.
    + destruct W as (_ & W1 & W2).
      * scene. compare. lra.
      * split; [exact W1 | exact W2].
  - unshelve epose proof
      (sample_total_internal_reflection scene_fresnel 4 8 3 tilted
         (scene_query 12 grazing unset 0 0) (scene_sampler (3 / 4)) 7 (0, 0) _ _)
      as [_ W].
    + reflexivity.
    + right. scene. lra.
    + apply (W bent).
      * scene. compare. exact refract_grazing.
      * scene. lra.
Defined.

(** Witness of C9: a reflected direction below the surface at the tilted
    normal, a refracted direction on the side of [wi], total internal
    reflection inside the glass, and an empty mask. *)
Lemma sample_zero_mutates_witness :
  fst (sample scene_fresnel 4 8 3 tilted (scene_query 4 leaning unset 7 7)
         (scene_sampler (3 / 4)) (0, 0))
  = ([0; 0; 0],
     scene_query 4 leaning (reflect leaning (mkVector (3 / 5) 0 (4 / 5))) 0 4)
  /\
  fst (sample scene_fresnel 4 8 3 tilted (scene_query 12 grazing unset 7 7)
         (scene_sampler (3 / 4)) (0, 0))
  = ([0; 0; 0], scene_query 12 grazing bent 1 8)
  /\
  fst (sample scene_fresnel 4 8 3 glass (scene_query 8 inside unset 7 7)
         (scene_sampler (3 / 4)) (0, 0))
  = ([0; 0; 0], scene_query 8 inside unset 7 7)
  /\
  fst (sample_pdf scene_fresnel 4 8 3 glass (scene_query 0 up unset 7 7)
         (scene_sampler (3 / 4)) 7 (0, 0))
  = ([0; 0; 0], 7, scene_query 0 up unset 7 7).
Proof.
  split; [| split; [| split]].
  - destruct (sample_zero_mutates scene_fresnel 4 8 3 tilted
                (scene_query 4 leaning unset 7 7) (scene_sampler (3 / 4)) 7 (0, 0))
      as (W & _).
    apply W.
    + reflexivity.
    + left. reflexivity.
    + scene. lra.
  - destruct (sample_zero_mutates scene_fresnel 4 8 3 tilted
                (scene_query 12 grazing unset 7 7) (scene_sampler (3 / 4)) 7 (0, 0))
      as (_ & W & _).
    apply (W eq_refl).
    + right. scene. lra.
    + scene. compare. exact refract_grazing.
    + scene. lra.
  - destruct (sample_zero_mutates scene_fresnel 4 8 3 glass
                (scene_query 8 inside unset 7 7) (scene_sampler (3 / 4)) 7 (0, 0))
      as (_ & _ & W & _).
    apply (W eq_refl).
    + left. reflexivity.
    + scene. compare. unfold refract. cbv zeta. scene.
      rewrite Rltb_true by lra. reflexivity.
  - destruct (sample_zero_mutates scene_fresnel 4 8 3 glass
                (scene_query 0 up unset 7 7) (scene_sampler (3 / 4)) 7 (0, 0))
      as (_ & _ & _ & W).
    apply W; reflexivity.
Defined.

(** Witness of C10: one draw with both components enabled, none with the
    reflective component alone. *)
Lemma sample_draw_iff_both_witness :
  position (snd (sample scene_fresnel 4 8 3 glass (scene_query 12 up unset 0 0)
                   (scene_sampler (3 / 4)) (0, 0))) = 1%nat
  /\ position (snd (sample_pdf scene_fresnel 4 8 3 glass (scene_query 12 up unset 0 0)
                      (scene_sampler (3 / 4)) 0 (0, 0))) = 1%nat
  /\ snd (sample scene_fresnel 4 8 3 glass (scene_query 4 up unset 0 0)
            (scene_sampler (3 / 4)) (0, 0)) = scene_sampler (3 / 4)
  /\ fst (sample scene_fresnel 4 8 3 glass (scene_query 4 up unset 0 0)
            (scene_sampler (1 / 4)) (0, 0))
     = fst (sample scene_fresnel 4 8 3 glass (scene_query 4 up unset 0 0)
              (scene_sampler (3 / 4)) (0, 0)).
Proof.
  destruct (sample_draw_iff_both scene_fresnel 4 8 3 glass
              (scene_query 12 up unset 0 0) (scene_sampler (3 / 4)) 0 (0, 0))
    as (B1 & B2 & _).
  destruct (sample_draw_iff_both scene_fresnel 4 8 3 glass
              (scene_query 4 up unset 0 0) (scene_sampler (3 / 4)) 0 (0, 0))
    as (S1 & _ & _ & _ & _ & S2).
  split; [| split; [| split]].
  - rewrite B1. reflexivity.
  - rewrite B2. reflexivity.
  - rewrite S1. reflexivity.
  - apply (S2 eq_refl (scene_sampler (1 / 4))).
Defined.

(** A sampling density and a sampling routine that differ from those of
    the glass away from the widened roughness. *)
Lemma sampling_elsewhere_irrelevant_witness :
  scene_pdf' up 1 1 <> MicrofacetDistribution.pdf (m_distribution glass) up 1 1
  /\ pdf scene_fresnel 4 8 3 (withSampling glass scene_pdf' scene_sample')
       (scene_query 12 up up 0 0) ESolidAngle
     = pdf scene_fresnel 4 8 3 glass (scene_query 12 up up 0 0) ESolidAngle
  /\ sample scene_fresnel 4 8 3 (withSampling glass scene_pdf' scene_sample')
       (scene_query 12 up up 0 0) (scene_sampler (3 / 4)) (0, 0)
     = sample scene_fresnel 4 8 3 glass
         (scene_query 12 up up 0 0) (scene_sampler (3 / 4)) (0, 0)
  /\ sample_pdf scene_fresnel 4 8 3 (withSampling glass scene_pdf' scene_sample')
       (scene_query 12 up up 0 0) (scene_sampler (3 / 4)) 0 (0, 0)
     = sample_pdf scene_fresnel 4 8 3 glass
         (scene_query 12 up up 0 0) (scene_sampler (3 / 4)) 0 (0, 0).
Proof.
  split.
  - scene. compare. lra.
  - unshelve epose proof
      (sampling_elsewhere_irrelevant scene_fresnel 4 8 3 glass (scene_query 12 up up 0 0)
         (scene_sampler (3 / 4)) 0 (0, 0) ESolidAngle scene_pdf' scene_sample' _ _)
      as (_ & _ & W).
    + intros H. scene. rewrite Rabs_R1, sqrt_1. decimals. compare. reflexivity.
    + scene. rewrite Rabs_R1, sqrt_1. decimals. compare. reflexivity.
    + exact W.
Defined.

(** Witness of C5: from the oblique direction the factor is [16/15] and
    the widened roughness [8/75]; the sampling routine of [frosted] gives
    [up] there only, and the sampling density is the roughness it is
    given. *)
Lemma widening_shared_witness :
  pdf scene_fresnel 4 8 3 frosted (scene_query 4 oblique mirrored 0 4) ESolidAngle
  = 3 / 50
  /\ sample scene_fresnel 4 8 3 frosted (scene_query 4 oblique unset 0 0)
       (scene_sampler (3 / 4)) (0, 0)
     = ([75 / 8; 75 / 8; 75 / 8], scene_query 4 oblique mirrored 0 4,
        scene_sampler (3 / 4))
  /\ snd (fst (fst (sample_pdf scene_fresnel 4 8 3 frosted
                      (scene_query 4 oblique unset 0 0)
                      (scene_sampler (3 / 4)) 0 (0, 0)))) = 3 / 50.
Proof.
  destruct (widening_shared scene_fresnel 4 8 3 frosted (scene_query 4 oblique unset 0 0)
              (scene_sampler (3 / 4)) 0 (0, 0)) as (A & B & _).
  assert (P : pdf scene_fresnel 4 8 3 frosted (scene_query 4 oblique mirrored 0 4)
                ESolidAngle = 3 / 50).
  { rewrite (A (scene_query 4 oblique mirrored 0 4) eq_refl eq_refl).
    - flags. unfold frosted. scene. compare. scene.
      normalize_z (8 / 9). scene. rewrite sqrt_4_9. decimals.
      absolute (3 / 50) (3 / 50). reflexivity.
    - flags. scene. compare. reflexivity. }
  assert (M : MicrofacetDistribution.sample (m_distribution frosted) (0, 0)
                (roughnessU 3 frosted (scene_query 4 oblique unset 0 0)
                 * (1.2 - 0.2 * sqrt (Rabs (cosTheta (wi (scene_query 4 oblique unset 0 0))))))
                (roughnessV 3 frosted (scene_query 4 oblique unset 0 0)
                 * (1.2 - 0.2 * sqrt (Rabs (cosTheta (wi (scene_query 4 oblique unset 0 0))))))
              = up).
  { unfold frosted, scene_sample_oblique. scene. rewrite sqrt_4_9. decimals.
    compare. reflexivity. }
  specialize (B (scene_query 4 oblique mirrored 0 4)). cbv zeta in B.
  rewrite M in B.
  destruct B as (_ & _ & S1 & S2).
  - left. reflexivity.
  - rewrite choose_eq. flags. cbn [negb andb fst].
    rewrite scatter_reflection. unfold frosted. scene. compare.
    f_equal. f_equal. apply vector_eq; lra.
  - split; [exact P | split].
    + rewrite S1. rewrite choose_eq. flags. cbn [negb andb fst snd].
      unfold frosted. scene. rewrite sqrt_4_9. decimals.
      absolute (75 / 8) (75 / 8).
      apply pair_eq; [apply pair_eq; [apply spectrum3; lra | reflexivity] | reflexivity].
    + rewrite S2. cbn [fst snd]. exact P.
Defined.

(** * Further properties *)

(** ** The geometric helpers *)

Lemma dot_vsub_l (a b w : Vector) : dot (vsub a b) w = dot a w - dot b w.
Proof. unfold dot, vsub. simpl. ring. Qed.

Lemma dot_vsub_r (w a b : Vector) : dot w (vsub a b) = dot w a - dot w b.
Proof. unfold dot, vsub. simpl. ring. Qed.

Lemma dot_vscale_r (a : R) (v w : Vector) : dot v (vscale a w) = a * dot v w.
Proof. unfold dot, vscale. simpl. ring. Qed.

(** Cauchy-Schwarz for unit vectors, from Lagrange's identity. *)
Lemma dot_unit_bound (a b : Vector) :
  dot a a = 1 -> dot b b = 1 -> dot a b * dot a b <= 1.
Proof.
  intros Ha Hb.
  assert (HL : dot a a * dot b b - dot a b * dot a b
               = (vx a * vy b - vy a * vx b) * (vx a * vy b - vy a * vx b)
                 + (vy a * vz b - vz a * vy b) * (vy a * vz b - vz a * vy b)
                 + (vz a * vx b - vx a * vz b) * (vz a * vx b - vx a * vz b))
    by (unfold dot; ring).
  rewrite Ha, Hb in HL.
  pose proof (Rle_0_sqr (vx a * vy b - vy a * vx b)) as H1.
  pose proof (Rle_0_sqr (vy a * vz b - vz a * vy b)) as H2.
  pose proof (Rle_0_sqr (vz a * vx b - vx a * vz b)) as H3.
  unfold Rsqr in H1, H2, H3. lra.
Qed.

Lemma signum_square (x : R) : signum x * signum x = 1.
Proof. unfold signum. destruct (Rltb x 0); ring. Qed.

(** Mirror reflection at a unit normal is an involution: reflecting the
    reflected direction at the same normal gives the direction back. *)
Theorem reflect_involutive (wi : Vector) (m : Normal) :
  dot m m = 1 -> reflect (reflect wi m) m = wi.
Proof.
  intros Hm. unfold reflect at 1. rewrite (dot_reflect wi m Hm).
  destruct wi as [x y z]. unfold reflect, vsub, vscale. simpl.
  apply vector_eq; ring.
Qed.

(** Mirror reflection at a unit normal keeps every scalar product, hence
    lengths and angles, and the reflected direction makes the same cosine
    with the normal as the direction itself. *)
Theorem reflect_isometry (a b : Vector) (m : Normal) :
  dot m m = 1 ->
  dot (reflect a m) (reflect b m) = dot a b
  /\ dot (reflect a m) (reflect a m) = dot a a
  /\ dot (reflect a m) m = dot a m.
Proof.
  intros Hm.
  assert (H : forall u v, dot (reflect u m) (reflect v m) = dot u v).
  { intros u v. unfold reflect.
    rewrite dot_vsub_l, !dot_vsub_r, !dot_vscale, !dot_vscale_r, Hm.
    rewrite (dot_comm m v). ring. }
  split; [apply H | split; [apply H | apply dot_reflect; exact Hm]].
Qed.

(** When a unit direction is refracted at a unit normal into a medium
    whose index is not zero, the refracted direction is a unit direction
    too. *)
Theorem refract_unit (wi wo : Vector) (m : Normal) (etaI etaT : R) :
  dot wi wi = 1 -> dot m m = 1 -> etaT <> 0 ->
  refract wi m etaI etaT = Some wo ->
  dot wo wo = 1.
Proof.
  intros Hwi Hm _. unfold refract. cbv zeta.
  set (eta := etaI / etaT). set (c := dot wi m).
  set (k := 1 + eta * eta * (c * c - 1)).
  destruct (Rltb k 0) eqn:Hk; [discriminate |].
  intros H. inversion H as [Hwo]. clear H Hwo.
  assert (Hk0 : 0 <= k).
  { unfold Rltb in Hk. destruct (Rlt_dec k 0); [discriminate | lra]. }
  pose proof (sqrt_sqrt k Hk0) as Hr.
  pose proof (signum_square (vz wi)) as Hs.
  rewrite dot_vsub_l, !dot_vsub_r, !dot_vscale, !dot_vscale_r, Hm, Hwi.
  rewrite (dot_comm m wi). fold c.
  set (r := sqrt k) in *. set (s := signum (vz wi)) in *.
  transitivity ((s * s) * (r * r) - eta * eta * (c * c) + eta * eta); [ring |].
  rewrite Hs, Hr. unfold k. ring.
Qed.

Lemma Rltb_false_inv (a b : R) : Rltb a b = false -> b <= a.
Proof. unfold Rltb. destruct (Rlt_dec a b); [discriminate | lra]. Qed.

Lemma refract_some (wi wo : Vector) (m : Normal) (etaI etaT : R) :
  refract wi m etaI etaT = Some wo ->
  let eta := etaI / etaT in
  let c := dot wi m in
  let k := 1 + eta * eta * (c * c - 1) in
  0 <= k
  /\ wo = vsub (vscale (eta * c - signum (vz wi) * sqrt k) m) (vscale eta wi).
Proof.
  unfold refract. cbv zeta.
  destruct (Rltb _ 0) eqn:Hk; [discriminate |].
  intros H. inversion H. split; [| reflexivity].
  apply Rltb_false_inv in Hk. exact Hk.
Qed.

(** Snell's law.  When [refract] returns a direction, the sines of the
    two directions against the unit normal are in the ratio of the two
    indices, the refracted direction lies against the normal on the side
    that the sign of the incoming [z] picks, and [etaI * wi + etaT * wo]
    is along the normal. *)
Theorem refract_snell (wi wo : Vector) (m : Normal) (etaI etaT : R) :
  dot m m = 1 -> etaT <> 0 ->
  refract wi m etaI etaT = Some wo ->
  etaT * etaT * (1 - dot wo m * dot wo m)
  = etaI * etaI * (1 - dot wi m * dot wi m)
  /\ dot wo m * signum (vz wi) <= 0
  /\ exists a : R, vadd (vscale etaI wi) (vscale etaT wo) = vscale a m.
Proof.
  intros Hm He Hr.
  destruct (refract_some wi wo m etaI etaT Hr) as [Hk Hwo]. cbv zeta in Hk, Hwo.
  set (eta := etaI / etaT) in *. set (c := dot wi m) in *.
  set (k := 1 + eta * eta * (c * c - 1)) in *.
  assert (Hd : dot wo m = - signum (vz wi) * sqrt k).
  { rewrite Hwo, (refract_dot _ _ _ _ Hm). fold c. ring. }
  pose proof (sqrt_sqrt k Hk) as Hrr.
  pose proof (sqrt_pos k) as Hr0.
  pose proof (signum_square (vz wi)) as Hs.
  split; [| split].
  - rewrite Hd.
    transitivity (etaT * etaT * (1 - (signum (vz wi) * signum (vz wi)) * (sqrt k * sqrt k)));
      [ring |].
    rewrite Hs, Hrr. unfold k, eta. field. exact He.
  - rewrite Hd.
    replace (- signum (vz wi) * sqrt k * signum (vz wi))
      with (- ((signum (vz wi) * signum (vz wi)) * sqrt k)) by ring.
    rewrite Hs. lra.
  - exists (etaT * (eta * c - signum (vz wi) * sqrt k)).
    rewrite Hwo. unfold eta. apply refract_sum. exact He.
Qed.

(** The critical angle.  For [etaT] other than zero, [refract] reports
    total internal reflection exactly when [etaT^2] is below
    [etaI^2 * (1 - (wi.m)^2)]; a unit direction that enters a medium of
    index not smaller in magnitude is always refracted. *)
Theorem refract_critical (wi : Vector) (m : Normal) (etaI etaT : R) :
  etaT <> 0 ->
  (refract wi m etaI etaT = None
   <-> etaT * etaT < etaI * etaI * (1 - dot wi m * dot wi m))
  /\ (dot wi wi = 1 -> dot m m = 1 -> etaI * etaI <= etaT * etaT ->
      refract wi m etaI etaT <> None).
Proof.
  intros He.
  assert (Hsq : 0 < etaT * etaT) by nra.
  set (c := dot wi m).
  assert (Hk : 1 + etaI / etaT * (etaI / etaT) * (c * c - 1)
               = (etaT * etaT - etaI * etaI * (1 - c * c)) / (etaT * etaT))
    by (field; exact He).
  assert (Hiff : refract wi m etaI etaT = None
                 <-> etaT * etaT < etaI * etaI * (1 - c * c)).
  { unfold refract. cbv zeta. fold c. rewrite Hk.
    destruct (Rltb _ 0) eqn:Hb.
    - apply Rltb_iff in Hb. split; [intros _ | reflexivity].
      destruct (Rlt_dec (etaT * etaT) (etaI * etaI * (1 - c * c))) as [H | H];
        [exact H |].
      assert (0 <= (etaT * etaT - etaI * etaI * (1 - c * c)) / (etaT * etaT)).
      { apply Rmult_le_pos; [lra |]. left. apply Rinv_0_lt_compat. exact Hsq. }
      lra.
    - apply Rltb_false_inv in Hb. split; [discriminate |].
      intros H. exfalso.
      assert ((etaT * etaT - etaI * etaI * (1 - c * c)) / (etaT * etaT) < 0).
      { pose proof (Rinv_0_lt_compat _ Hsq) as Hinv. unfold Rdiv.
        set (q := / (etaT * etaT)) in *. clearbody q. nra. }
      lra. }
  split; [exact Hiff |].
  intros Hwi Hm Hle Hnone. apply Hiff in Hnone.
  pose proof (dot_unit_bound wi m Hwi Hm) as Hc. fold c in Hc.
  assert (0 <= etaI * etaI) by nra.
  nra.
Qed.

(** A refraction can be undone.  When the direction lies on the side of
    the micro-normal that its hemisphere names and the refracted direction
    lies in the other hemisphere, refracting the refracted direction at
    the same unit normal with the two indices exchanged gives the
    direction back. *)
Theorem refract_reversible (wi wo : Vector) (m : Normal) (etaI etaT : R) :
  dot m m = 1 -> etaI <> 0 -> etaT <> 0 ->
  0 < dot wi m * cosTheta wi ->
  cosTheta wi * cosTheta wo < 0 ->
  refract wi m etaI etaT = Some wo ->
  refract wo m etaT etaI = Some wi.
Proof.
  intros Hm HeI HeT Hc Hside Hr.
  destruct (refract_some wi wo m etaI etaT Hr) as [Hk Hwo]. cbv zeta in Hk, Hwo.
  set (eta := etaI / etaT) in *. set (c := dot wi m) in *.
  set (k := 1 + eta * eta * (c * c - 1)) in *.
  pose proof (sqrt_sqrt k Hk) as Hrr.
  pose proof (signum_square (vz wi)) as Hs.
  assert (Hd : dot wo m = - signum (vz wi) * sqrt k).
  { rewrite Hwo, (refract_dot _ _ _ _ Hm). fold c. ring. }
  assert (Heta : etaT / etaI * eta = 1) by (unfold eta; field; split; assumption).
  assert (Hk' : 1 + etaT / etaI * (etaT / etaI) * (dot wo m * dot wo m - 1) = c * c).
  { rewrite Hd.
    transitivity (1 + etaT / etaI * (etaT / etaI)
                      * ((signum (vz wi) * signum (vz wi)) * (sqrt k * sqrt k) - 1));
      [ring |].
    rewrite Hs, Hrr. unfold k.
    transitivity (1 + (etaT / etaI * eta) * (etaT / etaI * eta) * (c * c - 1)); [ring |].
    rewrite Heta. ring. }
  unfold refract. cbv zeta. rewrite Hk'.
  rewrite (Rltb_false (c * c) 0) by nra.
  f_equal.
  replace (c * c) with (Rsqr c) by reflexivity. rewrite sqrt_Rsqr_abs.
  assert (Hsc : signum (vz wo) * Rabs c = - c).
  { unfold cosTheta in *. unfold signum.
    destruct (Rlt_dec (vz wi) 0) as [Hneg | Hpos].
    - assert (c < 0) by (apply (product_pos_neg c (vz wi)); assumption).
      assert (0 < vz wo) by nra.
      rewrite (Rltb_false (vz wo) 0), Rabs_left by lra. ring.
    - destruct (product_pos_pos c (vz wi) Hc Hpos) as [Hcp Hwz].
      assert (vz wo < 0) by nra.
      rewrite (Rltb_true (vz wo) 0), Rabs_pos_eq by lra. ring. }
  rewrite Hsc, Hd.
  rewrite Hwo.
  destruct wi as [x y z], m as [mx my mz]. unfold vsub, vscale. simpl.
  fold eta. set (t := eta * c - signum z * sqrt k).
  apply vector_eq.
  - transitivity ((- (etaT / etaI * signum z * sqrt k) + c - (etaT / etaI * eta) * c
                   + etaT / etaI * signum z * sqrt k) * mx + (etaT / etaI * eta) * x).
    + unfold t. simpl vz. ring.
    + rewrite Heta. ring.
  - transitivity ((- (etaT / etaI * signum z * sqrt k) + c - (etaT / etaI * eta) * c
                   + etaT / etaI * signum z * sqrt k) * my + (etaT / etaI * eta) * y).
    + unfold t. simpl vz. ring.
    + rewrite Heta. ring.
  - transitivity ((- (etaT / etaI * signum z * sqrt k) + c - (etaT / etaI * eta) * c
                   + etaT / etaI * signum z * sqrt k) * mz + (etaT / etaI * eta) * z).
    + unfold t. simpl vz. ring.
    + rewrite Heta. ring.
Qed.

(** ** Queries in both directions *)

Lemma dot_normalize (a v : Vector) : dot a (normalize v) = dot a v / length v.
Proof. unfold dot, normalize. simpl. unfold Rdiv. ring. Qed.

Lemma dot_vadd_r (a v w : Vector) : dot a (vadd v w) = dot a v + dot a w.
Proof. unfold dot, vadd. simpl. ring. Qed.

Lemma smul_zero (n : nat) (x : R) : smul (Spectrum_const n 0) x = Spectrum_const n 0.
Proof.
  unfold smul, Spectrum_const. induction n as [| n IH]; simpl; [reflexivity |].
  rewrite IH. f_equal. ring.
Qed.

Lemma signum_same_side (a b : R) : 0 < a * b -> signum a = signum b.
Proof.
  intros H. unfold signum.
  destruct (Rlt_dec b 0) as [Hb | Hb].
  - pose proof (product_pos_neg a b H Hb).
    rewrite !Rltb_true by lra. reflexivity.
  - destruct (product_pos_pos a b H Hb).
    rewrite !Rltb_false by lra. reflexivity.
Qed.

Lemma Rabs_over (P w s : R) :
  w <> 0 -> Rabs (P / (w * s * s)) * Rabs w = Rabs (P / (s * s)).
Proof.
  intros Hw. rewrite <- Rabs_mult. f_equal. unfold Rdiv.
  rewrite !Rinv_mult.
  transitivity (P * (/ s * / s) * (w * / w)); [ring |].
  rewrite Rinv_r by exact Hw. ring.
Qed.

Lemma Rabs_squares (X e a b q : R) :
  Rabs (X * e * e * a * b / q) = Rabs (X * a * b / q) * (e * e).
Proof.
  replace (X * e * e * a * b / q) with (X * a * b / q * (e * e))
    by (unfold Rdiv; ring).
  apply Rabs_mult_square.
Qed.

Section Reciprocity.

Context {Intersection : Type}.
Variable fresnel : R -> R -> R -> R.
Variables EGlossyReflection EGlossyTransmission : Z.
Variable SPECTRUM_SAMPLES : nat.
Variable this : RoughDielectric (Intersection := Intersection).

Local Abbreviation BSDFQueryRecord := (BSDFQueryRecord (Intersection := Intersection)).
Local Abbreviation hasReflection := (hasReflection EGlossyReflection).
Local Abbreviation hasTransmission := (hasTransmission EGlossyTransmission).
Local Abbreviation Spectrum_const := (Spectrum_const SPECTRUM_SAMPLES).
Local Abbreviation roughnessU := (roughnessU SPECTRUM_SAMPLES this).
Local Abbreviation roughnessV := (roughnessV SPECTRUM_SAMPLES this).
Local Abbreviation D_ := (m_distribution this).
Local Abbreviation eval :=
  (eval fresnel EGlossyReflection EGlossyTransmission SPECTRUM_SAMPLES this).
Local Abbreviation pdf :=
  (pdf fresnel EGlossyReflection EGlossyTransmission SPECTRUM_SAMPLES this).

(** Reciprocity of the reflective component.  For two directions of equal
    length on one side of the surface and a shadowing term that is
    symmetric in them, the value for [wi], [wo] times [|cos(wi)|] is the
    value for the exchanged pair times [|cos(wo)|]. *)
Theorem eval_reciprocity_reflection (bRec : BSDFQueryRecord) :
  let H := halfReflect bRec in
  0 < cosTheta (wi bRec) * cosTheta (wo bRec) ->
  dot (wi bRec) (wi bRec) = dot (wo bRec) (wo bRec) ->
  MicrofacetDistribution.G D_ (wi bRec) (wo bRec) H (roughnessU bRec) (roughnessV bRec)
  = MicrofacetDistribution.G D_ (wo bRec) (wi bRec) H (roughnessU bRec) (roughnessV bRec) ->
  smul (eval bRec ESolidAngle) (Rabs (cosTheta (wi bRec)))
  = smul (eval (reverse bRec) ESolidAngle) (Rabs (cosTheta (wo bRec))).
Proof.
  intros H Hside Hlen HG.
  assert (Hside' : 0 < cosTheta (wo bRec) * cosTheta (wi bRec)) by lra.
  assert (HH : halfReflect (reverse bRec) = H).
  { unfold H, halfReflect, reverse. cbn [wi wo].
    rewrite (vadd_comm (wi bRec) (wo bRec)).
    unfold cosTheta in *. rewrite (signum_same_side _ _ Hside). reflexivity. }
  assert (Hdot : dot (wi bRec) H = dot (wo bRec) H).
  { unfold H, halfReflect. rewrite !dot_vscale_r, !dot_normalize, !dot_vadd_r.
    rewrite (dot_comm (wo bRec) (wi bRec)), Hlen. f_equal. f_equal. apply Rplus_comm. }
  rewrite !eval_solid_angle. cbv zeta.
  change (wi (reverse bRec)) with (wo bRec). change (wo (reverse bRec)) with (wi bRec).
  change (its (reverse bRec)) with (its bRec).
  change (hasReflection (reverse bRec)) with (hasReflection bRec).
  change (roughnessU (reverse bRec)) with (roughnessU bRec).
  change (roughnessV (reverse bRec)) with (roughnessV bRec).
  rewrite (Rltb_true _ _ Hside), (Rltb_true _ _ Hside'), HH. fold H.
  destruct (hasReflection bRec); [| rewrite !smul_zero; reflexivity].
  destruct (Reqb _ 0); [rewrite !smul_zero; reflexivity |].
  rewrite !smul_smul, <- HG, <- Hdot. f_equal.
  unfold cosTheta in *.
  assert (vz (wi bRec) <> 0) by (intros E; rewrite E in Hside; lra).
  assert (vz (wo bRec) <> 0) by (intros E; rewrite E in Hside; lra).
  field. split; apply Rabs_no_R0; assumption.
Qed.

(** The exchange relation of the transmissive component.  For two
    directions on opposite sides, indices other than zero, and a shadowing
    and a Fresnel term that are the same for both directions, the value
    for [wi], [wo] and the value for the exchanged pair differ by the
    cosines and by the squares of the two indices: for radiance
    [eval * |cos(wi)| * etaT^2 = eval' * |cos(wo)| * etaI^2], for
    importance with the two indices exchanged. *)
Theorem eval_adjoint_transmission (bRec : BSDFQueryRecord) :
  let H := halfTransmit this bRec in
  let etaI := fst (etaPair this bRec) in
  let etaT := snd (etaPair this bRec) in
  cosTheta (wi bRec) * cosTheta (wo bRec) < 0 ->
  m_intIOR this <> 0 -> m_extIOR this <> 0 ->
  MicrofacetDistribution.G D_ (wi bRec) (wo bRec) H (roughnessU bRec) (roughnessV bRec)
  = MicrofacetDistribution.G D_ (wo bRec) (wi bRec) H (roughnessU bRec) (roughnessV bRec) ->
  fresnel (dot (wi bRec) H) (m_extIOR this) (m_intIOR this)
  = fresnel (dot (wo bRec) H) (m_extIOR this) (m_intIOR this) ->
  smul (eval bRec ESolidAngle)
       (Rabs (cosTheta (wi bRec))
        * match quantity bRec with
          | ERadiance => etaT * etaT
          | EImportance => etaI * etaI
          end)
  = smul (eval (reverse bRec) ESolidAngle)
         (Rabs (cosTheta (wo bRec))
          * match quantity bRec with
            | ERadiance => etaI * etaI
            | EImportance => etaT * etaT
            end).
Proof.
  intros H etaI etaT Hside Hint Hext HG HF.
  unfold cosTheta in *.
  assert (Hwi : vz (wi bRec) <> 0) by (intros E; rewrite E in Hside; lra).
  assert (Hwo : vz (wo bRec) <> 0) by (intros E; rewrite E in Hside; lra).
  assert (Heta : etaPair this (reverse bRec) = (etaT, etaI)).
  { unfold etaI, etaT, etaPair, reverse, cosTheta. cbn [wi wo].
    destruct (Rlt_dec (vz (wi bRec)) 0) as [Hn | Hp].
    - rewrite (Rltb_true _ _ Hn). rewrite Rltb_false by nra. reflexivity.
    - rewrite (Rltb_false (vz (wi bRec)) 0) by lra.
      rewrite Rltb_true by nra. reflexivity. }
  assert (Heta0 : etaPair this bRec = (etaI, etaT)).
  { unfold etaI, etaT. destruct (etaPair this bRec). reflexivity. }
  assert (HeI : etaI <> 0) by (unfold etaI, etaPair; destruct (Rltb _ 0); assumption).
  assert (HeT : etaT <> 0) by (unfold etaT, etaPair; destruct (Rltb _ 0); assumption).
  assert (HH : halfTransmit this (reverse bRec) = H).
  { unfold H, halfTransmit. rewrite Heta, Heta0. unfold reverse. cbn [wi wo].
    rewrite (vadd_comm (vscale etaT (wo bRec))). reflexivity. }
  rewrite !eval_solid_angle. cbv zeta.
  rewrite Heta, Heta0. cbn [fst snd].
  change (wi (reverse bRec)) with (wo bRec). change (wo (reverse bRec)) with (wi bRec).
  change (its (reverse bRec)) with (its bRec).
  change (quantity (reverse bRec)) with (quantity bRec).
  change (hasTransmission (reverse bRec)) with (hasTransmission bRec).
  change (roughnessU (reverse bRec)) with (roughnessU bRec).
  change (roughnessV (reverse bRec)) with (roughnessV bRec).
  unfold cosTheta.
  rewrite (Rltb_false 0 (vz (wi bRec) * vz (wo bRec))) by lra.
  rewrite (Rltb_false 0 (vz (wo bRec) * vz (wi bRec))) by lra.
  rewrite HH. fold H.
  destruct (hasTransmission bRec); [| rewrite !smul_zero; reflexivity].
  destruct (Reqb _ 0); [rewrite !smul_zero; reflexivity |].
  rewrite !smul_smul, <- HG, <- HF. f_equal.
  set (F := fresnel (dot (wi bRec) H) (m_extIOR this) (m_intIOR this)).
  set (D := MicrofacetDistribution.eval D_ H (roughnessU bRec) (roughnessV bRec)).
  set (G := MicrofacetDistribution.G D_ (wi bRec) (wo bRec) H
              (roughnessU bRec) (roughnessV bRec)).
  set (a := dot (wi bRec) H). set (b := dot (wo bRec) H).
  replace (etaT * b + etaI * a) with (etaI * a + etaT * b) by ring.
  set (s := etaI * a + etaT * b).
  assert (Hl : Rabs ((1 - F) * D * G * etaT * etaT * a * b / (vz (wi bRec) * s * s))
               * Rabs (vz (wi bRec))
               = Rabs ((1 - F) * D * G * a * b / (s * s)) * (etaT * etaT)).
  { rewrite (Rabs_over _ _ _ Hwi). apply Rabs_squares. }
  assert (Hr : Rabs ((1 - F) * D * G * etaI * etaI * b * a / (vz (wo bRec) * s * s))
               * Rabs (vz (wo bRec))
               = Rabs ((1 - F) * D * G * a * b / (s * s)) * (etaI * etaI)).
  { rewrite (Rabs_over _ _ _ Hwo), Rabs_squares. f_equal. f_equal.
    unfold Rdiv. ring. }
  destruct (quantity bRec); cbn [isRadiance].
  - rewrite !Rabs_mult.
    rewrite (Rabs_pos_eq (etaI * etaI / (etaT * etaT)))
      by (rewrite Rdiv_squares; nra).
    rewrite (Rabs_pos_eq (etaT * etaT / (etaI * etaI)))
      by (rewrite Rdiv_squares; nra).
    transitivity (Rabs ((1 - F) * D * G * etaT * etaT * a * b / (vz (wi bRec) * s * s))
                  * Rabs (vz (wi bRec)) * (etaI * etaI / (etaT * etaT)) * (etaT * etaT));
      [ring |].
    rewrite Hl.
    transitivity (Rabs ((1 - F) * D * G * etaI * etaI * b * a / (vz (wo bRec) * s * s))
                  * Rabs (vz (wo bRec)) * (etaT * etaT / (etaI * etaI)) * (etaI * etaI));
      [| ring].
    rewrite Hr. field. split; assumption.
  - transitivity (Rabs ((1 - F) * D * G * etaT * etaT * a * b / (vz (wi bRec) * s * s))
                  * Rabs (vz (wi bRec)) * (etaI * etaI)); [ring |].
    rewrite Hl.
    transitivity (Rabs ((1 - F) * D * G * etaI * etaI * b * a / (vz (wo bRec) * s * s))
                  * Rabs (vz (wo bRec)) * (etaT * etaT)); [| ring].
    rewrite Hr. ring.
Qed.

End Reciprocity.

(** ** What the sampling methods return *)

Lemma isZero_const (n : nat) : isZero (Spectrum_const n 0) = true.
Proof.
  unfold isZero, Spectrum_const. induction n as [| n IH]; simpl; [reflexivity |].
  rewrite IH, (Reqb_true 0 0) by reflexivity. reflexivity.
Qed.

Section Samples.

Context {Intersection : Type}.
Variable fresnel : R -> R -> R -> R.
Variables EGlossyReflection EGlossyTransmission : Z.
Variable SPECTRUM_SAMPLES : nat.
Variable this : RoughDielectric (Intersection := Intersection).

Local Abbreviation BSDFQueryRecord := (BSDFQueryRecord (Intersection := Intersection)).
Local Abbreviation hasReflection := (hasReflection EGlossyReflection).
Local Abbreviation hasTransmission := (hasTransmission EGlossyTransmission).
Local Abbreviation Spectrum_const := (Spectrum_const SPECTRUM_SAMPLES).
Local Abbreviation eval :=
  (eval fresnel EGlossyReflection EGlossyTransmission SPECTRUM_SAMPLES this).
Local Abbreviation pdf :=
  (pdf fresnel EGlossyReflection EGlossyTransmission SPECTRUM_SAMPLES this).
Local Abbreviation sample :=
  (sample fresnel EGlossyReflection EGlossyTransmission SPECTRUM_SAMPLES this).
Local Abbreviation sample_pdf :=
  (sample_pdf fresnel EGlossyReflection EGlossyTransmission SPECTRUM_SAMPLES this).
Local Abbreviation sampleNormal := (sampleNormal SPECTRUM_SAMPLES this).
Local Abbreviation choose := (choose fresnel EGlossyReflection EGlossyTransmission this).
Local Abbreviation scatter := (scatter EGlossyReflection EGlossyTransmission this).

Lemma scatter_component (bRec b : BSDFQueryRecord) (sampler : Sampler) (m : Normal) :
  hasReflection bRec = true \/ hasTransmission bRec = true ->
  scatter bRec m (fst (choose bRec sampler m)) = inr b ->
  ((sampledComponent b = 0%Z /\ sampledType b = EGlossyReflection
    /\ hasReflection bRec = true
    /\ 0 < cosTheta (wi b) * cosTheta (wo b))
   \/ (sampledComponent b = 1%Z /\ sampledType b = EGlossyTransmission
       /\ hasTransmission bRec = true
       /\ cosTheta (wi b) * cosTheta (wo b) < 0)).
Proof.
  intros Hen Hs.
  pose proof (choose_enabled fresnel EGlossyReflection EGlossyTransmission this
                bRec sampler m Hen) as Hch.
  pose proof (scatter_classified EGlossyReflection EGlossyTransmission this
                bRec m _ b Hs) as Hcl.
  destruct (fst (choose bRec sampler m)).
  - left. apply Rltb_iff in Hcl.
    rewrite scatter_reflection in Hs. cbv zeta in Hs.
    destruct (Rleb _ 0); inversion Hs; subst. repeat split; try assumption.
  - right. apply Rltb_false_inv in Hcl.
    rewrite scatter_transmission in Hs.
    destruct (refract _ _ _ _) as [v |]; [| discriminate].
    cbv zeta in Hs. destruct (Rleb 0 _) eqn:Hside; inversion Hs; subst.
    apply Rleb_false_inv in Hside. repeat split; try assumption.
Qed.

(** A weight that is not zero was computed from a record that passed its
    side check. *)
Lemma sample_accepted (bRec : BSDFQueryRecord) (sampler : Sampler) (u : Point2) :
  let m := sampleNormal ENLARGE_LOBE_TRICK bRec u in
  isZero (fst (fst (sample bRec sampler u))) = false ->
  (hasReflection bRec = true \/ hasTransmission bRec = true)
  /\ scatter bRec m (fst (choose bRec sampler m)) = inr (snd (fst (sample bRec sampler u))).
Proof.
  cbv zeta. unfold Plugin.sample. rewrite sample_with_eq. cbv zeta.
  destruct (negb (hasReflection bRec) && negb (hasTransmission bRec)) eqn:Hnone.
  - cbn [fst snd]. rewrite isZero_const. discriminate.
  - assert (Hen : hasReflection bRec = true \/ hasTransmission bRec = true).
    { destruct (hasReflection bRec); [left; reflexivity |].
      destruct (hasTransmission bRec); [right; reflexivity | discriminate]. }
    destruct (scatter bRec _ _) as [b | b] eqn:Hs; cbn [fst snd].
    + rewrite isZero_const. discriminate.
    + intros _. split; [exact Hen | reflexivity].
Qed.

(** Whenever [sample] returns a weight that is not zero, the record names
    the component that was sampled and its type, that component is among
    the requested ones, and the sampled direction lies on the side of the
    surface that belongs to it: the side of [wi] for a reflection
    (component 0), the other side for a transmission (component 1). *)
Theorem sample_nonzero_component (bRec : BSDFQueryRecord) (sampler : Sampler) (u : Point2) :
  let b := snd (fst (sample bRec sampler u)) in
  isZero (fst (fst (sample bRec sampler u))) = false ->
  ((sampledComponent b = 0%Z /\ sampledType b = EGlossyReflection
    /\ hasReflection bRec = true
    /\ 0 < cosTheta (wi b) * cosTheta (wo b))
   \/ (sampledComponent b = 1%Z /\ sampledType b = EGlossyTransmission
       /\ hasTransmission bRec = true
       /\ cosTheta (wi b) * cosTheta (wo b) < 0)).
Proof.
  cbv zeta. unfold Plugin.sample. rewrite sample_with_eq. cbv zeta.
  destruct (negb (hasReflection bRec) && negb (hasTransmission bRec)) eqn:Hnone.
  - cbn [fst snd]. rewrite isZero_const. discriminate.
  - assert (Hen : hasReflection bRec = true \/ hasTransmission bRec = true).
    { destruct (hasReflection bRec); [left; reflexivity |].
      destruct (hasTransmission bRec); [right; reflexivity | discriminate]. }
    destruct (scatter bRec _ _) as [b | b] eqn:Hs; cbn [fst snd].
    + rewrite isZero_const. discriminate.
    + intros _. exact (scatter_component bRec b sampler _ Hen Hs).
Qed.

(** Whenever the overload of [sample] with a density returns a value that
    is not zero, the record is classified as for the other overload, the
    density written is [pdf] of the record left behind and is positive,
    and the value is [eval] of that record. *)
Theorem sample_pdf_nonzero (bRec : BSDFQueryRecord) (sampler : Sampler)
    (_pdf : R) (u : Point2) :
  let out := sample_pdf bRec sampler _pdf u in
  let b := snd (fst out) in
  let density := snd (fst (fst out)) in
  isZero (fst (fst (fst out))) = false ->
  ((sampledComponent b = 0%Z /\ sampledType b = EGlossyReflection
    /\ hasReflection bRec = true
    /\ 0 < cosTheta (wi b) * cosTheta (wo b))
   \/ (sampledComponent b = 1%Z /\ sampledType b = EGlossyTransmission
       /\ hasTransmission bRec = true
       /\ cosTheta (wi b) * cosTheta (wo b) < 0))
  /\ density = pdf b ESolidAngle
  /\ 0 < density
  /\ fst (fst (fst out)) = eval b ESolidAngle.
Proof.
  cbv zeta. unfold Plugin.sample_pdf. rewrite sample_pdf_with_eq. cbv zeta.
  destruct (negb (hasReflection bRec) && negb (hasTransmission bRec)) eqn:Hnone.
  - cbn [fst snd]. rewrite isZero_const. discriminate.
  - assert (Hen : hasReflection bRec = true \/ hasTransmission bRec = true).
    { destruct (hasReflection bRec); [left; reflexivity |].
      destruct (hasTransmission bRec); [right; reflexivity | discriminate]. }
    destruct (scatter bRec _ _) as [b | b] eqn:Hs; cbn [fst snd].
    + rewrite isZero_const. discriminate.
    + destruct (Reqb _ 0) eqn:Hz; [rewrite isZero_const; discriminate |].
      intros _. split; [exact (scatter_component bRec b sampler _ Hen Hs) |].
      split; [reflexivity |]. split; [| reflexivity].
      assert (Hne : Plugin.pdf_with fresnel EGlossyReflection EGlossyTransmission
                      SPECTRUM_SAMPLES this ENLARGE_LOBE_TRICK b ESolidAngle <> 0).
      { intros E. rewrite (Reqb_true _ _ E) in Hz. discriminate. }
      assert (Hge : 0 <= Plugin.pdf_with fresnel EGlossyReflection EGlossyTransmission
                      SPECTRUM_SAMPLES this ENLARGE_LOBE_TRICK b ESolidAngle).
      { rewrite pdf_with_solid_angle. cbv zeta.
        destruct (if Rltb 0 _ then _ else _); [apply Rabs_pos | lra]. }
      lra.
Qed.

(** The density is never negative, it is zero for every measure other
    than the solid angle, and where the component that the two directions
    select (reflection on one side, transmission on opposite sides) is not
    requested, density and value are both zero. *)
Theorem pdf_support (bRec : BSDFQueryRecord) (measure : EMeasure) :
  let reflect := Rltb 0 (cosTheta (wi bRec) * cosTheta (wo bRec)) in
  0 <= pdf bRec measure
  /\ (measure <> ESolidAngle -> pdf bRec measure = 0)
  /\ ((if reflect then hasReflection bRec else hasTransmission bRec) = false ->
      pdf bRec measure = 0 /\ eval bRec measure = Spectrum_const 0).
Proof.
  intros reflect.
  assert (Hother : measure <> ESolidAngle ->
                   pdf bRec measure = 0 /\ eval bRec measure = Spectrum_const 0).
  { intros Hm. unfold Plugin.pdf, Plugin.pdf_with, Plugin.eval.
    destruct (EMeasure_eqb measure ESolidAngle) eqn:E.
    - apply EMeasure_eqb_eq in E. contradiction.
    - split; reflexivity. }
  destruct measure.
  - unfold Plugin.pdf. rewrite pdf_with_solid_angle, eval_solid_angle. cbv zeta.
    fold reflect.
    destruct (if reflect then hasReflection bRec else hasTransmission bRec).
    + split; [apply Rabs_pos | split; [congruence | discriminate]].
    + split; [lra | split; [congruence | intros _; split; reflexivity]].
  - destruct Hother as [Hp He]; [discriminate |].
    rewrite Hp, He. split; [lra | split; [reflexivity | intros _; split; reflexivity]].
  - destruct Hother as [Hp He]; [discriminate |].
    rewrite Hp, He. split; [lra | split; [reflexivity | intros _; split; reflexivity]].
Qed.

(** The two overloads of [sample] leave the same record and the same
    sampler behind, and neither changes the intersection, the incoming
    direction, the transported quantity, the type mask or the requested
    component of the record. *)
Theorem sample_overloads_agree (bRec : BSDFQueryRecord) (sampler : Sampler)
    (_pdf : R) (u : Point2) :
  let after := snd (fst (sample bRec sampler u)) in
  snd (fst (sample_pdf bRec sampler _pdf u)) = after
  /\ snd (sample_pdf bRec sampler _pdf u) = snd (sample bRec sampler u)
  /\ wi after = wi bRec /\ its after = its bRec /\ quantity after = quantity bRec
  /\ typeMask after = typeMask bRec /\ component after = component bRec.
Proof.
  cbv zeta. unfold Plugin.sample, Plugin.sample_pdf.
  rewrite sample_with_eq, sample_pdf_with_eq. cbv zeta.
  destruct (negb (hasReflection bRec) && negb (hasTransmission bRec)).
  - cbn [fst snd]. repeat split; reflexivity.
  - destruct (scatter bRec _ _) as [b | b] eqn:Hs; cbn [fst snd].
    + pose proof (scatter_frame EGlossyReflection EGlossyTransmission this
                    bRec _ _ b (or_introl Hs)) as Hf.
      split; [reflexivity | split; [reflexivity | exact Hf]].
    + pose proof (scatter_frame EGlossyReflection EGlossyTransmission this
                    bRec _ _ b (or_intror Hs)) as Hf.
      split; [reflexivity | split; [reflexivity | exact Hf]].
Qed.

(** For a material whose two indices of refraction are not zero and an
    incoming direction in the plane of the surface, both overloads of
    [sample] return the zero spectrum, whatever is requested and whatever
    is drawn. *)
Theorem sample_in_plane (bRec : BSDFQueryRecord) (sampler : Sampler)
    (_pdf : R) (u : Point2) :
  m_intIOR this <> 0 -> m_extIOR this <> 0 ->
  cosTheta (wi bRec) = 0 ->
  fst (fst (sample bRec sampler u)) = Spectrum_const 0
  /\ fst (fst (fst (sample_pdf bRec sampler _pdf u))) = Spectrum_const 0.
Proof.
  intros _ _ Hz. unfold Plugin.sample, Plugin.sample_pdf.
  rewrite sample_with_eq, sample_pdf_with_eq. cbv zeta.
  destruct (negb (hasReflection bRec) && negb (hasTransmission bRec));
    [split; reflexivity |].
  destruct (fst (choose bRec sampler _)).
  - rewrite scatter_reflection. cbv zeta.
    rewrite Rleb_true by (rewrite Hz; lra). split; reflexivity.
  - rewrite scatter_transmission.
    destruct (refract _ _ _ _) as [v |]; [| split; reflexivity].
    cbv zeta. rewrite Rleb_true by (rewrite Hz; lra). split; reflexivity.
Qed.

(** What a record holds in its outgoing direction, its sampled component
    and its sampled type does not enter a sample: values, density and
    sampler are the same for any such contents, and so is the record left
    behind whenever the weight is not zero. *)
Theorem sample_ignores_outputs (bRec : BSDFQueryRecord) (sampler : Sampler)
    (_pdf : R) (u : Point2) (v : Vector) (c t : Z) :
  let used := set_sampled (set_wo bRec v) c t in
  fst (fst (sample used sampler u)) = fst (fst (sample bRec sampler u))
  /\ snd (sample used sampler u) = snd (sample bRec sampler u)
  /\ fst (fst (fst (sample_pdf used sampler _pdf u)))
     = fst (fst (fst (sample_pdf bRec sampler _pdf u)))
  /\ snd (fst (fst (sample_pdf used sampler _pdf u)))
     = snd (fst (fst (sample_pdf bRec sampler _pdf u)))
  /\ (isZero (fst (fst (sample bRec sampler u))) = false ->
      snd (fst (sample used sampler u)) = snd (fst (sample bRec sampler u))).
Proof.
  intros used. unfold Plugin.sample, Plugin.sample_pdf.
  rewrite !sample_with_eq, !sample_pdf_with_eq. cbv zeta.
  change (hasReflection used) with (hasReflection bRec).
  change (hasTransmission used) with (hasTransmission bRec).
  change (sampleNormal ENLARGE_LOBE_TRICK used u)
    with (sampleNormal ENLARGE_LOBE_TRICK bRec u).
  set (m := sampleNormal ENLARGE_LOBE_TRICK bRec u).
  change (choose used sampler m) with (choose bRec sampler m).
  destruct (negb (hasReflection bRec) && negb (hasTransmission bRec)).
  - cbn [fst snd]. rewrite isZero_const. repeat split; try reflexivity. discriminate.
  - destruct (fst (choose bRec sampler m)).
    + rewrite !scatter_reflection. cbv zeta.
      change (wi used) with (wi bRec).
      change (set_sampled (set_wo used (reflect (wi bRec) m)) 0 EGlossyReflection)
        with (set_sampled (set_wo bRec (reflect (wi bRec) m)) 0 EGlossyReflection).
      destruct (Rleb _ 0); cbn [fst snd]; repeat split; reflexivity.
    + rewrite !scatter_transmission.
      change (wi used) with (wi bRec).
      change (etaPair this used) with (etaPair this bRec).
      destruct (refract _ _ _ _) as [w |].
      * cbv zeta.
        change (set_sampled (set_wo used w) 1 EGlossyTransmission)
          with (set_sampled (set_wo bRec w) 1 EGlossyTransmission).
        destruct (Rleb 0 _); cbn [fst snd]; repeat split; reflexivity.
      * cbn [fst snd]. rewrite isZero_const.
        repeat split; try reflexivity. discriminate.
Qed.

End Samples.

(** ** The further properties at the scenes *)

Lemma tilted_unit : dot (mkVector (3 / 5) 0 (4 / 5)) (mkVector (3 / 5) 0 (4 / 5)) = 1.
Proof. unfold dot. simpl. lra. Qed.

Lemma up_unit : dot up up = 1.
Proof. unfold dot, up. simpl. lra. Qed.

Lemma grazing_unit : dot grazing grazing = 1.
Proof. unfold dot, grazing. simpl. lra. Qed.

Lemma refract_up : refract up up 1 (3 / 2) = Some down.
Proof.
  unfold refract. cbv zeta. scene.
  match goal with
  | |- context [sqrt ?k] => replace k with 1 by field
  end.
  compare. rewrite sqrt_1. f_equal. apply vector_eq; field.
Qed.

Lemma reflect_involutive_witness :
  reflect (reflect leaning (mkVector (3 / 5) 0 (4 / 5))) (mkVector (3 / 5) 0 (4 / 5))
  = leaning.
Proof. apply reflect_involutive. exact tilted_unit. Defined.

Lemma reflect_isometry_witness :
  dot (reflect leaning (mkVector (3 / 5) 0 (4 / 5)))
      (reflect grazing (mkVector (3 / 5) 0 (4 / 5)))
  = dot leaning grazing.
Proof.
  apply (reflect_isometry leaning grazing (mkVector (3 / 5) 0 (4 / 5)) tilted_unit).
Defined.

Lemma refract_unit_witness : dot bent bent = 1.
Proof.
  apply (refract_unit grazing bent (mkVector (3 / 5) 0 (4 / 5)) (5 / 3) 1).
  - exact grazing_unit.
  - exact tilted_unit.
  - lra.
  - exact refract_grazing.
Defined.

Lemma refract_snell_witness :
  1 * 1 * (1 - dot bent (mkVector (3 / 5) 0 (4 / 5)) * dot bent (mkVector (3 / 5) 0 (4 / 5)))
  = 5 / 3 * (5 / 3)
    * (1 - dot grazing (mkVector (3 / 5) 0 (4 / 5)) * dot grazing (mkVector (3 / 5) 0 (4 / 5))).
Proof.
  apply (refract_snell grazing bent (mkVector (3 / 5) 0 (4 / 5)) (5 / 3) 1).
  - exact tilted_unit.
  - lra.
  - exact refract_grazing.
Defined.

Lemma refract_critical_witness :
  refract inside up (3 / 2) 1 = None /\ refract oblique up 1 (3 / 2) <> None.
Proof.
  split.
  - apply (refract_critical inside up (3 / 2) 1); [lra |]. scene. lra.
  - apply (refract_critical oblique up 1 (3 / 2)); [lra | | exact up_unit | lra].
    unfold dot, oblique. simpl. lra.
Defined.

Lemma refract_reversible_witness : refract down up (3 / 2) 1 = Some up.
Proof.
  apply (refract_reversible up down up 1 (3 / 2)).
  - exact up_unit.
  - lra.
  - lra.
  - scene. lra.
  - scene. lra.
  - exact refract_up.
Defined.

Lemma glass_oblique_eval :
  eval scene_fresnel 4 8 3 glass (scene_query 4 oblique mirrored 0 4) ESolidAngle
  = [9 / 32; 9 / 32; 9 / 32].
Proof.
  unfold Plugin.eval. rewrite requested_reflection, requested_transmission.
  flags. scene. compare. scene. compare. scene.
  absolute (4 / 9) (4 / 9). apply spectrum3; field.
Qed.

Lemma eval_reciprocity_reflection_witness :
  smul (eval scene_fresnel 4 8 3 glass (scene_query 12 oblique mirrored 0 0) ESolidAngle)
       (Rabs (cosTheta oblique))
  = smul (eval scene_fresnel 4 8 3 glass (scene_query 12 mirrored oblique 0 0) ESolidAngle)
         (Rabs (cosTheta mirrored)).
Proof.
  apply (eval_reciprocity_reflection scene_fresnel 4 8 3 glass
           (scene_query 12 oblique mirrored 0 0)).
  - scene. lra.
  - scene. lra.
  - reflexivity.
Defined.

Lemma eval_adjoint_transmission_witness :
  let query := scene_query 12 up down 0 0 in
  smul (eval scene_fresnel 4 8 3 glass query ESolidAngle)
       (Rabs (cosTheta up) * (snd (etaPair glass query) * snd (etaPair glass query)))
  = smul (eval scene_fresnel 4 8 3 glass (reverse query) ESolidAngle)
         (Rabs (cosTheta down) * (fst (etaPair glass query) * fst (etaPair glass query))).
Proof.
  apply (eval_adjoint_transmission scene_fresnel 4 8 3 glass
           (scene_query 12 up down 0 0)).
  - scene. lra.
  - scene. lra.
  - scene. lra.
  - reflexivity.
  - reflexivity.
Defined.

Lemma sample_nonzero_component_witness :
  sampledType (snd (fst (sample scene_fresnel 4 8 3 glass (scene_query 4 up unset 0 0)
                           (scene_sampler (3 / 4)) (0, 0)))) = 4%Z.
Proof.
  destruct (sample_nonzero_component scene_fresnel 4 8 3 glass
              (scene_query 4 up unset 0 0) (scene_sampler (3 / 4)) (0, 0))
    as [(_ & H & _) | (_ & _ & H & _)].
  - rewrite glass_sample. cbn [fst]. unfold isZero. simpl forallb. compare. reflexivity.
  - exact H.
  - discriminate H.
Defined.

Lemma sample_pdf_nonzero_witness :
  0 < snd (fst (fst (sample_pdf scene_fresnel 4 8 3 glass (scene_query 4 oblique unset 0 0)
                       (scene_sampler (3 / 4)) 0 (0, 0)))).
Proof.
  apply (sample_pdf_nonzero scene_fresnel 4 8 3 glass (scene_query 4 oblique unset 0 0)
           (scene_sampler (3 / 4)) 0 (0, 0)).
  rewrite glass_oblique_sample_pdf. cbn [fst]. rewrite glass_oblique_eval.
  unfold isZero. simpl forallb. compare. reflexivity.
Defined.

Lemma pdf_support_witness :
  pdf scene_fresnel 4 8 3 glass (scene_query 4 up down 0 0) ESolidAngle = 0
  /\ eval scene_fresnel 4 8 3 glass (scene_query 4 up down 0 0) ESolidAngle = [0; 0; 0].
Proof.
  apply (pdf_support scene_fresnel 4 8 3 glass (scene_query 4 up down 0 0) ESolidAngle).
  scene. compare. reflexivity.
Defined.

Lemma sample_in_plane_witness :
  fst (fst (sample scene_fresnel 4 8 3 glass (scene_query 12 (mkVector 1 0 0) unset 0 0)
              (scene_sampler (3 / 4)) (0, 0))) = [0; 0; 0].
Proof.
  apply (sample_in_plane scene_fresnel 4 8 3 glass
           (scene_query 12 (mkVector 1 0 0) unset 0 0) (scene_sampler (3 / 4)) 0 (0, 0)).
  - scene. lra.
  - scene. lra.
  - reflexivity.
Defined.

Lemma sample_ignores_outputs_witness :
  snd (fst (sample scene_fresnel 4 8 3 glass (scene_query 4 up down 1 8)
              (scene_sampler (3 / 4)) (0, 0)))
  = snd (fst (sample scene_fresnel 4 8 3 glass (scene_query 4 up unset 0 0)
                (scene_sampler (3 / 4)) (0, 0))).
Proof.
  apply (sample_ignores_outputs scene_fresnel 4 8 3 glass (scene_query 4 up unset 0 0)
           (scene_sampler (3 / 4)) 0 (0, 0) down 1 8).
  rewrite glass_sample. cbn [fst]. unfold isZero. simpl forallb. compare. reflexivity.
Defined.

Lemma sample_reflection_ratio_witness :
  let out := sample scene_fresnel 4 8 3 glass (scene_query 12 up unset 0 0)
               (scene_sampler (1 / 4)) (0, 0) in
  sdiv (eval scene_fresnel 4 8 3 glass (snd (fst out)) ESolidAngle)
       (pdf scene_fresnel 4 8 3 glass (snd (fst out)) ESolidAngle)
  = fst (fst out).
Proof.
  cbv zeta.
  unshelve epose proof
    (sample_reflection_ratio scene_fresnel 4 8 3 glass (scene_query 12 up unset 0 0)
       (scene_sampler (1 / 4)) (0, 0) _ _ _ _ _ _ _ _ _) as [W1 W2].
  - exact up_unit.
  - scene. lra.
  - reflexivity.
  - rewrite choose_eq. flags. scene. compare. reflexivity.
  - scene. lra.
  - scene. lra.
  - scene. lra.
  - scene. lra.
  - scene. rewrite Rabs_R1, sqrt_1. decimals.
    match goal with |- ?x <> 0 => replace x with (1 / 10) by field end. lra.
  - cbv zeta in W1, W2. rewrite W2, W1. f_equal.
    change (hasTransmission 8 (scene_query 12 up unset 0 0)) with true. cbv iota. ring.
Defined.

Lemma sample_transmission_ratio_witness :
  let out := sample scene_fresnel 4 8 3 glass (scene_query 12 up unset 0 0)
               (scene_sampler (3 / 4)) (0, 0) in
  sdiv (eval scene_fresnel 4 8 3 glass (snd (fst out)) ESolidAngle)
       (pdf scene_fresnel 4 8 3 glass (snd (fst out)) ESolidAngle)
  = fst (fst out).
Proof.
  cbv zeta.
  assert (Hk : 1 + 1 / (3 / 2) * (1 / (3 / 2)) * ((0 * 0 + 0 * 0 + 1 * 1) * (0 * 0 + 0 * 0 + 1 * 1) - 1) = 1)
    by field.
  unshelve epose proof
    (sample_transmission_ratio scene_fresnel 4 8 3 glass (scene_query 12 up unset 0 0)
       (scene_sampler (3 / 4)) (0, 0) _ _ _ _ _ _ _ _ _ _ _ _ _) as [W1 W2].
  - exact up_unit.
  - scene. lra.
  - scene. lra.
  - scene. lra.
  - scene. lra.
  - scene. compare. rewrite Hk. lra.
  - reflexivity.
  - rewrite choose_eq. flags. scene. compare. reflexivity.
  - scene. compare. rewrite Hk, sqrt_1.
    match goal with |- ?x < 0 => replace x with (- 1) by field end. lra.
  - scene. lra.
  - scene. lra.
  - scene. lra.
  - scene. rewrite Rabs_R1, sqrt_1. decimals.
    match goal with |- ?x <> 0 => replace x with (1 / 10) by field end. lra.
  - cbv zeta in W1, W2. rewrite W2, W1. f_equal.
    change (hasReflection 4 (scene_query 12 up unset 0 0)) with true. cbv iota. ring.
Defined.

(** ** Construction, configuration and persistence *)

Import Configuration.

Lemma contains_refl (f : Z) : contains f f.
Proof. apply Z.land_diag. Qed.

Lemma contains_lor_l (a b f : Z) : contains a f -> contains (Z.lor a b) f.
Proof.
  unfold contains. intros H. apply Z.bits_inj'. intros n Hn.
  rewrite Z.land_spec, Z.lor_spec.
  assert (Hb : Z.testbit a n && Z.testbit f n = Z.testbit f n)
    by (rewrite <- Z.land_spec, H; reflexivity).
  destruct (Z.testbit a n), (Z.testbit b n), (Z.testbit f n);
    try reflexivity; discriminate.
Qed.

Lemma contains_lor_r (a b f : Z) : contains b f -> contains (Z.lor a b) f.
Proof. rewrite Z.lor_comm. apply contains_lor_l. Qed.

Create HintDb flags.

#[local] Hint Resolve contains_refl contains_lor_l contains_lor_r : flags.

Section ConfigurationProperties.

Variable fw : Framework.

Local Abbreviation configure := (configure fw).
Local Abbreviation construct := (construct fw).
Local Abbreviation addChild := (addChild fw).
Local Abbreviation serialize := (serialize fw).
Local Abbreviation unserialize := (unserialize fw).

(** [configure] reads the seven members and nothing else. *)
Lemma configure_members (o o' : Object) :
  m_distribution o = m_distribution o' ->
  m_specularTransmittance o = m_specularTransmittance o' ->
  m_specularReflectance o = m_specularReflectance o' ->
  m_alphaU o = m_alphaU o' -> m_alphaV o = m_alphaV o' ->
  m_intIOR o = m_intIOR o' -> m_extIOR o = m_extIOR o' ->
  configure o = configure o'.
Proof.
  intros H1 H2 H3 H4 H5 H6 H7. unfold Configuration.configure.
  rewrite H1, H2, H3, H4, H5, H6, H7. reflexivity.
Qed.

(** When [configure] raises. *)
Lemma configure_error (o : Object) :
  configure o = inl EError
  <-> sameObject (m_alphaU o) (m_alphaV o) = false
      /\ m_distribution o <> EAshikhminShirley fw.
Proof.
  unfold Configuration.configure.
  destruct (sameObject (m_alphaU o) (m_alphaV o)); cbn [negb].
  - split; [discriminate | intros [H _]; discriminate].
  - destruct (m_distribution o =? EAshikhminShirley fw)%Z eqn:E; cbn [negb].
    + apply Z.eqb_eq in E. split; [discriminate | intros [_ H]; contradiction].
    + apply Z.eqb_neq in E. split; [intros _; split; [reflexivity | exact E] | reflexivity].
Qed.

Lemma configure_total (o : Object) :
  configure o = inl EError \/ exists o', configure o = inr o'.
Proof.
  destruct (configure o) as [[] | o']; [left; reflexivity | right; exists o'; reflexivity].
Qed.

(** A material built from properties holds constant roughness textures
    with the values read (each defaulting to [alpha], which defaults to
    0.1), the two members are one object exactly when the two values are
    equal, and [configure] raises on it exactly when the values differ
    and the distribution is not the Ashikhmin-Shirley one. *)
Theorem construct_configure (props : Properties fw) (next next' : nat) (o : Object) :
  let alpha := getFloat fw props "alpha" 0.1 in
  let alphaU := getFloat fw props "alphaU" alpha in
  let alphaV := getFloat fw props "alphaV" alpha in
  construct props next = inr (o, next') ->
  object (m_alphaU o) = ConstantFloatTexture alphaU
  /\ object (m_alphaV o) = ConstantFloatTexture alphaV
  /\ (sameObject (m_alphaU o) (m_alphaV o) = true <-> alphaU = alphaV)
  /\ (configure o = inl EError
      <-> alphaU <> alphaV /\ m_distribution o <> EAshikhminShirley fw).
Proof.
  intros alpha alphaU alphaV. unfold Configuration.construct, new.
  destruct (checkIOR _ _) as [e | []]; [discriminate |].
  fold alpha alphaU alphaV.
  destruct (Reqb alphaU alphaV) eqn:E; intros H; inversion H; subst; clear H.
  - apply Reqb_iff in E.
    assert (Hsame : sameObject (mkRef (S (S next)) (ConstantFloatTexture alphaU))
                      (mkRef (S (S next)) (ConstantFloatTexture alphaU)) = true)
      by (unfold sameObject; apply Nat.eqb_refl).
    cbn [m_alphaU m_alphaV object m_distribution].
    split; [reflexivity | split; [rewrite E; reflexivity | split]].
    + split; [intros _; exact E | intros _; exact Hsame].
    + rewrite configure_error. cbn [m_alphaU m_alphaV m_distribution].
      rewrite Hsame. split; [intros [H _]; discriminate | intros [H _]; contradiction].
  - assert (Hne : alphaU <> alphaV).
    { intros Heq. apply Reqb_iff in Heq. congruence. }
    assert (Hdiff : sameObject (mkRef (S (S next)) (ConstantFloatTexture alphaU))
                      (mkRef (S (S (S next))) (ConstantFloatTexture alphaV)) = false).
    { unfold sameObject. cbn [address]. apply Nat.eqb_neq. lia. }
    cbn [m_alphaU m_alphaV object m_distribution].
    split; [reflexivity | split; [reflexivity | split]].
    + rewrite Hdiff. split; [discriminate | intros Heq; contradiction].
    + rewrite configure_error. cbn [m_alphaU m_alphaV m_distribution].
      rewrite Hdiff. split; intros [H1 H2]; split; auto.
Qed.

(** Roughness textures attached as children.  A texture named [alpha]
    becomes both members, and the material then configures; a texture
    named [alphaU] or [alphaV] replaces that member alone, and when it is
    not the object of the other member [configure] raises exactly for a
    distribution other than the Ashikhmin-Shirley one. *)
Theorem addChild_roughness (o : Object) (t : Ref) :
  (exists o1, addChild "alpha" (TextureChild t) o = inr o1
              /\ m_alphaU o1 = t /\ m_alphaV o1 = t
              /\ exists o2, configure o1 = inr o2)
  /\ (exists o1, addChild "alphaU" (TextureChild t) o = inr o1
                 /\ m_alphaU o1 = t /\ m_alphaV o1 = m_alphaV o
                 /\ (address t <> address (m_alphaV o) ->
                     (configure o1 = inl EError
                      <-> m_distribution o <> EAshikhminShirley fw)))
  /\ (exists o1, addChild "alphaV" (TextureChild t) o = inr o1
                 /\ m_alphaU o1 = m_alphaU o /\ m_alphaV o1 = t
                 /\ (address (m_alphaU o) <> address t ->
                     (configure o1 = inl EError
                      <-> m_distribution o <> EAshikhminShirley fw))).
Proof.
  split; [| split].
  - eexists. split; [reflexivity |]. cbn [m_alphaU m_alphaV].
    split; [reflexivity | split; [reflexivity |]].
    match goal with |- exists o2, configure ?o1 = inr o2 =>
      destruct (configure_total o1) as [H | H]; [| exact H] end.
    apply configure_error in H. destruct H as [H _].
    cbn [m_alphaU m_alphaV] in H. unfold sameObject in H.
    rewrite Nat.eqb_refl in H. discriminate.
  - eexists. split; [reflexivity |]. cbn [m_alphaU m_alphaV].
    split; [reflexivity | split; [reflexivity |]].
    intros Hne. rewrite configure_error. cbn [m_alphaU m_alphaV m_distribution].
    assert (Hd : sameObject t (m_alphaV o) = false)
      by (unfold sameObject; apply Nat.eqb_neq; exact Hne).
    rewrite Hd. split; [intros [_ H]; exact H | intros H; split; [reflexivity | exact H]].
  - eexists. split; [reflexivity |]. cbn [m_alphaU m_alphaV].
    split; [reflexivity | split; [reflexivity |]].
    intros Hne. rewrite configure_error. cbn [m_alphaU m_alphaV m_distribution].
    assert (Hd : sameObject (m_alphaU o) t = false)
      by (unfold sameObject; apply Nat.eqb_neq; exact Hne).
    rewrite Hd. split; [intros [_ H]; exact H | intros H; split; [reflexivity | exact H]].
Qed.

(** When [configure] succeeds and the base class keeps the component
    list, the list has two entries whatever it held before: a glossy
    reflection and a glossy transmission, both for the front and the back
    side and both usable with a sampler, both anisotropic when the two
    roughness members are different objects, both spatially varying when
    a roughness texture is not constant, and each spatially varying when
    its own colour texture is not constant. *)
Theorem configure_components (o o' : Object) :
  (forall x, m_components (BSDF_configure fw x) = m_components x) ->
  configure o = inr o' ->
  exists c0 c1 : Z,
    m_components o' = [c0; c1]
    /\ contains c0 (EGlossyReflection fw) /\ contains c1 (EGlossyTransmission fw)
    /\ (forall c f, In c [c0; c1] ->
                    In f [EFrontSide fw; EBackSide fw; ECanUseSampler fw] ->
                    contains c f)
    /\ (sameObject (m_alphaU o) (m_alphaV o) = false ->
        contains c0 (EAnisotropic fw) /\ contains c1 (EAnisotropic fw))
    /\ (isConstant (m_alphaU o) && isConstant (m_alphaV o) = false ->
        contains c0 (ESpatiallyVarying fw) /\ contains c1 (ESpatiallyVarying fw))
    /\ (isConstant (m_specularReflectance o) = false ->
        contains c0 (ESpatiallyVarying fw))
    /\ (isConstant (m_specularTransmittance o) = false ->
        contains c1 (ESpatiallyVarying fw)).
Proof.
  intros Hbase. unfold Configuration.configure.
  destruct (sameObject (m_alphaU o) (m_alphaV o)) eqn:Hsame; cbn [negb].
  - intros H. inversion H; subst; clear H. rewrite Hbase. cbn [m_components].
    eexists. eexists. split; [reflexivity |].
    split; [auto 10 with flags | split; [auto 10 with flags |]].
    split.
    { intros c f [<- | [<- | []]] [<- | [<- | [<- | []]]]; auto 10 with flags. }
    split; [discriminate |].
    split.
    { intros Hc.
      assert (Hn : negb (isConstant (m_alphaU o)) || negb (isConstant (m_alphaV o)) = true).
      { destruct (isConstant (m_alphaU o)), (isConstant (m_alphaV o));
          try reflexivity; discriminate. }
      rewrite Hn. split; auto 10 with flags. }
    split; intros Hc; rewrite Hc; auto 10 with flags.
  - destruct (m_distribution o =? EAshikhminShirley fw)%Z; cbn [negb]; [| discriminate].
    intros H. inversion H; subst; clear H. rewrite Hbase. cbn [m_components].
    eexists. eexists. split; [reflexivity |].
    split; [auto 10 with flags | split; [auto 10 with flags |]].
    split.
    { intros c f [<- | [<- | []]] [<- | [<- | [<- | []]]]; auto 10 with flags. }
    split.
    { intros _.
      destruct (negb (isConstant (m_alphaU o)) || negb (isConstant (m_alphaV o)));
        split; auto 10 with flags. }
    split.
    { intros Hc.
      assert (Hn : negb (isConstant (m_alphaU o)) || negb (isConstant (m_alphaV o)) = true).
      { destruct (isConstant (m_alphaU o)), (isConstant (m_alphaV o));
          try reflexivity; discriminate. }
      rewrite Hn. split; auto 10 with flags. }
    split; intros Hc; rewrite Hc; auto 10 with flags.
Qed.

(** A saved material is read back as it was saved.  For a distribution
    type that fits 32 bits and a base class that reads what it wrote,
    constructing from the stream that [serialize] produced gives what
    [configure] gives on the saved material, whatever its component list
    and ray-differential flag were, and leaves the rest of the stream. *)
Theorem serialize_unserialize (o : Object) (rest : list Token) :
  (0 <= m_distribution o < 2 ^ 32)%Z ->
  BSDF_unserialize fw (serialize o ++ rest)
  = Some ([ UInt (uint32 (m_distribution o));
            Instance (m_alphaU o); Instance (m_alphaV o);
            Instance (m_specularReflectance o); Instance (m_specularTransmittance o);
            Float (m_intIOR o); Float (m_extIOR o) ] ++ rest) ->
  unserialize (serialize o ++ rest) = Some (configure o, rest).
Proof.
  intros Hrange Hbase. unfold Configuration.unserialize. rewrite Hbase.
  cbn [app]. unfold uint32. rewrite Z.mod_small by exact Hrange.
  reflexivity.
Qed.

End ConfigurationProperties.

(** ** Configuration and sampling together *)

Section Declared.

Context {Intersection : Type}.
Variable fw : Framework.
Variable fresnel : R -> R -> R -> R.
Variable this : RoughDielectric (Intersection := Intersection).

Local Abbreviation sample :=
  (sample fresnel (EGlossyReflection fw) (EGlossyTransmission fw)
     (SPECTRUM_SAMPLES fw) this).

(** The list that [configure] leaves in [m_components]. *)
Lemma configure_lobes (o o' : Object) :
  (forall x, m_components (BSDF_configure fw x) = m_components x) ->
  configure fw o = inr o' ->
  exists c0 c1 : Z,
    m_components o' = [c0; c1]
    /\ contains c0 (EGlossyReflection fw) /\ contains c1 (EGlossyTransmission fw).
Proof.
  intros Hbase. unfold Configuration.configure.
  destruct (negb (sameObject (m_alphaU o) (m_alphaV o))).
  - destruct (negb (m_distribution o =? EAshikhminShirley fw)%Z); [discriminate |].
    intros H. inversion H; subst; clear H. rewrite Hbase. cbn [m_components].
    eexists. eexists. split; [reflexivity | split; auto 10 with flags].
  - intros H. inversion H; subst; clear H. rewrite Hbase. cbn [m_components].
    eexists. eexists. split; [reflexivity | split; auto 10 with flags].
Qed.

(** When a sample of a configured material carries a weight that is not
    zero, the index it leaves in [sampledComponent] names an entry of the
    component list that [configure] built, and that entry has every bit of
    the type left in [sampledType]. *)
Theorem sampled_component_flags (o o' : Object)
  (bRec : BSDFQueryRecord (Intersection := Intersection))
  (sampler : Sampler) (u : Point2) :
  let b := snd (fst (sample bRec sampler u)) in
  (forall x, m_components (BSDF_configure fw x) = m_components x) ->
  configure fw o = inr o' ->
  isZero (fst (fst (sample bRec sampler u))) = false ->
  exists c : Z,
    nth_error (m_components o') (Z.to_nat (sampledComponent b)) = Some c
    /\ contains c (sampledType b).
Proof.
  intros b Hbase Hconf Hnz.
  destruct (configure_lobes o o' Hbase Hconf) as (c0 & c1 & Hc & H0 & H1).
  destruct (sample_accepted fresnel (EGlossyReflection fw) (EGlossyTransmission fw)
              (SPECTRUM_SAMPLES fw) this bRec sampler u Hnz) as [Hen Hs].
  fold b in Hs.
  destruct (scatter_component fresnel (EGlossyReflection fw) (EGlossyTransmission fw)
              this bRec b sampler _ Hen Hs)
    as [(Hi & Ht & _) | (Hi & Ht & _)]; rewrite Hc, Hi, Ht.
  - exists c0. split; [reflexivity | exact H0].
  - exists c1. split; [reflexivity | exact H1].
Qed.

End Declared.

(** ** Construction, configuration and persistence at the scenes *)

Lemma scene_construct :
  construct scene_framework scene_properties 0
  = inr (mkObject 0
           (mkRef 1 (ConstantSpectrumTexture [1; 1; 1]))
           (mkRef 0 (ConstantSpectrumTexture [1; 1; 1]))
           (mkRef 2 (ConstantFloatTexture (1 / 5)))
           (mkRef 3 (ConstantFloatTexture 0.1))
           (3 / 2) 1 [] false, 4%nat).
Proof.
  unfold Configuration.construct, new, checkIOR. cbn. compare. cbn. compare.
  reflexivity.
Qed.

Lemma construct_configure_witness :
  exists (o : Object) (next : nat),
    construct scene_framework scene_properties 0 = inr (o, next)
    /\ sameObject (m_alphaU o) (m_alphaV o) = false
    /\ configure scene_framework o = inl EError.
Proof.
  eexists. eexists. split; [exact scene_construct |].
  destruct (construct_configure scene_framework scene_properties 0 4 _ scene_construct)
    as (_ & _ & _ & Herr).
  split; [reflexivity |].
  apply Herr. cbn. split; [lra | lia].
Defined.

Lemma addChild_roughness_witness :
  exists o1 : Object,
    addChild scene_framework "alphaU"
      (TextureChild (mkRef 7 (OtherTexture false false))) (scene_object 0) = inr o1
    /\ configure scene_framework o1 = inl EError.
Proof.
  destruct (addChild_roughness scene_framework (scene_object 0)
              (mkRef 7 (OtherTexture false false)))
    as (_ & (o1 & Hadd & _ & _ & Herr) & _).
  exists o1. split; [exact Hadd |].
  apply Herr; cbn; lia.
Defined.

Lemma configure_components_witness :
  exists o' : Object,
    configure scene_framework (scene_object 3) = inr o'
    /\ exists c0 c1 : Z,
         m_components o' = [c0; c1]
         /\ contains c0 4096 /\ contains c1 4096
         /\ contains c0 8192 /\ contains c1 8192.
Proof.
  eexists. split; [reflexivity |].
  destruct (configure_components scene_framework (scene_object 3) _
              (fun x => eq_refl) eq_refl)
    as (c0 & c1 & Hc & _ & _ & _ & Han & Hsv & _).
  exists c0, c1. split; [exact Hc |].
  destruct (Han eq_refl) as [A0 A1]. destruct (Hsv eq_refl) as [S0 S1].
  repeat split; assumption.
Defined.

Lemma serialize_unserialize_witness :
  unserialize scene_framework (serialize scene_framework (scene_object 3) ++ [UInt 5])
  = Some (configure scene_framework (scene_object 3), [UInt 5]).
Proof.
  apply (serialize_unserialize scene_framework (scene_object 3) [UInt 5]).
  - cbn. lia.
  - reflexivity.
Defined.

Lemma sampled_component_flags_witness :
  exists c : Z,
    nth_error [471044%Z; 471048%Z]
      (Z.to_nat (sampledComponent
                   (snd (fst (sample scene_fresnel 4 8 3 glass (scene_query 4 up unset 0 0)
                                (scene_sampler (3 / 4)) (0, 0)))))) = Some c
    /\ contains c (sampledType
                     (snd (fst (sample scene_fresnel 4 8 3 glass (scene_query 4 up unset 0 0)
                                  (scene_sampler (3 / 4)) (0, 0))))).
Proof.
  unshelve epose proof (sampled_component_flags scene_framework scene_fresnel glass
                          (scene_object 3) _ (scene_query 4 up unset 0 0)
                          (scene_sampler (3 / 4)) (0, 0) (fun x => eq_refl) eq_refl _) as W.
  - cbn [EGlossyReflection EGlossyTransmission SPECTRUM_SAMPLES scene_framework].
    rewrite glass_sample. cbn [fst]. unfold isZero. simpl forallb. compare. reflexivity.
  - exact W.
Defined.
